(** * CPU scheduling simulator: SRTF, Round Robin, priority-preemptive RR

    Shallow embedding of
      - [Skeleton_codes/shortest_remaining_time_first.c]
      - [Skeleton_codes/skeleton_round_robin.c]
        (the circular queue, [round_robin] and [priority_preemptive_rr]).

    C [int] values are integers of [Z].  The engines are partial: a run
    that would read an array outside its bounds or increment the virtual
    clock past [INT_MAX] has no defined result in C, and the model answers
    [Undefined] there.  Arrays are lists read with [!!] and written with
    [<[ i := v ]>]. *)

From Stdlib Require Import ZArith Lia Bool.
From stdpp Require Import base tactics option numbers sorting list.

Open Scope Z_scope.

(** ** Process records and the scheduler context *)

Definition INT_MAX : Z := 2147483647.
Definition QUEUE_MAX : Z := 1000.

Record Process := mkProcess {
  pid : Z;
  arrival_time : Z;
  burst_time : Z;
  priority : Z;
  remaining_time : Z;
  completion_time : Z
}.

Record SchedulerContext := mkContext {
  processes : list Process;
  num_processes : Z;
  time_quantum : Z
}.

Definition set_remaining_time (p : Process) (v : Z) : Process :=
  mkProcess (pid p) (arrival_time p) (burst_time p) (priority p) v (completion_time p).

Definition set_completion_time (p : Process) (v : Z) : Process :=
  mkProcess (pid p) (arrival_time p) (burst_time p) (priority p) (remaining_time p) v.

Definition set_processes (ctx : SchedulerContext) (ps : list Process) : SchedulerContext :=
  mkContext ps (num_processes ctx) (time_quantum ctx).

(** The fields an engine is given and never asked to change. *)
Definition static_fields (p : Process) : Z * Z * Z * Z :=
  (pid p, arrival_time p, burst_time p, priority p).

(** Modelled from the spec: [reset_process_states] is declared in
    CPU_scheduler.h, which is not among the sources.  The spec describes it as
    the function that "restores every process's remaining_time to burst_time
    and clears completion_time"; the cleared value is [COMPLETION_UNSET]. *)
Definition COMPLETION_UNSET : Z := 0.

Definition reset_process (p : Process) : Process :=
  mkProcess (pid p) (arrival_time p) (burst_time p) (priority p)
            (burst_time p) COMPLETION_UNSET.

Definition reset_process_states (ps : list Process) : list Process :=
  map reset_process ps.

(** How a scheduling loop was left, and what a whole run produces. *)
Inductive exit_kind := LoopCondition | DefensiveBreak | EarlyReturn.

Inductive run_result (A : Type) :=
  | Finished (how : exit_kind) (a : A)
  | Undefined
  | OutOfFuel.
Arguments Finished {A} how a.
Arguments Undefined {A}.
Arguments OutOfFuel {A}.

Inductive iter_result (A : Type) :=
  | Continue (a : A)
  | Break (a : A)
  | Fault.
Arguments Continue {A} a.
Arguments Break {A} a.
Arguments Fault {A}.

(** The active records of a context are the first [num_processes] entries of
    its array; an engine leaves the others alone. *)
Definition on_context (engine : list Process -> run_result (list Process))
    (ctx : SchedulerContext) : run_result SchedulerContext :=
  let n := Z.to_nat (num_processes ctx) in
  if (length (processes ctx) <? n)%nat then Undefined
  else match engine (take n (processes ctx)) with
       | Finished how ps => Finished how (set_processes ctx (ps ++ drop n (processes ctx)))
       | Undefined => Undefined
       | OutOfFuel => OutOfFuel
       end.

(** The bubble sort both files use: [for i < n-1, for j < n-1-i], exchanging
    the neighbours at [j] and [j+1] when [swap] says so. *)
Definition exchange {A} (swap : A -> A -> bool) (l : list A) (j : nat) : list A :=
  match l !! j, l !! S j with
  | Some a, Some b => if swap a b then <[j := b]> (<[S j := a]> l) else l
  | _, _ => l
  end.

Fixpoint bubble_inner {A} (swap : A -> A -> bool) (l : list A) (j steps : nat) : list A :=
  match steps with
  | O => l
  | S steps' => bubble_inner swap (exchange swap l j) (S j) steps'
  end.

Fixpoint bubble_outer {A} (swap : A -> A -> bool) (l : list A) (i passes : nat) : list A :=
  match passes with
  | O => l
  | S passes' =>
      bubble_outer swap (bubble_inner swap l 0 (length l - 1 - i)) (S i) passes'
  end.

Definition bubble_sort {A} (swap : A -> A -> bool) (l : list A) : list A :=
  bubble_outer swap l 0 (length l - 1).

(** [ctx->processes[idx].pid] for an index that is known to lie below [n]. *)
Definition pid_at (ps : list Process) (idx : nat) : Z :=
  match ps !! idx with Some p => pid p | None => 0 end.

(** The order of the SRT tie-breaking rule: remaining time, then arrival
    time, then pid.  [preferred p q] says that [p] comes no later than [q]. *)
Definition preferred (p q : Process) : Prop :=
  remaining_time p < remaining_time q
  \/ (remaining_time p = remaining_time q
      /\ (arrival_time p < arrival_time q
          \/ (arrival_time p = arrival_time q /\ pid p <= pid q))).

Definition sum_Z (l : list Z) : Z := foldr Z.add 0 l.

Definition total_remaining (ps : list Process) : nat :=
  Z.to_nat (sum_Z (map (fun p => Z.max 0 (remaining_time p)) ps)).

(** Idle jump shared by the two scanning engines: the least arrival time,
    strictly after [now], of a process that still has work left. *)
Definition next_arrival_step (now : Z) (next_arrival : Z) (p : Process) : Z :=
  if (0 <? remaining_time p) && (now <? arrival_time p) && (arrival_time p <? next_arrival)
  then arrival_time p else next_arrival.

Definition next_arrival (ps : list Process) (now : Z) : Z :=
  fold_left (next_arrival_step now) ps INT_MAX.

Definition is_future (now : Z) (p : Process) : Z :=
  if (0 <? remaining_time p) && (now <? arrival_time p) then 1 else 0.

Definition future_count (ps : list Process) (now : Z) : nat :=
  Z.to_nat (sum_Z (map (is_future now) ps)).

Record ClockState := mkClock {
  cs_processes : list Process;
  current_time : Z;
  completed : Z
}.

(** One virtual time unit given to the process [p] stored at index [idx]:
    the clock and the remaining time move by one, and a remaining time of 0
    records the completion.  Both unit-stepping engines do exactly this. *)
Definition run_unit (st : ClockState) (idx : nat) (p : Process) : ClockState :=
  let now := current_time st + 1 in
  let p1 := set_remaining_time p (remaining_time p - 1) in
  if remaining_time p1 =? 0 then
    mkClock (<[idx := set_completion_time p1 now]> (cs_processes st)) now (completed st + 1)
  else
    mkClock (<[idx := p1]> (cs_processes st)) now (completed st).

(** Both unit-stepping engines start the same way: the reset, then the copy
    of [burst_time] into [remaining_time], clock and counter at 0. *)
Definition initial (ps : list Process) : ClockState :=
  mkClock (map (fun p => set_remaining_time p (burst_time p)) (reset_process_states ps)) 0 0.

(** Bound on the number of iterations left: every iteration either runs a
    unit or jumps over a pending arrival. *)
Definition measure (st : ClockState) : nat :=
  (total_remaining (cs_processes st)
     + future_count (cs_processes st) (current_time st))%nat.

(** ** Shortest remaining time first *)

Module SRT.

Definition eligible (now : Z) (p : Process) : bool :=
  (arrival_time p <=? now) && (0 <? remaining_time p).

(** [ctx->processes[shortest]] with [shortest] an [int] that starts at -1. *)
Definition read (ps : list Process) (i : Z) : option Process :=
  if i <? 0 then None else ps !! Z.to_nat i.

(** Body of the selection loop at index [i]; the accumulator is
    [(shortest, min_remaining_time)]. *)
Definition select_step (ps : list Process) (now : Z) (acc : Z * Z)
    (i : nat) (p : Process) : option (Z * Z) :=
  let '(shortest, min_remaining_time) := acc in
  if eligible now p then
    if remaining_time p <? min_remaining_time then
      Some (Z.of_nat i, remaining_time p)
    else if remaining_time p =? min_remaining_time then
      match read ps shortest with
      | None => None
      | Some best =>
          if arrival_time p <? arrival_time best then
            Some (Z.of_nat i, min_remaining_time)
          else if arrival_time p =? arrival_time best then
            if pid p <? pid best then Some (Z.of_nat i, min_remaining_time)
            else Some acc
          else Some acc
      end
    else Some acc
  else Some acc.

Fixpoint select_loop (ps : list Process) (now : Z) (i : nat)
    (rest : list Process) (acc : Z * Z) : option (Z * Z) :=
  match rest with
  | [] => Some acc
  | p :: rest' =>
      match select_step ps now acc i p with
      | None => None
      | Some acc' => select_loop ps now (S i) rest' acc'
      end
  end.

Definition select (ps : list Process) (now : Z) : option (Z * Z) :=
  select_loop ps now 0 ps (-1, INT_MAX).

(** Body of [while (completed < n)]. *)
Definition iteration (st : ClockState) : iter_result ClockState :=
  match select (cs_processes st) (current_time st) with
  | None => Fault
  | Some (shortest, _) =>
      if shortest =? -1 then
        let next := next_arrival (cs_processes st) (current_time st) in
        if next =? INT_MAX then Break st
        else Continue (mkClock (cs_processes st) next (completed st))
      else
        match read (cs_processes st) shortest with
        | None => Fault
        | Some p =>
            if INT_MAX <=? current_time st then Fault
            else Continue (run_unit st (Z.to_nat shortest) p)
        end
  end.

Fixpoint loop (fuel : nat) (n : Z) (st : ClockState) : run_result ClockState :=
  if completed st <? n then
    match fuel with
    | O => OutOfFuel
    | S fuel' =>
        match iteration st with
        | Continue st' => loop fuel' n st'
        | Break st' => Finished DefensiveBreak st'
        | Fault => Undefined
        end
    end
  else Finished LoopCondition st.

Definition run (ps : list Process) : run_result ClockState :=
  let st := initial ps in
  loop (S (measure st)) (Z.of_nat (length ps)) st.

Definition shortest_remaining_time_first_on (ps : list Process)
    : run_result (list Process) :=
  match run ps with
  | Finished how st => Finished how (cs_processes st)
  | Undefined => Undefined
  | OutOfFuel => OutOfFuel
  end.

Definition shortest_remaining_time_first (ctx : SchedulerContext)
    : run_result SchedulerContext :=
  on_context shortest_remaining_time_first_on ctx.

(** States the main loop can be in when it tests its condition. *)
Inductive reachable (ps : list Process) : ClockState -> Prop :=
  | reach_initial : reachable ps (initial ps)
  | reach_step st st' :
      reachable ps st ->
      completed st < Z.of_nat (length ps) ->
      iteration st = Continue st' ->
      reachable ps st'.

End SRT.

(** ** Priority-preemptive scheduling with round robin among equals *)

Module PPRR.

Definition effective_quantum (time_quantum : Z) : Z :=
  if time_quantum <=? 0 then 2 else time_quantum.

(** Body of the loop that builds [ready_processes]; the accumulator is
    [(highest_priority, ready_processes[0 .. ready_count))]. *)
Definition collect_step (now : Z) (acc : Z * list nat) (i : nat) (p : Process)
    : Z * list nat :=
  let '(highest_priority, ready) := acc in
  if (arrival_time p <=? now) && (0 <? remaining_time p) then
    if priority p <? highest_priority then (priority p, [i])
    else if priority p =? highest_priority then (highest_priority, ready ++ [i])
    else acc
  else acc.

Fixpoint collect_loop (now : Z) (i : nat) (rest : list Process)
    (acc : Z * list nat) : Z * list nat :=
  match rest with
  | [] => acc
  | p :: rest' => collect_loop now (S i) rest' (collect_step now acc i p)
  end.

Definition collect (ps : list Process) (now : Z) : Z * list nat :=
  collect_loop now 0 ps (INT_MAX, []).

Definition sort_ready (ps : list Process) (ready : list nat) : list nat :=
  bubble_sort (fun idx_a idx_b => pid_at ps idx_b <? pid_at ps idx_a) ready.

(** The scan after each unit: did a process of strictly higher priority
    arrive exactly now? *)
Definition higher_priority_arrival (ps : list Process) (now highest_priority : Z) : bool :=
  existsb (fun q => (arrival_time q =? now) && (0 <? remaining_time q)
                    && (priority q <? highest_priority)) ps.

(** [for (t = 0; t < run_for; t++)] with [units] iterations left.  The
    boolean is [higher_priority_arrived]. *)
Fixpoint slice (highest_priority : Z) (idx : nat) (units : nat) (st : ClockState)
    : option (ClockState * bool) :=
  match units with
  | O => Some (st, false)
  | S units' =>
      match cs_processes st !! idx with
      | None => None
      | Some p =>
          if INT_MAX <=? current_time st then None
          else
            let st' := run_unit st idx p in
            if higher_priority_arrival (cs_processes st') (current_time st') highest_priority
            then Some (st', true)
            else if remaining_time p - 1 =? 0 then Some (st', false)
            else slice highest_priority idx units' st'
      end
  end.

Definition run_for (time_quantum : Z) (p : Process) : Z :=
  if remaining_time p <? time_quantum then remaining_time p else time_quantum.

(** [for (r = 0; r < ready_count && completed < n; r++)] over the members
    still to visit. *)
Fixpoint rotation (time_quantum highest_priority n : Z) (ready : list nat)
    (st : ClockState) : option (ClockState * bool) :=
  match ready with
  | [] => Some (st, false)
  | idx :: ready' =>
      if completed st <? n then
        match cs_processes st !! idx with
        | None => None
        | Some p =>
            if remaining_time p <=? 0 then
              rotation time_quantum highest_priority n ready' st
            else
              match slice highest_priority idx (Z.to_nat (run_for time_quantum p)) st with
              | None => None
              | Some (st', true) => Some (st', true)
              | Some (st', false) => rotation time_quantum highest_priority n ready' st'
              end
        end
      else Some (st, false)
  end.

(** Body of [while (completed < n)]. *)
Definition iteration (time_quantum n : Z) (st : ClockState) : iter_result ClockState :=
  let '(highest_priority, ready) := collect (cs_processes st) (current_time st) in
  match ready with
  | [] =>
      let next := next_arrival (cs_processes st) (current_time st) in
      if next =? INT_MAX then Break st
      else Continue (mkClock (cs_processes st) next (completed st))
  | _ :: _ =>
      match rotation time_quantum highest_priority n
              (sort_ready (cs_processes st) ready) st with
      | None => Fault
      | Some (st', _) => Continue st'
      end
  end.

Fixpoint loop (fuel : nat) (time_quantum n : Z) (st : ClockState)
    : run_result ClockState :=
  if completed st <? n then
    match fuel with
    | O => OutOfFuel
    | S fuel' =>
        match iteration time_quantum n st with
        | Continue st' => loop fuel' time_quantum n st'
        | Break st' => Finished DefensiveBreak st'
        | Fault => Undefined
        end
    end
  else Finished LoopCondition st.

Definition run (time_quantum : Z) (ps : list Process) : run_result ClockState :=
  let st := initial ps in
  loop (S (measure st)) (effective_quantum time_quantum) (Z.of_nat (length ps)) st.

Definition priority_preemptive_rr_on (time_quantum : Z) (ps : list Process)
    : run_result (list Process) :=
  match run time_quantum ps with
  | Finished how st => Finished how (cs_processes st)
  | Undefined => Undefined
  | OutOfFuel => OutOfFuel
  end.

Definition priority_preemptive_rr (ctx : SchedulerContext) : run_result SchedulerContext :=
  on_context (priority_preemptive_rr_on (time_quantum ctx)) ctx.

Inductive reachable (time_quantum : Z) (ps : list Process) : ClockState -> Prop :=
  | reach_initial : reachable time_quantum ps (initial ps)
  | reach_step st st' :
      reachable time_quantum ps st ->
      completed st < Z.of_nat (length ps) ->
      iteration (effective_quantum time_quantum) (Z.of_nat (length ps)) st = Continue st' ->
      reachable time_quantum ps st'.

End PPRR.

(** ** Round robin over a circular ready queue *)

Module RR.

Record Queue := mkQueue {
  items : list Z;
  front : Z;
  rear : Z
}.

Definition init_queue (q : Queue) : Queue := mkQueue (items q) (-1) (-1).

Definition is_empty (q : Queue) : bool := front q =? -1.

(** The first branch is the silent drop on a full queue. *)
Definition enqueue (q : Queue) (pid : Z) : Queue :=
  if Z.rem (rear q + 1) QUEUE_MAX =? front q then q
  else if is_empty q then mkQueue (<[O := pid]> (items q)) 0 0
  else
    let rear' := Z.rem (rear q + 1) QUEUE_MAX in
    mkQueue (<[Z.to_nat rear' := pid]> (items q)) (front q) rear'.

Definition full (q : Queue) : bool := Z.rem (rear q + 1) QUEUE_MAX =? front q.

Definition item_at (q : Queue) (i : Z) : Z :=
  match items q !! Z.to_nat i with Some v => v | None => 0 end.

Definition dequeue (q : Queue) : Z * Queue :=
  if is_empty q then (-1, q)
  else
    let item := item_at q (front q) in
    if front q =? rear q then (item, mkQueue (items q) (-1) (-1))
    else (item, mkQueue (items q) (Z.rem (front q + 1) QUEUE_MAX) (rear q)).

(** The indices stored in the queue, front first. *)
Definition occupancy (q : Queue) : nat :=
  if is_empty q then O
  else S (Z.to_nat ((rear q - front q) mod QUEUE_MAX)).

Definition contents (q : Queue) : list Z :=
  map (fun k => item_at q ((front q + Z.of_nat k) mod QUEUE_MAX)) (seq 0 (occupancy q)).

Record State := mkState {
  procs : list Process;
  time : Z;
  completed : Z;
  remaining_time : list Z;
  is_completed : list bool;
  in_ready_queue : list bool;
  q : Queue
}.

Definition flag (l : list bool) (i : nat) : bool :=
  match l !! i with Some b => b | None => false end.

Definition swap_needed (a b : Process) : bool :=
  (arrival_time b <? arrival_time a)
  || ((arrival_time a =? arrival_time b) && (pid b <? pid a)).

(** The three tests that admit process [i] to the queue. *)
Definition arrives_at_zero (in_queue : list bool) (i : nat) (p : Process) : bool :=
  arrival_time p =? 0.

Definition arrives_at (done : list bool) (now : Z)
    (in_queue : list bool) (i : nat) (p : Process) : bool :=
  negb (flag done i) && (arrival_time p =? now) && negb (flag in_queue i).

Definition arrives_within (done : list bool) (start_time now : Z)
    (in_queue : list bool) (i : nat) (p : Process) : bool :=
  negb (flag done i) && negb (flag in_queue i)
  && (start_time <? arrival_time p) && (arrival_time p <=? now).

(** [for (i = 0; i < n; i++) if (test) { enqueue(&q, i); in_ready_queue[i] = true; }] *)
Fixpoint enqueue_loop (test : list bool -> nat -> Process -> bool) (i : nat)
    (rest : list Process) (qu : Queue) (in_queue : list bool) : Queue * list bool :=
  match rest with
  | [] => (qu, in_queue)
  | p :: rest' =>
      if test in_queue i p then
        enqueue_loop test (S i) rest' (enqueue qu (Z.of_nat i)) (<[i := true]> in_queue)
      else enqueue_loop test (S i) rest' qu in_queue
  end.

Fixpoint next_arrival_loop (done : list bool) (now : Z) (i : nat)
    (rest : list Process) (next_arrival_time : Z) : Z :=
  match rest with
  | [] => next_arrival_time
  | p :: rest' =>
      next_arrival_loop done now (S i) rest'
        (if negb (flag done i) && (now <? arrival_time p)
            && (arrival_time p <? next_arrival_time)
         then arrival_time p else next_arrival_time)
  end.

Definition next_arrival_time (st : State) : Z :=
  next_arrival_loop (is_completed st) (time st) 0 (procs st) INT_MAX.

Definition exec_time (time_quantum remaining : Z) : Z :=
  if remaining <? time_quantum then remaining else time_quantum.

Definition in_int (z : Z) : bool := (- INT_MAX - 1 <=? z) && (z <=? INT_MAX).

(** The idle branch of the main loop. *)
Definition idle (st : State) : iter_result State :=
  let next := next_arrival_time st in
  if next =? INT_MAX then Break st
  else
    let '(q', in_queue') :=
      enqueue_loop (arrives_at (is_completed st) next) 0 (procs st)
                   (q st) (in_ready_queue st) in
    Continue (mkState (procs st) next (completed st) (remaining_time st)
                      (is_completed st) in_queue' q').

(** The branch that dequeues a process and runs one slice of it. *)
Definition run_slice (time_quantum : Z) (st : State) : iter_result State :=
  let '(idx, q1) := dequeue (q st) in
  if idx <? 0 then Fault
  else
    let i := Z.to_nat idx in
    let in_queue1 := <[i := false]> (in_ready_queue st) in
    match procs st !! i, remaining_time st !! i with
    | Some p, Some remaining =>
        let exec := exec_time time_quantum remaining in
        let start_time := time st in
        let now := time st + exec in
        if negb (in_int now) then Fault
        else
          let remaining' := remaining - exec in
          let '(q2, in_queue2) :=
            enqueue_loop (arrives_within (is_completed st) start_time now) 0
                         (procs st) q1 in_queue1 in
          if remaining' =? 0 then
            Continue (mkState (<[i := set_completion_time p now]> (procs st)) now
                              (completed st + 1)
                              (<[i := remaining']> (remaining_time st))
                              (<[i := true]> (is_completed st)) in_queue2 q2)
          else
            Continue (mkState (procs st) now (completed st)
                              (<[i := remaining']> (remaining_time st))
                              (is_completed st) (<[i := true]> in_queue2)
                              (enqueue q2 idx))
    | _, _ => Fault
    end.

(** Body of [while (completed < n)]. *)
Definition iteration (time_quantum : Z) (st : State) : iter_result State :=
  if is_empty (q st) then idle st else run_slice time_quantum st.

Fixpoint loop (fuel : nat) (time_quantum n : Z) (st : State) : run_result State :=
  if completed st <? n then
    match fuel with
    | O => OutOfFuel
    | S fuel' =>
        match iteration time_quantum st with
        | Continue st' => loop fuel' time_quantum n st'
        | Break st' => Finished DefensiveBreak st'
        | Fault => Undefined
        end
    end
  else Finished LoopCondition st.

(** The state in which the main loop is entered: reset, sort, copy of the
    burst times, empty queue, then the processes that arrive at 0. *)
Definition initial (ps : list Process) : State :=
  let sorted := bubble_sort swap_needed (reset_process_states ps) in
  let n := length sorted in
  let '(q0, in_queue0) :=
    enqueue_loop arrives_at_zero 0 sorted
                 (init_queue (mkQueue (replicate (Z.to_nat QUEUE_MAX) 0) 0 0))
                 (replicate n false) in
  mkState sorted 0 0 (map burst_time sorted) (replicate n false) in_queue0 q0.

(** The iterations allowed to a run: one for each unit of work and two for
    each process, its admission after an idle jump and a slice that
    completes it without using up work. *)
Definition fuel_for (ps : list Process) : nat :=
  S (Z.to_nat (sum_Z (map (fun p => Z.max 0 (burst_time p)) ps))
     + length ps + length ps).

Definition run (time_quantum : Z) (ps : list Process) : run_result State :=
  loop (fuel_for ps) time_quantum (Z.of_nat (length ps)) (initial ps).

Definition round_robin_on (time_quantum : Z) (ps : list Process)
    : run_result (list Process) :=
  match run time_quantum ps with
  | Finished how st => Finished how (procs st)
  | Undefined => Undefined
  | OutOfFuel => OutOfFuel
  end.

Definition round_robin (ctx : SchedulerContext) (time_quantum : Z)
    : run_result SchedulerContext :=
  if (time_quantum <=? 0) || (num_processes ctx <=? 0) then Finished EarlyReturn ctx
  else on_context (round_robin_on time_quantum) ctx.

Inductive reachable (time_quantum : Z) (ps : list Process) : State -> Prop :=
  | reach_initial : reachable time_quantum ps (initial ps)
  | reach_step st st' :
      reachable time_quantum ps st ->
      completed st < Z.of_nat (length ps) ->
      iteration time_quantum st = Continue st' ->
      reachable time_quantum ps st'.




End RR.

(** ** Vocabulary of the statements *)

(** What the accumulator [(shortest, min_remaining_time)] of the SRT scan
    means once the scan has gone through the prefix [pre]. *)
Definition selection_of (now : Z) (pre : list Process) (acc : Z * Z) : Prop :=
  (acc = (-1, INT_MAX) /\ Forall (fun q => SRT.eligible now q = false) pre)
  \/ (exists s p, acc = (Z.of_nat s, remaining_time p)
        /\ pre !! s = Some p
        /\ SRT.eligible now p = true
        /\ Forall (fun q => SRT.eligible now q = true -> preferred p q) pre).

(** Whatever the SRT scan returns is -1 or the index of an eligible process. *)
Definition names_eligible (ps : list Process) (now : Z) (shortest : Z) : Prop :=
  shortest = -1
  \/ exists i p, shortest = Z.of_nat i /\ ps !! i = Some p /\ SRT.eligible now p = true.

(** Inputs as the data model describes them. *)
Definition valid_process (p : Process) : Prop :=
  0 <= arrival_time p /\ 0 < burst_time p.

Definition valid_input (ps : list Process) : Prop := Forall valid_process ps.

Definition max_arrival (ps : list Process) : Z := foldr Z.max 0 (map arrival_time ps).

Definition total_burst (ps : list Process) : Z := sum_Z (map burst_time ps).

(** No schedule of [ps] can take the clock past this value. *)
Definition horizon (ps : list Process) : Z := max_arrival ps + total_burst ps.

(** What holds of each record while a unit-stepping engine runs: executed
    units lie after the arrival, and a finished process carries the clock
    value at which it finished. *)
Definition process_ok (latest now : Z) (p : Process) : Prop :=
  0 <= arrival_time p <= latest
  /\ 0 < burst_time p
  /\ 0 <= remaining_time p <= burst_time p
  /\ (remaining_time p < burst_time p ->
      arrival_time p + (burst_time p - remaining_time p) <= now)
  /\ (remaining_time p = 0 ->
      arrival_time p + burst_time p <= completion_time p <= now).

Definition done_flag (p : Process) : Z := if remaining_time p =? 0 then 1 else 0.

Record clock_inv (latest bound : Z) (st : ClockState) : Prop := mkClockInv {
  inv_each : Forall (process_ok latest (current_time st)) (cs_processes st);
  inv_count : completed st = sum_Z (map done_flag (cs_processes st));
  inv_clock : 0 <= current_time st
              /\ current_time st + sum_Z (map remaining_time (cs_processes st)) <= bound;
  inv_bound : latest + sum_Z (map burst_time (cs_processes st)) <= bound
}.

(** A process that has finished, as the caller sees it. *)
Definition finished_process (p : Process) : Prop :=
  remaining_time p = 0
  /\ completion_time p <> COMPLETION_UNSET
  /\ arrival_time p + burst_time p <= completion_time p.

(** What the SRT loop keeps true of every record, whatever the input. *)
Definition within_burst (p : Process) : Prop :=
  remaining_time p <= burst_time p /\ burst_time p < INT_MAX.

(** A member of the ready group of the priority engine at time [now]. *)
Definition ready_member (now : Z) (ps : list Process) (idx : nat) : Prop :=
  exists p, ps !! idx = Some p /\ arrival_time p <= now /\ 0 < remaining_time p.

(** A process stored at [idx] that has arrived by the current time. *)
Definition arrived (st : ClockState) (idx : nat) : Prop :=
  exists p, cs_processes st !! idx = Some p /\ arrival_time p <= current_time st.

(** The circular buffer is either empty (both pointers -1) or has both
    pointers inside the array. *)
Definition queue_wf (qu : RR.Queue) : Prop :=
  length (RR.items qu) = Z.to_nat QUEUE_MAX
  /\ ((RR.front qu = -1 /\ RR.rear qu = -1)
      \/ (0 <= RR.front qu < QUEUE_MAX /\ 0 <= RR.rear qu < QUEUE_MAX)).

(** The indices an admission loop enqueues, in the order it enqueues them:
    those whose test succeeds. *)
Fixpoint admitted (test : list bool -> nat -> Process -> bool) (in_queue : list bool)
    (i : nat) (rest : list Process) : list nat :=
  match rest with
  | [] => []
  | p :: rest' =>
      if test in_queue i p then i :: admitted test in_queue (S i) rest'
      else admitted test in_queue (S i) rest'
  end.

(** No call of [enqueue] made by an admission loop finds the queue full. *)
Fixpoint enqueue_loop_never_full (test : list bool -> nat -> Process -> bool) (i : nat)
    (rest : list Process) (qu : RR.Queue) (in_queue : list bool) : Prop :=
  match rest with
  | [] => True
  | p :: rest' =>
      if test in_queue i p then
        RR.full qu = false
        /\ enqueue_loop_never_full test (S i) rest' (RR.enqueue qu (Z.of_nat i))
                                   (<[i := true]> in_queue)
      else enqueue_loop_never_full test (S i) rest' qu in_queue
  end.

(** The same for the calls of [enqueue] made before the main loop, in its
    idle branch, and in the branch that runs a slice. *)
Definition initial_never_full (ps : list Process) : Prop :=
  let sorted := bubble_sort RR.swap_needed (reset_process_states ps) in
  enqueue_loop_never_full RR.arrives_at_zero 0 sorted
    (RR.init_queue (RR.mkQueue (replicate (Z.to_nat QUEUE_MAX) 0) 0 0))
    (replicate (length sorted) false).

Definition idle_never_full (st : RR.State) : Prop :=
  RR.next_arrival_time st <> INT_MAX ->
  enqueue_loop_never_full (RR.arrives_at (RR.is_completed st) (RR.next_arrival_time st)) 0
    (RR.procs st) (RR.q st) (RR.in_ready_queue st).

Definition slice_never_full (time_quantum : Z) (st : RR.State) : Prop :=
  let '(idx, q1) := RR.dequeue (RR.q st) in
  let i := Z.to_nat idx in
  let in_queue1 := <[i := false]> (RR.in_ready_queue st) in
  match RR.remaining_time st !! i with
  | Some remaining =>
      let exec := RR.exec_time time_quantum remaining in
      let test := RR.arrives_within (RR.is_completed st) (RR.time st) (RR.time st + exec) in
      enqueue_loop_never_full test 0 (RR.procs st) q1 in_queue1
      /\ (remaining - exec <> 0 ->
          RR.full (RR.enqueue_loop test 0 (RR.procs st) q1 in_queue1).1 = false)
  | None => True
  end.

Definition iteration_never_full (time_quantum : Z) (st : RR.State) : Prop :=
  if RR.is_empty (RR.q st) then idle_never_full st else slice_never_full time_quantum st.

(** The flags [in_ready_queue] and the queue tell the same story. *)
Record queue_inv (n : nat) (qu : RR.Queue) (in_queue : list bool) : Prop := mkQueueInv {
  qi_wf : queue_wf qu;
  qi_nodup : NoDup (RR.contents qu);
  qi_length : length in_queue = n;
  qi_flags : forall x, x ∈ RR.contents qu
                       <-> exists i, x = Z.of_nat i /\ RR.flag in_queue i = true
}.

(** What round robin keeps true of the process at one index: [remaining] is
    its entry of the local array, [done] and [queued] its two flags. *)
Definition rr_process_ok (now : Z) (done queued : bool) (p : Process) (remaining : Z) : Prop :=
  0 <= arrival_time p
  /\ 0 < burst_time p
  /\ 0 <= remaining <= burst_time p
  /\ (done = true <-> remaining = 0)
  /\ (remaining < burst_time p -> arrival_time p + (burst_time p - remaining) <= now)
  /\ (remaining = 0 -> arrival_time p + burst_time p <= completion_time p <= now)
  /\ (queued = true -> arrival_time p <= now /\ done = false)
  /\ (done = false -> arrival_time p <= now -> queued = true).

Definition bool_count (l : list bool) : Z :=
  sum_Z (map (fun b : bool => if b then 1 else 0) l).

Record rr_inv (st : RR.State) : Prop := mkRRInv {
  ri_len_remaining : length (RR.remaining_time st) = length (RR.procs st);
  ri_len_completed : length (RR.is_completed st) = length (RR.procs st);
  ri_queue : queue_inv (length (RR.procs st)) (RR.q st) (RR.in_ready_queue st);
  ri_each : forall i p r,
      RR.procs st !! i = Some p -> RR.remaining_time st !! i = Some r ->
      rr_process_ok (RR.time st) (RR.flag (RR.is_completed st) i)
                    (RR.flag (RR.in_ready_queue st) i) p r;
  ri_count : RR.completed st = bool_count (RR.is_completed st);
  ri_time : 0 <= RR.time st
}.

(** The clock of round robin stays below [bound]. *)
Definition rr_bounded (latest bound : Z) (st : RR.State) : Prop :=
  RR.time st + sum_Z (RR.remaining_time st) <= bound
  /\ latest + sum_Z (map burst_time (RR.procs st)) <= bound
  /\ Forall (fun p => arrival_time p <= latest) (RR.procs st).

Definition rr_is_future (now : Z) (p : Process) : Z :=
  if now <? arrival_time p then 1 else 0.

Definition rr_measure (st : RR.State) : nat :=
  (Z.to_nat (sum_Z (RR.remaining_time st))
   + Z.to_nat (sum_Z (map (rr_is_future (RR.time st)) (RR.procs st))))%nat.

(** What the slice branch leaves behind when it runs process [i], found at
    the front of a queue whose other entries are [l], with [r] units left. *)
Definition slice_outcome (time_quantum : Z) (st : RR.State) (i : nat) (l : list Z)
    (p : Process) (r : Z) (st' : RR.State) : Prop :=
  let exec := RR.exec_time time_quantum r in
  let now := RR.time st + exec in
  let adm := admitted (RR.arrives_within (RR.is_completed st) (RR.time st) now)
                      (<[i := false]> (RR.in_ready_queue st)) 0 (RR.procs st) in
  RR.time st' = now
  /\ RR.remaining_time st' = <[i := r - exec]> (RR.remaining_time st)
  /\ RR.contents (RR.q st')
     = l ++ map Z.of_nat adm ++ (if r - exec =? 0 then [] else [Z.of_nat i])
  /\ RR.procs st'
     = (if r - exec =? 0 then <[i := set_completion_time p now]> (RR.procs st)
        else RR.procs st)
  /\ RR.is_completed st'
     = (if r - exec =? 0 then <[i := true]> (RR.is_completed st) else RR.is_completed st)
  /\ RR.completed st'
     = (if r - exec =? 0 then RR.completed st + 1 else RR.completed st).

(** No process finishes before its arrival plus its burst. *)
Definition completes_in_time (p : Process) : Prop :=
  arrival_time p + burst_time p <= completion_time p.

(** ** Example inputs *)

(** The SRT scenario: P1 (arrival 0, burst 8) and P2 (arrival 1, burst 4). *)
Definition srt_example : list Process :=
  [mkProcess 1 0 8 0 0 0; mkProcess 2 1 4 0 0 0].

(** The round-robin scenario: P1 (arrival 0, burst 5) and P2 (arrival 1,
    burst 3), and the state after its first slice. *)
Definition rr_example : list Process :=
  [mkProcess 1 0 5 0 0 0; mkProcess 2 1 3 0 0 0].


(** The priority scenario: P1 (arrival 0, priority 3, burst 6) and P2
    (arrival 2, priority 1, burst 3). *)
Definition pprr_example : list Process :=
  [mkProcess 1 0 6 3 0 0; mkProcess 2 2 3 1 0 0].

(** ** Vocabulary of the further statements *)

(** Several calls of [enqueue] in a row, and [k] calls of [dequeue] with the
    values they return. *)
Definition enqueue_all (qu : RR.Queue) (xs : list Z) : RR.Queue :=
  fold_left RR.enqueue xs qu.

Fixpoint dequeue_n (k : nat) (qu : RR.Queue) : list Z * RR.Queue :=
  match k with
  | O => ([], qu)
  | S k' =>
      let '(x, qu') := RR.dequeue qu in
      let '(xs, qu'') := dequeue_n k' qu' in
      (x :: xs, qu'')
  end.

(** The order in which [round_robin] sorts the array: arrival time, then pid. *)
Definition arrival_pid_le (a b : Process) : Prop :=
  arrival_time a < arrival_time b
  \/ (arrival_time a = arrival_time b /\ pid a <= pid b).

(** The indices, from [i] on, of the processes of [rest] that are ready at
    [now] with priority [hp]. *)
Fixpoint ready_group (now hp : Z) (i : nat) (rest : list Process) : list nat :=
  match rest with
  | [] => []
  | p :: rest' =>
      if (arrival_time p <=? now) && (0 <? remaining_time p) && (priority p =? hp)
      then i :: ready_group now hp (S i) rest'
      else ready_group now hp (S i) rest'
  end.

(** A process that is ready at [now]. *)
Definition is_ready (now : Z) (p : Process) : Prop :=
  arrival_time p <= now /\ 0 < remaining_time p.

(** A queue of [QUEUE_MAX] slots after [init_queue], as [round_robin]
    declares and initialises it. *)
Definition fresh_queue : RR.Queue :=
  RR.init_queue (RR.mkQueue (replicate (Z.to_nat QUEUE_MAX) 0) 0 0).

(** The same queue after [QUEUE_MAX] calls of [enqueue]. *)
Definition full_queue : RR.Queue :=
  enqueue_all fresh_queue (replicate (Z.to_nat QUEUE_MAX) 5).

(** A state of the unit-stepping engines in which P1 has finished at time 1
    and P2 has two units left. *)
Definition half_done_example : ClockState :=
  mkClock [mkProcess 1 0 1 0 0 1; mkProcess 2 0 2 0 2 0] 1 1.

(** The work that is left in a state of a unit-stepping engine. *)
Definition work_left (st : ClockState) : Z :=
  sum_Z (map remaining_time (cs_processes st)).

(** An iteration that only moved the clock, to the earliest arrival of a
    process that is still to come. *)
Definition idle_jump (st st' : ClockState) : Prop :=
  cs_processes st' = cs_processes st
  /\ completed st' = completed st
  /\ current_time st < current_time st'
  /\ Exists (fun p => 0 < remaining_time p /\ arrival_time p = current_time st')
            (cs_processes st)
  /\ Forall (fun p => 0 < remaining_time p -> current_time st < arrival_time p ->
                      current_time st' <= arrival_time p) (cs_processes st).

(** An iteration in which the CPU was busy at every tick: the clock has
    advanced by exactly the work done. *)
Definition busy_step (st st' : ClockState) : Prop :=
  Exists (is_ready (current_time st)) (cs_processes st)
  /\ current_time st < current_time st'
  /\ current_time st' - current_time st = work_left st - work_left st'.

(** The same for round robin, which counts the work left in its local
    array: no process with work left has arrived; an iteration that only
    moved the clock, to the earliest arrival still to come; an iteration
    in which the clock advanced by exactly the work done. *)
Definition rr_nothing_arrived (st : RR.State) : Prop :=
  forall i p r, RR.procs st !! i = Some p -> RR.remaining_time st !! i = Some r ->
                0 < r -> RR.time st < arrival_time p.

Definition rr_idle_jump (st st' : RR.State) : Prop :=
  RR.procs st' = RR.procs st
  /\ RR.remaining_time st' = RR.remaining_time st
  /\ RR.completed st' = RR.completed st
  /\ RR.time st < RR.time st'
  /\ (exists i p r, RR.procs st !! i = Some p /\ RR.remaining_time st !! i = Some r
                    /\ 0 < r /\ arrival_time p = RR.time st')
  /\ (forall i p r, RR.procs st !! i = Some p -> RR.remaining_time st !! i = Some r ->
                    0 < r -> RR.time st' <= arrival_time p).

Definition rr_busy_step (st st' : RR.State) : Prop :=
  RR.time st < RR.time st'
  /\ RR.time st' - RR.time st
     = sum_Z (RR.remaining_time st) - sum_Z (RR.remaining_time st').

(** No two finished processes carry the same completion time. *)
Definition distinct_completions (ps : list Process) : Prop :=
  forall i j p q, i <> j -> ps !! i = Some p -> ps !! j = Some q ->
                  remaining_time p = 0 -> remaining_time q = 0 ->
                  completion_time p <> completion_time q.

(** The same for round robin, where the work left is in the local array. *)
Definition rr_distinct_completions (st : RR.State) : Prop :=
  forall i j p q, i <> j -> RR.procs st !! i = Some p -> RR.procs st !! j = Some q ->
                  RR.remaining_time st !! i = Some 0 -> RR.remaining_time st !! j = Some 0 ->
                  completion_time p <> completion_time q.

(** ** Inputs for the selection scan and the rotation *)

(** Two processes that tie on remaining time and arrival time, the one with
    the lower pid stored second, and a third with more work. *)
Definition srt_tie_example : list Process :=
  [mkProcess 2 0 4 0 0 0; mkProcess 1 0 4 0 0 0; mkProcess 3 0 6 0 0 0].


(** The state after [k] units of the member stored at [idx]. *)
Fixpoint units_run (k : nat) (idx : nat) (st : ClockState) : ClockState :=
  match k with
  | O => st
  | S k' =>
      let st' := units_run k' idx st in
      match cs_processes st' !! idx with
      | Some p => run_unit st' idx p
      | None => st'
      end
  end.

(** What the scan after a unit looks for: a process that arrives exactly
    at the clock value reached, with work left and a priority value below
    [hp]. *)
Definition preempts (hp : Z) (st : ClockState) : Prop :=
  exists j q, cs_processes st !! j = Some q /\ arrival_time q = current_time st
              /\ 0 < remaining_time q /\ priority q < hp.

(** A group of three (P1, P2, P4, priority 2, all there at 0) and P3, of
    priority 1, which arrives at 3. *)
Definition pprr_group_example : list Process :=
  [mkProcess 1 0 1 2 0 0; mkProcess 2 0 5 2 0 0; mkProcess 4 0 5 2 0 0;
   mkProcess 3 3 1 1 0 0].

(** A group of two (P1 with one unit of work, P2) and P3, of priority 1,
    which arrives at 1, the instant at which P1 finishes. *)
Definition pprr_abort_example : list Process :=
  [mkProcess 1 0 1 2 0 0; mkProcess 2 0 2 2 0 0; mkProcess 3 1 1 1 0 0].

(** The first of these inputs after the slice of P1, and after the two
    units of P2 that follow; the second after the slice of P1. *)
Definition pprr_group_after_P1 : ClockState :=
  mkClock [mkProcess 1 0 1 2 0 1; mkProcess 2 0 5 2 5 0; mkProcess 4 0 5 2 5 0;
           mkProcess 3 3 1 1 1 0] 1 1.

Definition pprr_group_preempted : ClockState :=
  mkClock [mkProcess 1 0 1 2 0 1; mkProcess 2 0 5 2 3 0; mkProcess 4 0 5 2 5 0;
           mkProcess 3 3 1 1 1 0] 3 1.

Definition pprr_abort_after_P1 : ClockState :=
  mkClock [mkProcess 1 0 1 2 0 1; mkProcess 2 0 2 2 2 0; mkProcess 3 1 1 1 1 0] 1 1.

(** * Facts *)

Ltac zbool :=
  repeat match goal with
  | H : context [ ?a <? ?b ] |- _ => destruct (Z.ltb_spec a b); simpl in H
  | H : context [ ?a <=? ?b ] |- _ => destruct (Z.leb_spec a b); simpl in H
  | H : context [ ?a =? ?b ] |- _ => destruct (Z.eqb_spec a b); simpl in H
  | |- context [ ?a <? ?b ] => destruct (Z.ltb_spec a b); simpl
  | |- context [ ?a <=? ?b ] => destruct (Z.leb_spec a b); simpl
  | |- context [ ?a =? ?b ] => destruct (Z.eqb_spec a b); simpl
  end.

(** ** The selection scan of SRT *)

Section SRT_selection.

Variable ps : list Process.
Variable now : Z.

Lemma preferred_refl p : preferred p p.
Proof. unfold preferred. lia. Qed.

Lemma preferred_trans p q r : preferred p q -> preferred q r -> preferred p r.
Proof. unfold preferred. lia. Qed.

Lemma srt_read_of_nat (l : list Process) (s : nat) : SRT.read l (Z.of_nat s) = l !! s.
Proof.
  unfold SRT.read. destruct (Z.ltb_spec (Z.of_nat s) 0); [lia|].
  by rewrite Nat2Z.id.
Qed.

Lemma srt_select_loop_app l1 l2 i acc :
  SRT.select_loop ps now i (l1 ++ l2) acc
  = match SRT.select_loop ps now i l1 acc with
    | None => None
    | Some acc' => SRT.select_loop ps now (i + length l1) l2 acc'
    end.
Proof.
  revert i acc. induction l1 as [|p l1 IH]; intros i acc; simpl.
  - by rewrite Nat.add_0_r.
  - destruct (SRT.select_step ps now acc i p) as [acc'|]; [|done].
    rewrite IH. by replace (S i + length l1)%nat with (i + S (length l1))%nat by lia.
Qed.

(** One more element keeps the meaning of the accumulator, and the read in
    the tie-break branch finds a record. *)
Lemma srt_select_step_sound pre p post acc :
  ps = pre ++ p :: post ->
  remaining_time p < INT_MAX ->
  selection_of now pre acc ->
  exists acc', SRT.select_step ps now acc (length pre) p = Some acc'
               /\ selection_of now (pre ++ [p]) acc'.
Proof.
  intros Hps Hlt [[-> Hnone]|(s & b & -> & Hs & Hb & Hall)].
  - unfold SRT.select_step. destruct (SRT.eligible now p) eqn:He.
    + destruct (Z.ltb_spec (remaining_time p) INT_MAX); [|lia].
      eexists; split; [done|]. right. exists (length pre), p.
      split_and!; [done| by rewrite lookup_app_r, Nat.sub_diag | done |].
      apply Forall_app; split.
      * eapply Forall_impl; [exact Hnone|]. simpl. intros q Hq. congruence.
      * apply Forall_singleton. intros _. apply preferred_refl.
    + eexists; split; [done|]. left. split; [done|].
      apply Forall_app; split; [done|]. by apply Forall_singleton.
  - assert (Hread : SRT.read ps (Z.of_nat s) = Some b).
    { rewrite srt_read_of_nat, Hps. by apply lookup_app_l_Some. }
    unfold SRT.select_step. rewrite Hread.
    assert (Hkeep : forall q, pre !! s = Some q -> (pre ++ [p]) !! s = Some q).
    { intros q Hq. by apply lookup_app_l_Some. }
    assert (Hnew : (pre ++ [p]) !! length pre = Some p).
    { by rewrite lookup_app_r, Nat.sub_diag. }
    destruct (SRT.eligible now p) eqn:He.
    + zbool; eexists; (split; [reflexivity|]); right.
      all: first
        [ exists (length pre), p; split_and!; [congruence || done | done | done |];
          apply Forall_app; split;
          [ eapply Forall_impl; [exact Hall|]; simpl; intros q Hq Hel;
            specialize (Hq Hel); unfold preferred in *; lia
          | apply Forall_singleton; intros _; apply preferred_refl ]
        | exists s, b; split_and!; [done | by apply Hkeep | done |];
          apply Forall_app; split; [done|];
          apply Forall_singleton; intros _; unfold preferred; lia ].
    + eexists; split; [done|]. right. exists s, b.
      split_and!; [done | by apply Hkeep | done |].
      apply Forall_app; split; [done|]. apply Forall_singleton. congruence.
Qed.

Lemma srt_select_prefix pre post :
  ps = pre ++ post ->
  Forall (fun p => remaining_time p < INT_MAX) ps ->
  exists acc, SRT.select_loop ps now 0 pre (-1, INT_MAX) = Some acc
              /\ selection_of now pre acc.
Proof.
  revert post. induction pre as [|p pre IH] using rev_ind; intros post Hps Hlt.
  - eexists; split; [done|]. left. by split.
  - rewrite <- app_assoc in Hps. simpl in Hps.
    destruct (IH _ Hps Hlt) as (acc & Hacc & Hsel).
    assert (Hp : remaining_time p < INT_MAX).
    { rewrite Forall_forall in Hlt. apply Hlt. rewrite Hps.
      apply elem_of_app. right. apply elem_of_cons. by left. }
    destruct (srt_select_step_sound pre p post acc Hps Hp Hsel) as (acc' & Hstep & Hsel').
    exists acc'. split; [|done].
    rewrite srt_select_loop_app, Hacc. simpl. by rewrite Hstep.
Qed.

Lemma srt_select_sound :
  Forall (fun p => remaining_time p < INT_MAX) ps ->
  exists acc, SRT.select ps now = Some acc /\ selection_of now ps acc.
Proof.
  intros Hlt. apply (srt_select_prefix ps []); [by rewrite app_nil_r | done].
Qed.

End SRT_selection.

(** ** Sums over the process array *)

Section Sums.

Context {A : Type}.
Implicit Types (f g : A -> Z) (l : list A).

Lemma sum_map_nonneg f l : (forall x, 0 <= f x) -> 0 <= sum_Z (map f l).
Proof. intros Hf. induction l as [|x l IH]; simpl; [lia|]. specialize (Hf x). lia. Qed.

Lemma sum_map_le f g l :
  Forall (fun x => f x <= g x) l -> sum_Z (map f l) <= sum_Z (map g l).
Proof. induction 1; simpl; lia. Qed.

Lemma sum_map_ext f g l :
  Forall (fun x => f x = g x) l -> sum_Z (map f l) = sum_Z (map g l).
Proof. induction 1; simpl; lia. Qed.

Lemma sum_map_insert f l i x y :
  l !! i = Some x ->
  sum_Z (map f (<[i := y]> l)) = sum_Z (map f l) - f x + f y.
Proof.
  revert i. induction l as [|z l IH]; intros [|i] Hi; simplify_eq/=; [lia|].
  rewrite (IH _ Hi). lia.
Qed.

Lemma sum_map_lookup_le f l i x :
  (forall y, 0 <= f y) -> l !! i = Some x -> f x <= sum_Z (map f l).
Proof.
  intros Hf. revert i. induction l as [|z l IH]; intros [|i] Hi; simplify_eq/=.
  - pose proof (sum_map_nonneg f l Hf). lia.
  - specialize (IH _ Hi). specialize (Hf z). lia.
Qed.

Lemma sum_map_lookup_le_Forall f l i x :
  Forall (fun y => 0 <= f y) l -> l !! i = Some x -> f x <= sum_Z (map f l).
Proof.
  intros Hf. revert i. induction Hf as [|z l Hz Hl IH]; intros [|i] Hi; simplify_eq/=.
  - enough (0 <= sum_Z (map f l)) by lia.
    clear IH. induction Hl; simpl; lia.
  - specialize (IH _ Hi). lia.
Qed.

Lemma sum_map_lt f g l i x :
  Forall (fun y => f y <= g y) l -> l !! i = Some x -> f x < g x ->
  sum_Z (map f l) < sum_Z (map g l).
Proof.
  intros Hle. revert i. induction Hle as [|z l Hz Hl IH]; intros [|i] Hi Hx; simplify_eq/=.
  - pose proof (sum_map_le f g l Hl). lia.
  - specialize (IH _ Hi Hx). lia.
Qed.

Lemma sum_map_zero f l : Forall (fun x => f x = 0) l -> sum_Z (map f l) = 0.
Proof. induction 1; simpl; lia. Qed.

End Sums.

(** ** The idle jump *)

Section Idle_jump.

Variable now : Z.

Lemma next_arrival_fold ps acc :
  let r := fold_left (next_arrival_step now) ps acc in
  r <= acc
  /\ (r = acc \/ exists i p, ps !! i = Some p /\ 0 < remaining_time p
                             /\ now < arrival_time p /\ arrival_time p = r)
  /\ Forall (fun p => 0 < remaining_time p -> now < arrival_time p -> r <= arrival_time p
                      \/ acc <= arrival_time p) ps.
Proof.
  revert acc. induction ps as [|p ps IH]; intros acc; simpl.
  - split_and!; [lia | by left | constructor].
  - destruct (IH (next_arrival_step now acc p)) as (Hle & Hcase & Hall).
    set (r := fold_left _ _ _) in *.
    assert (Hstep : next_arrival_step now acc p <= acc
                    /\ (next_arrival_step now acc p = acc
                        \/ (0 < remaining_time p /\ now < arrival_time p
                            /\ next_arrival_step now acc p = arrival_time p))
                    /\ (0 < remaining_time p -> now < arrival_time p ->
                        next_arrival_step now acc p <= arrival_time p)).
    { unfold next_arrival_step. zbool; lia. }
    destruct Hstep as (Hs1 & Hs2 & Hs3).
    split_and!.
    + lia.
    + destruct Hcase as [Hr|(i & x & Hi & ?)].
      * destruct Hs2 as [Hs2|(? & ? & Hs2)]; [left; lia|].
        right. exists O, p. simpl. split_and!; [done..|lia].
      * right. by exists (S i), x.
    + constructor.
      * intros H1 H2. specialize (Hs3 H1 H2). lia.
      * eapply Forall_impl; [exact Hall|]. simpl. intros x Hx H1 H2.
        specialize (Hx H1 H2). lia.
Qed.

(** When the jump is taken, it lands on the arrival time of a pending
    process, strictly after [now]. *)
Lemma next_arrival_found ps :
  next_arrival ps now <> INT_MAX ->
  exists i p, ps !! i = Some p /\ 0 < remaining_time p
              /\ now < arrival_time p /\ arrival_time p = next_arrival ps now.
Proof.
  intros Hne. destruct (next_arrival_fold ps INT_MAX) as (_ & [?|?] & _); done.
Qed.

(** A pending process that arrives before [INT_MAX] makes the jump possible. *)
Lemma next_arrival_exists ps i p :
  ps !! i = Some p -> 0 < remaining_time p -> now < arrival_time p ->
  arrival_time p < INT_MAX ->
  next_arrival ps now <> INT_MAX.
Proof.
  intros Hi H1 H2 H3. destruct (next_arrival_fold ps INT_MAX) as (Hle & _ & Hall).
  pose proof (Forall_lookup_1 _ _ _ _ Hall Hi H1 H2). unfold next_arrival. lia.
Qed.

Lemma future_count_jump ps :
  next_arrival ps now <> INT_MAX ->
  (future_count ps (next_arrival ps now) < future_count ps now)%nat.
Proof.
  intros Hne. destruct (next_arrival_found ps Hne) as (i & p & Hi & H1 & H2 & H3).
  unfold future_count.
  assert (0 <= sum_Z (map (is_future (next_arrival ps now)) ps)).
  { apply sum_map_nonneg. intros x. unfold is_future. zbool; lia. }
  enough (sum_Z (map (is_future (next_arrival ps now)) ps)
          < sum_Z (map (is_future now) ps)) by lia.
  eapply sum_map_lt; [|exact Hi|].
  - apply Forall_forall. intros x _. unfold is_future. zbool; lia.
  - unfold is_future. zbool; lia.
Qed.

End Idle_jump.

(** ** One unit of execution *)

Lemma static_fields_eq p p' :
  static_fields p = static_fields p' ->
  pid p = pid p' /\ arrival_time p = arrival_time p'
  /\ burst_time p = burst_time p' /\ priority p = priority p'.
Proof. unfold static_fields. intros [= -> -> -> ->]. done. Qed.

(** Equal static columns: the record found at an index of one array has a
    partner at the same index of the other. *)
Lemma static_fields_lookup (l l' : list Process) i p :
  map static_fields l' = map static_fields l ->
  l !! i = Some p ->
  exists p', l' !! i = Some p' /\ static_fields p' = static_fields p.
Proof.
  intros Hst Hp.
  assert (Hl : (static_fields <$> l') !! i = Some (static_fields p)).
  { change (map static_fields l' !! i = Some (static_fields p)). rewrite Hst.
    change ((static_fields <$> l) !! i = Some (static_fields p)).
    by rewrite list_lookup_fmap, Hp. }
  apply list_lookup_fmap_Some in Hl as (p' & Hp' & Heq). by exists p'.
Qed.

Section Units.

Lemma static_fields_insert (l : list Process) i p p' :
  l !! i = Some p -> static_fields p' = static_fields p ->
  map static_fields (<[i := p']> l) = map static_fields l.
Proof.
  intros Hi Hs. change (static_fields <$> <[i := p']> l = static_fields <$> l).
  rewrite list_fmap_insert, Hs. apply list_insert_id. by rewrite list_lookup_fmap, Hi.
Qed.

Lemma run_unit_static st i p :
  cs_processes st !! i = Some p ->
  map static_fields (cs_processes (run_unit st i p)) = map static_fields (cs_processes st).
Proof.
  intros Hi. unfold run_unit. simpl.
  destruct (remaining_time p - 1 =? 0); simpl; by eapply static_fields_insert.
Qed.

Lemma run_unit_clock st i p : current_time (run_unit st i p) = current_time st + 1.
Proof. unfold run_unit. simpl. by destruct (remaining_time p - 1 =? 0). Qed.

Lemma run_unit_lookup st i p :
  cs_processes st !! i = Some p ->
  exists p', cs_processes (run_unit st i p) = <[i := p']> (cs_processes st)
             /\ static_fields p' = static_fields p
             /\ remaining_time p' = remaining_time p - 1
             /\ (remaining_time p' = 0 -> completion_time p' = current_time st + 1)
             /\ (remaining_time p' <> 0 -> completion_time p' = completion_time p)
             /\ completed (run_unit st i p)
                = completed st + (if remaining_time p' =? 0 then 1 else 0).
Proof.
  intros Hi. unfold run_unit. simpl.
  destruct (Z.eqb_spec (remaining_time p - 1) 0) as [Hz|Hz]; simpl;
    eexists; (split; [reflexivity|]); simpl; rewrite ?Hz; simpl;
    split_and!; try done; try lia.
  destruct (Z.eqb_spec (remaining_time p - 1) 0); lia.
Qed.

(** A unit given to a process that has work left uses up one unit of the
    measure: the loop cannot run forever. *)
Lemma run_unit_measure st i p :
  cs_processes st !! i = Some p -> 0 < remaining_time p ->
  (measure (run_unit st i p) < measure st)%nat.
Proof.
  intros Hi Hpos. destruct (run_unit_lookup st i p Hi) as (p' & Hps & Hst & Hrem & _).
  unfold measure. rewrite run_unit_clock, Hps.
  assert (Harr : arrival_time p' = arrival_time p).
  { unfold static_fields in Hst. congruence. }
  assert (H1 : (total_remaining (<[i := p']> (cs_processes st))
                < total_remaining (cs_processes st))%nat).
  { unfold total_remaining.
    rewrite (sum_map_insert _ _ _ _ _ Hi).
    pose proof (sum_map_lookup_le (fun p => Z.max 0 (remaining_time p)) _ _ _
                  ltac:(intros; lia) Hi) as Hle. simpl in Hle.
    lia. }
  assert (H2 : (future_count (<[i := p']> (cs_processes st)) (current_time st + 1)
                <= future_count (cs_processes st) (current_time st))%nat).
  { unfold future_count.
    rewrite (sum_map_insert _ _ _ _ _ Hi).
    assert (Hmono : sum_Z (map (is_future (current_time st + 1)) (cs_processes st))
                    <= sum_Z (map (is_future (current_time st)) (cs_processes st))).
    { apply sum_map_le, Forall_forall. intros x _. unfold is_future. zbool; lia. }
    assert (Hx : is_future (current_time st + 1) p' <= is_future (current_time st + 1) p).
    { unfold is_future. rewrite Harr, Hrem. zbool; lia. }
    lia. }
  lia.
Qed.

End Units.

(** ** The main loop of SRT *)

Section SRT_loop.

Lemma srt_select_loop_index ps now rest i acc acc' :
  (forall k p, rest !! k = Some p -> ps !! (i + k)%nat = Some p) ->
  names_eligible ps now acc.1 ->
  SRT.select_loop ps now i rest acc = Some acc' ->
  names_eligible ps now acc'.1.
Proof.
  revert i acc. induction rest as [|p rest IH]; intros i acc Hrest Hacc Hrun; simpl in Hrun.
  - by simplify_eq.
  - destruct (SRT.select_step ps now acc i p) as [acc1|] eqn:Hstep; [|done].
    apply (IH (S i) acc1); [| |done].
    + intros k x Hk. specialize (Hrest (S k) x Hk).
      by replace (S i + k)%nat with (i + S k)%nat by lia.
    + assert (Hp : ps !! i = Some p).
      { specialize (Hrest O p eq_refl). by rewrite Nat.add_0_r in Hrest. }
      unfold SRT.select_step in Hstep. destruct acc as [s m].
      destruct (SRT.eligible now p) eqn:He; [|by simplify_eq].
      assert (Hi : names_eligible ps now (Z.of_nat i)) by (right; eauto).
      destruct (remaining_time p <? m); [by simplify_eq|].
      destruct (remaining_time p =? m); [|by simplify_eq].
      destruct (SRT.read ps s) as [best|]; [|done].
      repeat case_match; by simplify_eq.
Qed.

Lemma srt_select_index ps now s m :
  SRT.select ps now = Some (s, m) -> names_eligible ps now s.
Proof.
  intros Hsel.
  apply (srt_select_loop_index ps now ps 0 (-1, INT_MAX) (s, m)); [done | by left | done].
Qed.

(** The two ways an iteration goes on: an idle jump, or one unit for an
    eligible process. *)
Lemma srt_iteration_continue st st' :
  SRT.iteration st = Continue st' ->
  (next_arrival (cs_processes st) (current_time st) <> INT_MAX
   /\ st' = mkClock (cs_processes st)
                    (next_arrival (cs_processes st) (current_time st)) (completed st))
  \/ (exists i p, cs_processes st !! i = Some p
        /\ SRT.eligible (current_time st) p = true
        /\ current_time st < INT_MAX
        /\ st' = run_unit st i p).
Proof.
  unfold SRT.iteration. intros Hit.
  destruct (SRT.select _ _) as [[s m]|] eqn:Hsel; [|done].
  apply srt_select_index in Hsel.
  destruct (Z.eqb_spec s (-1)) as [->|Hs].
  - left. destruct (Z.eqb_spec (next_arrival (cs_processes st) (current_time st)) INT_MAX);
      by simplify_eq.
  - right. destruct Hsel as [?|(i & p & -> & Hi & He)]; [done|].
    rewrite srt_read_of_nat, Hi in Hit.
    destruct (Z.leb_spec INT_MAX (current_time st)); [done|].
    rewrite Nat2Z.id in Hit. simplify_eq. by exists i, p.
Qed.

Lemma srt_iteration_break st st' : SRT.iteration st = Break st' -> st' = st.
Proof.
  unfold SRT.iteration. intros Hit. repeat case_match; by simplify_eq.
Qed.

Lemma srt_eligible_pos now p : SRT.eligible now p = true ->
  arrival_time p <= now /\ 0 < remaining_time p.
Proof. unfold SRT.eligible. zbool; intros; simplify_eq; lia. Qed.

Lemma srt_iteration_measure st st' :
  SRT.iteration st = Continue st' -> (measure st' < measure st)%nat.
Proof.
  intros [[Hne ->]|(i & p & Hi & He & _ & ->)]%srt_iteration_continue.
  - unfold measure. simpl. pose proof (future_count_jump _ _ Hne). lia.
  - apply run_unit_measure; [done|]. apply srt_eligible_pos in He. lia.
Qed.

(** The fuel [SRT.run] starts with is never used up. *)
Lemma srt_loop_fuel fuel n st :
  (measure st < fuel)%nat -> SRT.loop fuel n st <> OutOfFuel.
Proof.
  revert st. induction fuel as [|fuel IH]; intros st Hm; [lia|]. simpl.
  destruct (completed st <? n); [|done].
  destruct (SRT.iteration st) as [st'| |] eqn:Hit; [|done..].
  apply IH. pose proof (srt_iteration_measure _ _ Hit). lia.
Qed.

Lemma srt_iteration_static st st' :
  SRT.iteration st = Continue st' ->
  map static_fields (cs_processes st') = map static_fields (cs_processes st).
Proof.
  intros [[_ ->]|(i & p & Hi & _ & _ & ->)]%srt_iteration_continue; [done|].
  by apply run_unit_static.
Qed.

Lemma srt_loop_static fuel n st how st' :
  SRT.loop fuel n st = Finished how st' ->
  map static_fields (cs_processes st') = map static_fields (cs_processes st).
Proof.
  revert st. induction fuel as [|fuel IH]; intros st; simpl.
  - destruct (completed st <? n); intros; by simplify_eq.
  - destruct (completed st <? n); [|intros; by simplify_eq].
    destruct (SRT.iteration st) as [st1|st1|] eqn:Hit; [| |done].
    + intros Hl. rewrite (IH _ Hl). by apply srt_iteration_static.
    + intros ?. simplify_eq. by rewrite (srt_iteration_break _ _ Hit).
Qed.

Lemma initial_static ps :
  map static_fields (cs_processes (initial ps)) = map static_fields ps.
Proof.
  unfold initial, reset_process_states. simpl. rewrite !map_map.
  by apply map_ext.
Qed.

End SRT_loop.

(** ** The invariant of the unit-stepping engines *)

Section Clock_invariant.

Variables latest bound : Z.

Lemma process_ok_later now now' p :
  now <= now' -> process_ok latest now p -> process_ok latest now' p.
Proof. unfold process_ok. intros. split_and!; try lia. Qed.

Lemma done_flag_range p : 0 <= done_flag p <= 1.
Proof. unfold done_flag. zbool; lia. Qed.

Lemma done_count_le (l : list Process) : sum_Z (map done_flag l) <= Z.of_nat (length l).
Proof.
  induction l as [|p l IH]; simpl; [lia|]. pose proof (done_flag_range p). lia.
Qed.

(** Fewer completions than records: some process still has work. *)
Lemma done_count_pending (l : list Process) :
  sum_Z (map done_flag l) < Z.of_nat (length l) ->
  exists i p, l !! i = Some p /\ remaining_time p <> 0.
Proof.
  induction l as [|p l IH]; simpl; [lia|]. intros Hlt.
  destruct (Z.eqb_spec (remaining_time p) 0) as [Hz|Hz].
  - destruct IH as (i & x & Hi & Hx).
    { assert (done_flag p = 1) by (unfold done_flag; by rewrite Hz). lia. }
    by exists (S i), x.
  - by exists O, p.
Qed.

(** As many completions as records: every process is done. *)
Lemma done_count_all (l : list Process) :
  Z.of_nat (length l) <= sum_Z (map done_flag l) ->
  Forall (fun p => remaining_time p = 0) l.
Proof.
  induction l as [|p l IH]; simpl; [constructor|]. intros Hle.
  pose proof (done_flag_range p). pose proof (done_count_le l).
  constructor; [|apply IH; lia].
  destruct (Z.eqb_spec (remaining_time p) 0) as [|Hz]; [done|].
  assert (done_flag p = 0); [|lia].
  unfold done_flag. by destruct (Z.eqb_spec (remaining_time p) 0).
Qed.

Lemma clock_inv_remaining_le st :
  clock_inv latest bound st ->
  sum_Z (map remaining_time (cs_processes st)) <= sum_Z (map burst_time (cs_processes st))
  /\ 0 <= sum_Z (map remaining_time (cs_processes st)).
Proof.
  intros [Heach _ _ _]. split.
  - apply sum_map_le. eapply Forall_impl; [exact Heach|]. unfold process_ok. simpl. lia.
  - enough (sum_Z (map (fun _ => 0) (cs_processes st))
            <= sum_Z (map remaining_time (cs_processes st))) as Hle.
    { rewrite sum_map_zero in Hle; [done|]. by apply Forall_forall. }
    apply sum_map_le. eapply Forall_impl; [exact Heach|]. unfold process_ok. simpl. lia.
Qed.

(** One unit for a process that has arrived and has work left. *)
Lemma run_unit_inv st i p :
  clock_inv latest bound st ->
  cs_processes st !! i = Some p ->
  arrival_time p <= current_time st -> 0 < remaining_time p ->
  clock_inv latest bound (run_unit st i p).
Proof.
  intros Hinv Hi Harr Hpos.
  destruct (clock_inv_remaining_le st Hinv) as [_ Hnn].
  destruct Hinv as [Heach Hcount [Hc0 Hc1] Hb].
  pose proof (Forall_lookup_1 _ _ _ _ Heach Hi) as Hp.
  destruct (run_unit_lookup st i p Hi) as (p' & Hps & Hst & Hrem & Hdone & Hkeep & Hcompl).
  unfold static_fields in Hst.
  assert (Hst' : arrival_time p' = arrival_time p /\ burst_time p' = burst_time p)
    by (split; congruence).
  destruct Hst' as [Ha Hbt].
  constructor; rewrite ?run_unit_clock, ?Hps.
  - apply Forall_insert.
    + eapply Forall_impl; [exact Heach|]. intros x. apply process_ok_later. lia.
    + unfold process_ok in *. rewrite Ha, Hbt, Hrem. split_and!; lia.
  - rewrite Hcompl, (sum_map_insert _ _ _ _ _ Hi), Hcount.
    unfold done_flag. rewrite Hrem.
    destruct (Z.eqb_spec (remaining_time p) 0); [lia|].
    destruct (Z.eqb_spec (remaining_time p - 1) 0); lia.
  - rewrite (sum_map_insert _ _ _ _ _ Hi), Hrem. lia.
  - rewrite (sum_map_insert _ _ _ _ _ Hi), Hbt. lia.
Qed.

(** The idle jump. *)
Lemma jump_inv st :
  clock_inv latest bound st ->
  next_arrival (cs_processes st) (current_time st) <> INT_MAX ->
  clock_inv latest bound
    (mkClock (cs_processes st) (next_arrival (cs_processes st) (current_time st))
             (completed st)).
Proof.
  intros Hinv Hne.
  destruct (clock_inv_remaining_le st Hinv) as [Hle Hnn].
  destruct Hinv as [Heach Hcount [Hc0 Hc1] Hb].
  destruct (next_arrival_found _ _ Hne) as (i & p & Hi & H1 & H2 & H3).
  pose proof (Forall_lookup_1 _ _ _ _ Heach Hi) as Hp.
  constructor; simpl.
  - eapply Forall_impl; [exact Heach|]. intros x. apply process_ok_later. lia.
  - done.
  - unfold process_ok in Hp. lia.
  - done.
Qed.

Lemma max_arrival_ge ps : 0 <= max_arrival ps
  /\ Forall (fun p => arrival_time p <= max_arrival ps) ps.
Proof.
  unfold max_arrival. induction ps as [|p ps [IH0 IH]]; simpl; [split; [lia|constructor]|].
  split; [lia|]. constructor; [lia|].
  eapply Forall_impl; [exact IH|]. simpl. lia.
Qed.

End Clock_invariant.

Lemma initial_inv ps :
  valid_input ps -> clock_inv (max_arrival ps) (horizon ps) (initial ps).
Proof.
  intros Hvalid. destruct (max_arrival_ge ps) as [Hm0 Hmax].
  assert (Hburst : sum_Z (map burst_time (cs_processes (initial ps))) = total_burst ps).
  { unfold initial, reset_process_states, total_burst. cbn [cs_processes].
    rewrite !map_map. by apply sum_map_ext, Forall_forall. }
  assert (Hrem : sum_Z (map remaining_time (cs_processes (initial ps))) = total_burst ps).
  { unfold initial, reset_process_states, total_burst. cbn [cs_processes].
    rewrite !map_map. by apply sum_map_ext, Forall_forall. }
  constructor.
  - unfold initial, reset_process_states. cbn [cs_processes current_time].
    rewrite map_map. apply Forall_fmap. unfold valid_input in Hvalid.
    rewrite Forall_forall in Hvalid, Hmax. apply Forall_forall. intros p Hp.
    specialize (Hvalid p Hp). specialize (Hmax p Hp). unfold valid_process in Hvalid.
    unfold process_ok. simpl in *. lia.
  - unfold initial, reset_process_states. cbn [cs_processes completed].
    symmetry. apply sum_map_zero. rewrite map_map.
    apply Forall_fmap. unfold valid_input in Hvalid.
    eapply Forall_impl; [exact Hvalid|]. intros p [_ Hp]. unfold done_flag. simpl.
    destruct (Z.eqb_spec (burst_time p) 0); [lia|done].
  - rewrite Hrem. unfold horizon. simpl. lia.
  - rewrite Hburst. unfold horizon. lia.
Qed.

(** ** SRT on valid input *)

Section SRT_valid.

Variables latest bound : Z.
Hypothesis bound_int : bound < INT_MAX.

Lemma clock_inv_remaining_lt st :
  clock_inv latest bound st ->
  Forall (fun p => remaining_time p < INT_MAX) (cs_processes st).
Proof.
  intros Hinv. destruct (clock_inv_remaining_le _ _ st Hinv) as [_ Hnn].
  destruct Hinv as [Heach _ [Hc0 Hc1] _].
  apply Forall_lookup. intros i p Hi.
  assert (remaining_time p <= sum_Z (map remaining_time (cs_processes st))); [|lia].
  apply (sum_map_lookup_le_Forall remaining_time _ i); [|done].
  eapply Forall_impl; [exact Heach|]. unfold process_ok. simpl. lia.
Qed.

Lemma clock_inv_latest st :
  clock_inv latest bound st ->
  Forall (fun p => arrival_time p < INT_MAX) (cs_processes st).
Proof.
  intros Hinv. destruct (clock_inv_remaining_le _ _ st Hinv) as [Hle Hnn].
  destruct Hinv as [Heach _ _ Hb].
  eapply Forall_impl; [exact Heach|]. unfold process_ok. simpl. lia.
Qed.

Lemma clock_inv_before_max st :
  clock_inv latest bound st -> current_time st < INT_MAX.
Proof.
  intros Hinv. destruct (clock_inv_remaining_le _ _ st Hinv) as [_ Hnn].
  destruct Hinv as [_ _ [Hc0 Hc1] _]. lia.
Qed.

(** An iteration entered with work outstanding neither breaks nor faults. *)
Lemma srt_iteration_progress st :
  clock_inv latest bound st ->
  completed st < Z.of_nat (length (cs_processes st)) ->
  exists st', SRT.iteration st = Continue st' /\ clock_inv latest bound st'.
Proof.
  intros Hinv Hlt.
  pose proof (clock_inv_remaining_lt st Hinv) as Hrem.
  pose proof (clock_inv_latest st Hinv) as Harr.
  pose proof (clock_inv_before_max st Hinv) as Hclock.
  destruct (srt_select_sound _ (current_time st) Hrem) as (acc & Hsel & Hmean).
  unfold SRT.iteration. rewrite Hsel.
  destruct Hmean as [[-> Hnone]|(s & p & -> & Hs & He & _)].
  - simpl. rewrite (inv_count _ _ _ Hinv) in Hlt.
    destruct (done_count_pending _ Hlt) as (i & p & Hi & Hp).
    pose proof (Forall_lookup_1 _ _ _ _ (inv_each _ _ _ Hinv) Hi) as Hok.
    pose proof (Forall_lookup_1 _ _ _ _ Hnone Hi) as Hno.
    pose proof (Forall_lookup_1 _ _ _ _ Harr Hi) as Ha. simpl in Hno, Ha.
    assert (Hfut : current_time st < arrival_time p).
    { unfold SRT.eligible in Hno. unfold process_ok in Hok.
      destruct (Z.leb_spec (arrival_time p) (current_time st)); [|lia].
      destruct (Z.ltb_spec 0 (remaining_time p)); [done|lia]. }
    assert (Hne : next_arrival (cs_processes st) (current_time st) <> INT_MAX).
    { eapply next_arrival_exists; [exact Hi| |done..]. unfold process_ok in Hok. lia. }
    destruct (Z.eqb_spec (next_arrival (cs_processes st) (current_time st)) INT_MAX); [done|].
    eexists; split; [done|]. by apply jump_inv.
  - destruct (Z.eqb_spec (Z.of_nat s) (-1)); [lia|].
    rewrite srt_read_of_nat, Hs.
    destruct (Z.leb_spec INT_MAX (current_time st)); [lia|].
    rewrite Nat2Z.id. eexists; split; [done|].
    apply srt_eligible_pos in He. apply run_unit_inv; [done..|lia|lia].
Qed.

Lemma srt_loop_complete fuel st :
  clock_inv latest bound st ->
  (measure st < fuel)%nat ->
  exists st', SRT.loop fuel (Z.of_nat (length (cs_processes st))) st
              = Finished LoopCondition st'
              /\ clock_inv latest bound st'
              /\ length (cs_processes st') = length (cs_processes st)
              /\ Z.of_nat (length (cs_processes st)) <= completed st'.
Proof.
  revert st. induction fuel as [|fuel IH]; intros st Hinv Hm; [lia|]. simpl.
  destruct (Z.ltb_spec (completed st) (Z.of_nat (length (cs_processes st)))) as [Hlt|Hge].
  - destruct (srt_iteration_progress st Hinv Hlt) as (st1 & Hit & Hinv1).
    rewrite Hit.
    pose proof (srt_iteration_measure _ _ Hit) as Hdec.
    pose proof (f_equal length (srt_iteration_static _ _ Hit)) as Hlen.
    rewrite !length_map in Hlen.
    destruct (IH st1 Hinv1 ltac:(lia)) as (st' & Hloop & Hinv' & Hlen' & Hdone).
    rewrite Hlen in Hloop, Hlen', Hdone. by exists st'.
  - by exists st.
Qed.

End SRT_valid.

(** Every record is finished once the counter has reached [n]. *)
Lemma clock_inv_all_finished latest bound st :
  clock_inv latest bound st ->
  Z.of_nat (length (cs_processes st)) <= completed st ->
  completed st = Z.of_nat (length (cs_processes st))
  /\ Forall finished_process (cs_processes st).
Proof.
  intros Hinv Hge. pose proof (done_count_le (cs_processes st)) as Hle.
  rewrite (inv_count _ _ _ Hinv) in Hge |- *. split; [lia|].
  pose proof (done_count_all _ Hge) as Hall.
  pose proof (inv_each _ _ _ Hinv) as Heach.
  apply Forall_lookup. intros i p Hi.
  pose proof (Forall_lookup_1 _ _ _ _ Hall Hi) as Hz.
  pose proof (Forall_lookup_1 _ _ _ _ Heach Hi) as Hok.
  unfold finished_process, process_ok, COMPLETION_UNSET in *. simpl in Hz. lia.
Qed.

Lemma initial_length ps : length (cs_processes (initial ps)) = length ps.
Proof. unfold initial, reset_process_states. simpl. by rewrite !length_map. Qed.

Lemma srt_run_complete ps :
  valid_input ps -> horizon ps < INT_MAX ->
  exists st, SRT.run ps = Finished LoopCondition st
             /\ completed st = Z.of_nat (length ps)
             /\ length (cs_processes st) = length ps
             /\ Forall finished_process (cs_processes st).
Proof.
  intros Hvalid Hbound. unfold SRT.run.
  pose proof (initial_inv ps Hvalid) as Hinv.
  destruct (srt_loop_complete _ _ Hbound (S (measure (initial ps))) (initial ps) Hinv
              ltac:(lia)) as (st & Hloop & Hinv' & Hlen & Hdone).
  rewrite initial_length in *.
  rewrite <- Hlen in Hdone.
  destruct (clock_inv_all_finished _ _ st Hinv' Hdone) as [Hc Hall].
  exists st. rewrite Hc, Hlen. by split_and!.
Qed.

(** ** SRT: what every reachable state satisfies *)

Lemma srt_reachable_within_burst ps st :
  Forall (fun p => burst_time p < INT_MAX) ps ->
  SRT.reachable ps st ->
  Forall within_burst (cs_processes st).
Proof.
  intros Hps Hreach. induction Hreach as [|st st' _ IH _ Hit].
  - unfold initial, reset_process_states. cbn [cs_processes]. rewrite map_map.
    apply Forall_fmap. eapply Forall_impl; [exact Hps|].
    intros p Hp. unfold within_burst, compose. simpl in *. lia.
  - apply srt_iteration_continue in Hit as [[_ ->]|(i & p & Hi & He & _ & ->)]; [done|].
    destruct (run_unit_lookup st i p Hi) as (p' & -> & Hst & Hrem & _).
    apply Forall_insert; [done|].
    pose proof (Forall_lookup_1 _ _ _ _ IH Hi) as Hp.
    unfold within_burst, static_fields in *.
    assert (burst_time p' = burst_time p) as -> by congruence. lia.
Qed.

Lemma within_burst_remaining (l : list Process) :
  Forall within_burst l -> Forall (fun p => remaining_time p < INT_MAX) l.
Proof. intros H. eapply Forall_impl; [exact H|]. unfold within_burst. simpl. lia. Qed.

Ltac prove_valid :=
  unfold valid_input;
  repeat first [ apply List.Forall_nil
               | apply List.Forall_cons; [unfold valid_process, INT_MAX; simpl; lia|] ].




(** C10.  In every state the SRT loop reaches from an input whose burst
    times are all below [INT_MAX]: when the scan arrives at an eligible
    process with [shortest] still -1, that process takes the strictly-smaller
    branch; and whenever the tie-break branch is taken, [shortest] is an
    index in [0, n) and the read of [ctx->processes[shortest]] finds a
    record.  Hence the scan as a whole is defined. *)
Theorem srt_tie_break_read_in_bounds ps st :
  Forall (fun p => burst_time p < INT_MAX) ps ->
  SRT.reachable ps st ->
  is_Some (SRT.select (cs_processes st) (current_time st))
  /\ forall i p shortest min_remaining_time,
       cs_processes st !! i = Some p ->
       SRT.select_loop (cs_processes st) (current_time st) 0
                       (take i (cs_processes st)) (-1, INT_MAX)
       = Some (shortest, min_remaining_time) ->
       SRT.eligible (current_time st) p = true ->
       (shortest = -1 -> remaining_time p < min_remaining_time)
       /\ (remaining_time p = min_remaining_time ->
           0 <= shortest < Z.of_nat (length (cs_processes st))
           /\ is_Some (SRT.read (cs_processes st) shortest)).
Proof.
  intros Hps Hreach.
  pose proof (within_burst_remaining _ (srt_reachable_within_burst ps st Hps Hreach)) as Hrem.
  split.
  { destruct (srt_select_sound _ (current_time st) Hrem) as (acc & -> & _). by eexists. }
  intros i p shortest m Hi Hscan He.
  destruct (srt_select_prefix (cs_processes st) (current_time st)
              (take i (cs_processes st)) (drop i (cs_processes st))
              ltac:(by rewrite take_drop) Hrem) as (acc & Hacc & Hmean).
  rewrite Hscan in Hacc. simplify_eq.
  pose proof (Forall_lookup_1 _ _ _ _ Hrem Hi) as Hp. simpl in Hp.
  destruct Hmean as [[? _]|(s & b & ? & Hs & _ & _)]; simplify_eq.
  - split; [done|]. intros Heq. lia.
  - split; [lia|]. intros _.
    apply lookup_take_Some in Hs as [Hs Hlt].
    pose proof (lookup_lt_Some _ _ _ Hs).
    split; [lia|]. rewrite srt_read_of_nat. by eexists.
Qed.

(** C5 (amended).  For every input in which each process has
    [arrival_time >= 0] and [burst_time > 0], and whose latest arrival plus
    total burst stays below [INT_MAX], [shortest_remaining_time_first] leaves
    its loop through the loop condition, never through the defensive break,
    with [completed] equal to the number of processes and every process
    finished with its completion time recorded. *)
Theorem srt_completes_every_process ps :
  valid_input ps ->
  horizon ps < INT_MAX ->
  exists st, SRT.run ps = Finished LoopCondition st
             /\ completed st = Z.of_nat (length ps)
             /\ length (cs_processes st) = length ps
             /\ Forall finished_process (cs_processes st).
Proof.
  intros Hvalid Hbound. unfold SRT.run.
  pose proof (initial_inv ps Hvalid) as Hinv.
  destruct (srt_loop_complete _ _ Hbound (S (measure (initial ps))) (initial ps) Hinv
              ltac:(lia)) as (st & Hloop & Hinv' & Hlen & Hdone).
  rewrite initial_length in Hloop, Hlen, Hdone.
  exists st. split; [done|].
  assert (Hge : Z.of_nat (length (cs_processes st)) <= completed st) by (by rewrite Hlen).
  destruct (clock_inv_all_finished _ _ st Hinv' Hge) as [Hc Hall].
  by rewrite Hc, Hlen.
Qed.

Lemma srt_completes_every_process_witness :
  valid_input [mkProcess 1 0 8 0 0 0; mkProcess 2 1 4 0 0 0]
  /\ horizon [mkProcess 1 0 8 0 0 0; mkProcess 2 1 4 0 0 0] < INT_MAX
  /\ exists st, SRT.run [mkProcess 1 0 8 0 0 0; mkProcess 2 1 4 0 0 0]
                = Finished LoopCondition st
                /\ completed st = 2
                /\ length (cs_processes st) = 2%nat
                /\ Forall finished_process (cs_processes st).
Proof.
  split; [prove_valid|]. split; [reflexivity|].
  apply (srt_completes_every_process [mkProcess 1 0 8 0 0 0; mkProcess 2 1 4 0 0 0]).
  - prove_valid.
  - reflexivity.
Defined.

(** C5 as stated fails: a single process with [burst_time = 1] that arrives
    at [INT_MAX] is a valid input, yet the idle scan cannot tell its arrival
    from "no arrival" and the loop is left through the defensive break with
    nothing completed. *)
Lemma srt_defensive_break_on_valid_input :
  valid_input [mkProcess 1 INT_MAX 1 0 0 0]
  /\ SRT.run [mkProcess 1 INT_MAX 1 0 0 0]
     = Finished DefensiveBreak (mkClock [mkProcess 1 INT_MAX 1 0 1 COMPLETION_UNSET] 0 0).
Proof. split; [prove_valid|]. vm_compute. reflexivity. Qed.

(** ** The bubble sort only permutes *)

Section Bubble.

Context {A : Type} (swap : A -> A -> bool).

Lemma exchange_cons x (l : list A) j :
  exchange swap (x :: l) (S j) = x :: exchange swap l j.
Proof.
  unfold exchange. simpl.
  destruct (l !! j) as [a|]; [|done].
  destruct (l !! S j) as [b|]; [|done].
  by destruct (swap a b).
Qed.

Lemma exchange_perm (l : list A) j : exchange swap l j ≡ₚ l.
Proof.
  revert l. induction j as [|j IH]; intros [|x l]; try done.
  - destruct l as [|y l]; [done|]. unfold exchange. simpl.
    destruct (swap x y); [|done]. apply Permutation_swap.
  - rewrite exchange_cons. by rewrite IH.
Qed.

Lemma bubble_inner_perm (l : list A) j steps : bubble_inner swap l j steps ≡ₚ l.
Proof.
  revert l j. induction steps as [|steps IH]; intros l j; simpl; [done|].
  by rewrite IH, exchange_perm.
Qed.

Lemma bubble_outer_perm (l : list A) i passes : bubble_outer swap l i passes ≡ₚ l.
Proof.
  revert l i. induction passes as [|passes IH]; intros l i; simpl; [done|].
  by rewrite IH, bubble_inner_perm.
Qed.

Lemma bubble_sort_perm (l : list A) : bubble_sort swap l ≡ₚ l.
Proof. apply bubble_outer_perm. Qed.

End Bubble.

(** ** The ready group of the priority engine *)

Section PPRR_collect.

Variable now : Z.

Lemma pprr_collect_loop_members ps rest i acc :
  (forall k p, rest !! k = Some p -> ps !! (i + k)%nat = Some p) ->
  Forall (ready_member now ps) acc.2 ->
  Forall (ready_member now ps) (PPRR.collect_loop now i rest acc).2.
Proof.
  revert i acc. induction rest as [|p rest IH]; intros i [hp ready] Hrest Hacc; simpl; [done|].
  apply IH.
  - intros k x Hk. specialize (Hrest (S k) x Hk).
    by replace (S i + k)%nat with (i + S k)%nat by lia.
  - assert (Hp : ps !! i = Some p).
    { specialize (Hrest O p eq_refl). by rewrite Nat.add_0_r in Hrest. }
    destruct (Z.leb_spec (arrival_time p) now); simpl; [|done].
    destruct (Z.ltb_spec 0 (remaining_time p)); simpl; [|done].
    assert (Hi : ready_member now ps i) by (exists p; done).
    destruct (priority p <? hp); simpl; [by apply Forall_singleton|].
    destruct (priority p =? hp); simpl; [|done].
    apply Forall_app. split; [done|]. by apply Forall_singleton.
Qed.

Lemma pprr_collect_members ps :
  Forall (ready_member now ps) (PPRR.collect ps now).2.
Proof. apply pprr_collect_loop_members; [done|constructor]. Qed.

(** An empty group means that no process is ready, as long as priorities
    are [int]s. *)
Lemma pprr_collect_loop_empty rest i acc :
  Forall (fun p => priority p <= INT_MAX) rest ->
  acc.1 <= INT_MAX ->
  (acc.2 = [] -> acc.1 = INT_MAX) ->
  (PPRR.collect_loop now i rest acc).2 = [] ->
  acc.2 = []
  /\ Forall (fun p => ~ (arrival_time p <= now /\ 0 < remaining_time p)) rest.
Proof.
  revert i acc. induction rest as [|p rest IH]; intros i [hp ready] Hprio Hhp Hinit Hempty;
    simpl in *; [by split|].
  apply Forall_cons in Hprio as [Hp Hprio].
  destruct (IH (S i) (PPRR.collect_step now (hp, ready) i p) Hprio) as [Hacc Hrest].
  - unfold PPRR.collect_step. repeat case_match; simpl; lia.
  - unfold PPRR.collect_step. repeat case_match; simpl; try done.
    intros Happ. by apply app_eq_nil in Happ as [_ ?].
  - done.
  - unfold PPRR.collect_step in Hacc.
    destruct (Z.leb_spec (arrival_time p) now); simpl in Hacc.
    + destruct (Z.ltb_spec 0 (remaining_time p)); simpl in Hacc.
      * destruct (Z.ltb_spec (priority p) hp); simpl in Hacc; [done|].
        destruct (Z.eqb_spec (priority p) hp); simpl in Hacc.
        { by apply app_eq_nil in Hacc as [_ ?]. }
        specialize (Hinit Hacc). lia.
      * split; [done|]. apply Forall_cons. split; [lia|done].
    + split; [done|]. apply Forall_cons. split; [lia|done].
Qed.

Lemma pprr_collect_empty ps :
  Forall (fun p => priority p <= INT_MAX) ps ->
  (PPRR.collect ps now).2 = [] ->
  Forall (fun p => ~ (arrival_time p <= now /\ 0 < remaining_time p)) ps.
Proof.
  intros Hprio Hempty.
  by destruct (pprr_collect_loop_empty ps 0 (INT_MAX, []) Hprio) as [_ ?].
Qed.

Lemma pprr_sort_ready_members ps ready :
  Forall (ready_member now ps) ready -> Forall (ready_member now ps) (PPRR.sort_ready ps ready).
Proof.
  intros H. unfold PPRR.sort_ready. by rewrite bubble_sort_perm.
Qed.

Lemma pprr_sort_ready_nonempty ps ready :
  ready <> [] -> PPRR.sort_ready ps ready <> [].
Proof.
  intros Hne Hnil. unfold PPRR.sort_ready in Hnil.
  pose proof (bubble_sort_perm (fun a b => pid_at ps b <? pid_at ps a) ready) as Hperm.
  rewrite Hnil in Hperm. symmetry in Hperm. by apply Permutation_nil_r in Hperm.
Qed.

End PPRR_collect.

(** ** Slices and rotations of the priority engine *)

Section PPRR_frame.

Lemma pprr_slice_static hp idx units st st' b :
  PPRR.slice hp idx units st = Some (st', b) ->
  map static_fields (cs_processes st') = map static_fields (cs_processes st)
  /\ current_time st <= current_time st'.
Proof.
  revert st. induction units as [|units IH]; intros st; simpl.
  - intros ?; simplify_eq. split; [done|lia].
  - destruct (cs_processes st !! idx) as [p|] eqn:Hidx; [|done].
    destruct (INT_MAX <=? current_time st); [done|].
    pose proof (run_unit_static st idx p Hidx) as Hst.
    pose proof (run_unit_clock st idx p) as Hcl.
    destruct (PPRR.higher_priority_arrival _ _ _).
    { intros ?; simplify_eq. split; [done|lia]. }
    destruct (remaining_time p - 1 =? 0).
    { intros ?; simplify_eq. split; [done|lia]. }
    intros Hrec. destruct (IH _ Hrec) as [H1 H2]. split; [congruence|lia].
Qed.

Lemma pprr_rotation_static tq hp n ready st st' b :
  PPRR.rotation tq hp n ready st = Some (st', b) ->
  map static_fields (cs_processes st') = map static_fields (cs_processes st)
  /\ current_time st <= current_time st'.
Proof.
  revert st. induction ready as [|idx ready IH]; intros st; simpl.
  - intros ?; simplify_eq. split; [done|lia].
  - destruct (completed st <? n); [|intros ?; simplify_eq; split; [done|lia]].
    destruct (cs_processes st !! idx) as [p|]; [|done].
    destruct (remaining_time p <=? 0); [apply IH|].
    destruct (PPRR.slice hp idx _ st) as [[st1 [|]]|] eqn:Hslice; [| |done].
    + intros ?; simplify_eq. by eapply pprr_slice_static.
    + intros Hrec. destruct (IH _ Hrec) as [H1 H2].
      destruct (pprr_slice_static _ _ _ _ _ _ Hslice) as [H3 H4].
      split; [congruence|lia].
Qed.

Lemma pprr_iteration_static tq n st st' :
  PPRR.iteration tq n st = Continue st' ->
  map static_fields (cs_processes st') = map static_fields (cs_processes st).
Proof.
  unfold PPRR.iteration.
  destruct (PPRR.collect _ _) as [hp [|idx ready]].
  - destruct (next_arrival _ _ =? INT_MAX); intros ?; by simplify_eq.
  - destruct (PPRR.rotation _ _ _ _ _) as [[st1 b]|] eqn:Hrot; [|done].
    intros ?; simplify_eq. by eapply pprr_rotation_static.
Qed.

Lemma pprr_iteration_break tq n st st' : PPRR.iteration tq n st = Break st' -> st' = st.
Proof.
  unfold PPRR.iteration. intros Hit. repeat case_match; by simplify_eq.
Qed.

Lemma pprr_loop_static fuel tq n st how st' :
  PPRR.loop fuel tq n st = Finished how st' ->
  map static_fields (cs_processes st') = map static_fields (cs_processes st).
Proof.
  revert st. induction fuel as [|fuel IH]; intros st; simpl.
  - destruct (completed st <? n); intros; by simplify_eq.
  - destruct (completed st <? n); [|intros; by simplify_eq].
    destruct (PPRR.iteration tq n st) as [st1|st1|] eqn:Hit; [| |done].
    + intros Hl. rewrite (IH _ Hl). by eapply pprr_iteration_static.
    + intros ?. simplify_eq. by rewrite (pprr_iteration_break _ _ _ _ Hit).
Qed.

(** Static fields and a clock that only advances keep arrived processes
    arrived. *)
Lemma arrived_later st st' idx :
  map static_fields (cs_processes st') = map static_fields (cs_processes st) ->
  current_time st <= current_time st' ->
  arrived st idx -> arrived st' idx.
Proof.
  intros Hst Hcl (p & Hp & Ha).
  destruct (static_fields_lookup _ _ _ _ Hst Hp) as (p' & Hp' & Heq).
  exists p'. split; [done|]. apply static_fields_eq in Heq. lia.
Qed.

End PPRR_frame.

Section PPRR_valid.

Variables latest bound : Z.
Hypothesis bound_int : bound < INT_MAX.

(** A slice of at most [remaining_time] units neither faults nor breaks the
    invariant, and uses up measure as soon as it has a unit to run. *)
Lemma pprr_slice_inv hp idx units st p :
  clock_inv latest bound st ->
  cs_processes st !! idx = Some p ->
  arrival_time p <= current_time st ->
  Z.of_nat units <= remaining_time p ->
  exists st' b, PPRR.slice hp idx units st = Some (st', b)
                /\ clock_inv latest bound st'
                /\ (measure st' <= measure st)%nat
                /\ ((0 < units)%nat -> (measure st' < measure st)%nat).
Proof.
  revert st p. induction units as [|units IH]; intros st p Hinv Hidx Harr Hrem; simpl.
  - exists st, false. split_and!; [done|done|lia|lia].
  - rewrite Hidx.
    pose proof (clock_inv_before_max _ _ bound_int st Hinv) as Hclock.
    destruct (Z.leb_spec INT_MAX (current_time st)); [lia|].
    pose proof (run_unit_inv _ _ st idx p Hinv Hidx Harr ltac:(lia)) as Hinv1.
    pose proof (run_unit_measure st idx p Hidx ltac:(lia)) as Hm1.
    destruct (PPRR.higher_priority_arrival _ _ _).
    { eexists _, _. split_and!; [done|done|lia|lia]. }
    destruct (Z.eqb_spec (remaining_time p - 1) 0).
    { eexists _, _. split_and!; [done|done|lia|lia]. }
    destruct (run_unit_lookup st idx p Hidx) as (p' & Hps & Hst & Hrem' & _).
    assert (Hidx' : cs_processes (run_unit st idx p) !! idx = Some p').
    { rewrite Hps. apply list_lookup_insert_eq. by eapply lookup_lt_Some. }
    assert (Harr' : arrival_time p' = arrival_time p).
    { unfold static_fields in Hst. congruence. }
    destruct (IH (run_unit st idx p) p' Hinv1 Hidx') as (st' & b & Hs & Hinv' & Hle & _).
    { rewrite Harr', run_unit_clock. lia. }
    { lia. }
    exists st', b. split_and!; [done|done|lia|lia].
Qed.

Lemma pprr_run_for_bounds tq p :
  0 < tq -> 0 < remaining_time p ->
  (0 < Z.to_nat (PPRR.run_for tq p))%nat
  /\ Z.of_nat (Z.to_nat (PPRR.run_for tq p)) <= remaining_time p.
Proof. unfold PPRR.run_for. intros. zbool; lia. Qed.

Lemma pprr_rotation_inv tq hp n ready st :
  0 < tq ->
  clock_inv latest bound st ->
  Forall (arrived st) ready ->
  exists st' b, PPRR.rotation tq hp n ready st = Some (st', b)
                /\ clock_inv latest bound st'
                /\ (measure st' <= measure st)%nat
                /\ (completed st < n -> ready <> [] ->
                    Forall (ready_member (current_time st) (cs_processes st)) ready ->
                    (measure st' < measure st)%nat).
Proof.
  intros Htq. revert st. induction ready as [|idx ready IH]; intros st Hinv Harr; simpl.
  - exists st, false. split_and!; [done|done|lia|done].
  - apply Forall_cons in Harr as [(p & Hidx & Ha) Harr].
    destruct (Z.ltb_spec (completed st) n) as [Hlt|Hge];
      [|exists st, false; split_and!; [done|done|lia|lia]].
    rewrite Hidx.
    destruct (Z.leb_spec (remaining_time p) 0) as [Hz|Hpos].
    { destruct (IH st Hinv Harr) as (st' & b & Hrot & Hinv' & Hle & _).
      exists st', b. split_and!; [done|done|lia|].
      intros _ _ [(q & Hq & _ & Hqpos) _]%Forall_cons. simplify_eq. lia. }
    destruct (pprr_run_for_bounds tq p Htq Hpos) as [Hu0 Hu1].
    destruct (pprr_slice_inv hp idx _ st p Hinv Hidx Ha Hu1)
      as (st1 & b1 & Hslice & Hinv1 & Hle1 & Hlt1).
    rewrite Hslice. destruct b1.
    { exists st1, true. split_and!; [done|done|lia|]. intros. by apply Hlt1. }
    destruct (pprr_slice_static _ _ _ _ _ _ Hslice) as [Hst Hcl].
    destruct (IH st1 Hinv1) as (st' & b & Hrot & Hinv' & Hle & _).
    { eapply Forall_impl; [exact Harr|]. intros i. by apply arrived_later. }
    exists st', b. split_and!; [done|done|lia|]. intros. specialize (Hlt1 Hu0). lia.
Qed.

Lemma ready_member_arrived st idx :
  ready_member (current_time st) (cs_processes st) idx -> arrived st idx.
Proof. intros (p & ? & ? & ?). by exists p. Qed.

(** An iteration entered with work outstanding goes on, keeps the
    invariant and uses up measure. *)
Lemma pprr_iteration_progress tq st :
  0 < tq ->
  clock_inv latest bound st ->
  Forall (fun p => priority p <= INT_MAX) (cs_processes st) ->
  completed st < Z.of_nat (length (cs_processes st)) ->
  exists st', PPRR.iteration tq (Z.of_nat (length (cs_processes st))) st = Continue st'
              /\ clock_inv latest bound st'
              /\ (measure st' < measure st)%nat.
Proof.
  intros Htq Hinv Hprio Hlt.
  unfold PPRR.iteration.
  pose proof (pprr_collect_members (current_time st) (cs_processes st)) as Hmem.
  pose proof (pprr_collect_empty (current_time st) (cs_processes st) Hprio) as Hemp.
  destruct (PPRR.collect _ _) as [hp ready]. simpl in Hmem, Hemp.
  destruct ready as [|idx ready].
  - specialize (Hemp eq_refl).
    pose proof (clock_inv_latest _ _ bound_int st Hinv) as Harr.
    rewrite (inv_count _ _ _ Hinv) in Hlt.
    destruct (done_count_pending _ Hlt) as (i & p & Hi & Hp).
    pose proof (Forall_lookup_1 _ _ _ _ (inv_each _ _ _ Hinv) Hi) as Hok.
    pose proof (Forall_lookup_1 _ _ _ _ Hemp Hi) as Hno.
    pose proof (Forall_lookup_1 _ _ _ _ Harr Hi) as Ha. simpl in Hno, Ha.
    unfold process_ok in Hok.
    assert (Hne : next_arrival (cs_processes st) (current_time st) <> INT_MAX).
    { eapply next_arrival_exists; [exact Hi|lia|lia|done]. }
    destruct (Z.eqb_spec (next_arrival (cs_processes st) (current_time st)) INT_MAX); [done|].
    eexists; split_and!; [done|by apply jump_inv|].
    unfold measure. simpl. pose proof (future_count_jump _ _ Hne). lia.
  - set (sorted := PPRR.sort_ready (cs_processes st) (idx :: ready)).
    assert (Hsorted : Forall (ready_member (current_time st) (cs_processes st)) sorted).
    { by apply pprr_sort_ready_members. }
    assert (Hne : sorted <> []) by (by apply pprr_sort_ready_nonempty).
    destruct (pprr_rotation_inv tq hp (Z.of_nat (length (cs_processes st))) sorted st Htq Hinv)
      as (st' & b & Hrot & Hinv' & _ & Hdec).
    { eapply Forall_impl; [exact Hsorted|]. intros i. apply ready_member_arrived. }
    rewrite Hrot. exists st'. split_and!; [done|done|]. by apply Hdec.
Qed.

Lemma pprr_loop_complete tq fuel st :
  0 < tq ->
  clock_inv latest bound st ->
  Forall (fun p => priority p <= INT_MAX) (cs_processes st) ->
  (measure st < fuel)%nat ->
  exists st', PPRR.loop fuel tq (Z.of_nat (length (cs_processes st))) st
              = Finished LoopCondition st'
              /\ clock_inv latest bound st'
              /\ length (cs_processes st') = length (cs_processes st)
              /\ Z.of_nat (length (cs_processes st)) <= completed st'.
Proof.
  intros Htq. revert st. induction fuel as [|fuel IH]; intros st Hinv Hprio Hm; [lia|]. simpl.
  destruct (Z.ltb_spec (completed st) (Z.of_nat (length (cs_processes st)))) as [Hlt|Hge].
  - destruct (pprr_iteration_progress tq st Htq Hinv Hprio Hlt) as (st1 & Hit & Hinv1 & Hdec).
    rewrite Hit.
    pose proof (pprr_iteration_static _ _ _ _ Hit) as Hst.
    pose proof (f_equal length Hst) as Hlen. rewrite !length_map in Hlen.
    assert (Hprio1 : Forall (fun p => priority p <= INT_MAX) (cs_processes st1)).
    { apply Forall_lookup. intros i p' Hi.
      destruct (static_fields_lookup _ _ _ _ (eq_sym Hst) Hi) as (p & Hp & Heq).
      pose proof (Forall_lookup_1 _ _ _ _ Hprio Hp) as Hpp. simpl in Hpp.
      apply static_fields_eq in Heq. lia. }
    destruct (IH st1 Hinv1 Hprio1 ltac:(lia)) as (st' & Hloop & Hinv' & Hlen' & Hdone).
    rewrite Hlen in Hloop, Hlen', Hdone. by exists st'.
  - by exists st.
Qed.

End PPRR_valid.

Lemma effective_quantum_pos tq : 0 < PPRR.effective_quantum tq.
Proof. unfold PPRR.effective_quantum. zbool; lia. Qed.

Lemma pprr_run_complete tq ps :
  valid_input ps -> horizon ps < INT_MAX ->
  Forall (fun p => priority p <= INT_MAX) ps ->
  exists st, PPRR.run tq ps = Finished LoopCondition st
             /\ completed st = Z.of_nat (length ps)
             /\ length (cs_processes st) = length ps
             /\ Forall finished_process (cs_processes st).
Proof.
  intros Hvalid Hbound Hprio. unfold PPRR.run.
  pose proof (initial_inv ps Hvalid) as Hinv.
  assert (Hprio0 : Forall (fun p => priority p <= INT_MAX) (cs_processes (initial ps))).
  { unfold initial, reset_process_states. cbn [cs_processes]. rewrite map_map.
    apply Forall_fmap. eapply Forall_impl; [exact Hprio|]. by intros p Hp. }
  destruct (pprr_loop_complete _ _ Hbound (PPRR.effective_quantum tq)
              (S (measure (initial ps))) (initial ps) (effective_quantum_pos tq)
              Hinv Hprio0 ltac:(lia)) as (st & Hloop & Hinv' & Hlen & Hdone).
  rewrite initial_length in *.
  rewrite <- Hlen in Hdone.
  destruct (clock_inv_all_finished _ _ st Hinv' Hdone) as [Hc Hall].
  exists st. rewrite Hc, Hlen. by split_and!.
Qed.

(** ** The circular queue is a FIFO list *)

Section Queue.

Implicit Types qu : RR.Queue.

Lemma queue_contents_length qu : length (RR.contents qu) = RR.occupancy qu.
Proof. unfold RR.contents. by rewrite length_map, length_seq. Qed.

Lemma queue_contents_empty qu : RR.is_empty qu = true -> RR.contents qu = [].
Proof. unfold RR.contents, RR.occupancy. by intros ->. Qed.

Lemma queue_contents_nonempty qu : RR.is_empty qu = false -> RR.contents qu <> [].
Proof.
  unfold RR.contents, RR.occupancy. intros ->. simpl. done.
Qed.

Lemma queue_occupancy_bound qu : queue_wf qu -> (RR.occupancy qu <= Z.to_nat QUEUE_MAX)%nat.
Proof.
  intros [_ Hq]. unfold RR.occupancy, RR.is_empty, QUEUE_MAX in *.
  destruct (Z.eqb_spec (RR.front qu) (-1)); [lia|].
  pose proof (Z.mod_pos_bound (RR.rear qu - RR.front qu) 1000 ltac:(lia)). lia.
Qed.

Lemma queue_init_wf l : length l = Z.to_nat QUEUE_MAX ->
  queue_wf (RR.init_queue (RR.mkQueue l 0 0)).
Proof. intros Hl. split; [done|]. left. done. Qed.

Lemma queue_item_at_insert_eq qu (i : Z) x f r :
  0 <= i < Z.of_nat (length (RR.items qu)) ->
  RR.item_at (RR.mkQueue (<[Z.to_nat i := x]> (RR.items qu)) f r) i = x.
Proof.
  intros Hi. unfold RR.item_at. simpl.
  rewrite list_lookup_insert_eq; [done|lia].
Qed.

Lemma queue_item_at_insert_ne qu (i j : Z) x f r :
  0 <= i -> 0 <= j -> i <> j ->
  RR.item_at (RR.mkQueue (<[Z.to_nat i := x]> (RR.items qu)) f r) j = RR.item_at qu j.
Proof.
  intros Hi Hj Hne. unfold RR.item_at. simpl.
  rewrite list_lookup_insert_ne; [done|lia].
Qed.

(** Enqueueing on a queue that is not full appends at the back. *)
Lemma queue_enqueue_spec qu x :
  queue_wf qu ->
  (RR.occupancy qu < Z.to_nat QUEUE_MAX)%nat ->
  RR.full qu = false
  /\ queue_wf (RR.enqueue qu x)
  /\ RR.contents (RR.enqueue qu x) = RR.contents qu ++ [x].
Proof.
  intros [Hlen Hq] Hocc.
  unfold RR.full, RR.enqueue, RR.contents, RR.occupancy, RR.is_empty in *.
  destruct Hq as [[Hf Hr]|[Hf Hr]].
  - rewrite Hf, Hr. simpl. split_and!; [done| |].
    + split; [cbn [RR.items]; by rewrite length_insert|].
      right. unfold QUEUE_MAX. simpl. lia.
    + f_equal. change ((0 + Z.of_nat 0) mod QUEUE_MAX) with 0.
      apply (queue_item_at_insert_eq qu 0). rewrite Hlen. unfold QUEUE_MAX. lia.
  - destruct (Z.eqb_spec (RR.front qu) (-1)) as [|_]; [lia|].
    unfold QUEUE_MAX in *.
    rewrite Z.rem_mod_nonneg by lia.
    remember (RR.front qu) as f eqn:Ef. remember (RR.rear qu) as r eqn:Er.
    assert (Hd : 0 <= (r - f) mod 1000 < 999).
    { pose proof (Z.mod_pos_bound (r - f) 1000 ltac:(lia)). lia. }
    assert (Hr' : 0 <= (r + 1) mod 1000 < 1000) by (apply Z.mod_pos_bound; lia).
    assert (Hnew : ((r + 1) mod 1000 - f) mod 1000 = (r - f) mod 1000 + 1).
    { clear Hocc. Z.div_mod_to_equations. lia. }
    destruct (Z.eqb_spec ((r + 1) mod 1000) f) as [Heq|Hne].
    { exfalso. rewrite Heq in Hnew. rewrite Z.sub_diag in Hnew.
      change (0 mod 1000) with 0 in Hnew. lia. }
    split_and!; [done| |].
    + split; [cbn [RR.items]; by rewrite length_insert|].
      right. unfold QUEUE_MAX. simpl. lia.
    + cbn [RR.front RR.rear]. destruct (Z.eqb_spec f (-1)); [lia|]. rewrite Hnew.
      replace (Z.to_nat ((r - f) mod 1000 + 1)) with (S (Z.to_nat ((r - f) mod 1000))) by lia.
      set (d := Z.to_nat ((r - f) mod 1000)) in *.
      rewrite (seq_S (S d) 0), map_app. cbn [map Nat.add]. f_equal.
      * apply map_ext_in. intros k Hk%in_seq.
        apply (queue_item_at_insert_ne qu); [lia| apply Z.mod_pos_bound; lia |].
        intros Heq.
        assert (Hk' : (Z.of_nat k) <= (r - f) mod 1000) by lia.
        clear Hnew Hne Hocc. Z.div_mod_to_equations. lia.
      * f_equal.
        replace ((f + Z.of_nat (S d)) mod 1000) with ((r + 1) mod 1000).
        { apply (queue_item_at_insert_eq qu). rewrite Hlen. lia. }
        assert (Hdd : Z.of_nat (S d) = (r - f) mod 1000 + 1) by lia.
        rewrite Hdd. clear Hnew Hne Hocc Hdd. Z.div_mod_to_equations. lia.
Qed.

(** Dequeueing from a queue that is not empty removes the front. *)
Lemma queue_dequeue_spec qu :
  queue_wf qu ->
  RR.is_empty qu = false ->
  exists x l qu', RR.contents qu = x :: l
                  /\ RR.dequeue qu = (x, qu')
                  /\ x = RR.item_at qu (RR.front qu)
                  /\ queue_wf qu'
                  /\ RR.contents qu' = l.
Proof.
  intros [Hlen Hq] Hne.
  unfold RR.dequeue, RR.contents, RR.occupancy. rewrite Hne.
  unfold RR.is_empty in Hne.
  destruct (Z.eqb_spec (RR.front qu) (-1)) as [|Hf']; [done|].
  destruct Hq as [[Hf Hr]|[Hf Hr]]; [done|].
  unfold QUEUE_MAX in *.
  remember (RR.front qu) as f eqn:Ef. remember (RR.rear qu) as r eqn:Er.
  assert (Hf0 : (f + Z.of_nat 0) mod 1000 = f).
  { rewrite Z.add_0_r. apply Z.mod_small. lia. }
  destruct (Z.eqb_spec f r) as [Heq|Hfr].
  - rewrite <- Heq, Z.sub_diag. change (Z.to_nat (0 mod 1000)) with O.
    cbn [seq map]. rewrite Hf0.
    eexists _, _, _. split_and!; [done|done|done| |done].
    split; [done|]. by left.
  - rewrite Z.rem_mod_nonneg by lia.
    assert (Hd : 0 < (r - f) mod 1000 < 1000).
    { pose proof (Z.mod_pos_bound (r - f) 1000 ltac:(lia)).
      assert ((r - f) mod 1000 <> 0); [|lia].
      intros Hz. apply Z.mod_divide in Hz; [|lia]. destruct Hz as [k Hk]. lia. }
    assert (Hf1 : 0 <= (f + 1) mod 1000 < 1000) by (apply Z.mod_pos_bound; lia).
    assert (Hnew : (r - (f + 1) mod 1000) mod 1000 = (r - f) mod 1000 - 1).
    { clear Hf0. Z.div_mod_to_equations. lia. }
    cbn [seq map]. rewrite Hf0.
    eexists _, _, _. split_and!; [done|done|done| |].
    + split; [done|]. right. unfold QUEUE_MAX. cbn [RR.front RR.rear]. lia.
    + unfold RR.is_empty. cbn [RR.front RR.rear].
      destruct (Z.eqb_spec ((f + 1) mod 1000) (-1)); [lia|].
      rewrite Hnew.
      replace (S (Z.to_nat ((r - f) mod 1000 - 1))) with (Z.to_nat ((r - f) mod 1000)) by lia.
      rewrite <- seq_shift, map_map.
      apply map_ext. intros k. unfold RR.item_at. cbn [RR.items].
      rewrite Zplus_mod_idemp_l.
      by replace (f + 1 + Z.of_nat k) with (f + Z.of_nat (S k)) by lia.
Qed.

End Queue.

(** ** Flags and queue of round robin *)

Section RR_queue.

Lemma flag_insert_eq (l : list bool) i b : (i < length l)%nat -> RR.flag (<[i := b]> l) i = b.
Proof. intros Hi. unfold RR.flag. by rewrite list_lookup_insert_eq. Qed.

Lemma flag_insert_ne (l : list bool) i j b : i <> j -> RR.flag (<[i := b]> l) j = RR.flag l j.
Proof. intros Hij. unfold RR.flag. by rewrite list_lookup_insert_ne. Qed.

Lemma flag_true_lt (l : list bool) i : RR.flag l i = true -> (i < length l)%nat.
Proof.
  unfold RR.flag. destruct (l !! i) eqn:Hl; [|done]. intros _. by eapply lookup_lt_Some.
Qed.

Lemma flag_replicate n i : RR.flag (replicate n false) i = false.
Proof.
  unfold RR.flag. destruct (replicate n false !! i) eqn:Hl; [|done].
  by apply lookup_replicate in Hl as [-> _].
Qed.

Variable n : nat.
Hypothesis n_small : Z.of_nat n < QUEUE_MAX.

(** The queue never holds more entries than there are processes. *)
Lemma queue_inv_length qu in_queue :
  queue_inv n qu in_queue -> (length (RR.contents qu) <= n)%nat.
Proof.
  intros [_ Hnd Hlen Hflags].
  assert (Hsub : RR.contents qu ⊆+ map Z.of_nat (seq 0 n)).
  { apply NoDup_submseteq; [done|]. intros x [i [-> Hi]]%Hflags.
    apply flag_true_lt in Hi.
    change (Z.of_nat i ∈ Z.of_nat <$> seq 0 n). apply list_elem_of_fmap_2.
    apply elem_of_seq. lia. }
  apply submseteq_length in Hsub. by rewrite length_map, length_seq in Hsub.
Qed.

Lemma queue_inv_enqueue qu in_queue i :
  queue_inv n qu in_queue ->
  (i < n)%nat -> RR.flag in_queue i = false ->
  RR.full qu = false
  /\ queue_inv n (RR.enqueue qu (Z.of_nat i)) (<[i := true]> in_queue)
  /\ RR.contents (RR.enqueue qu (Z.of_nat i)) = RR.contents qu ++ [Z.of_nat i].
Proof.
  intros Hinv Hi Hflag.
  pose proof (queue_inv_length _ _ Hinv) as Hlen.
  destruct Hinv as [Hwf Hnd Hl Hflags].
  destruct (queue_enqueue_spec qu (Z.of_nat i) Hwf) as (Hfull & Hwf' & Hc).
  { rewrite <- queue_contents_length. unfold QUEUE_MAX in *. lia. }
  split_and!; [done| |done].
  constructor; [done| | by rewrite length_insert |].
  - rewrite Hc. apply NoDup_app. split_and!; [done| |apply NoDup_singleton].
    intros x [j [-> Hj]]%Hflags [= ->%Nat2Z.inj]%list_elem_of_singleton. congruence.
  - intros x. rewrite Hc, elem_of_app, list_elem_of_singleton, Hflags. split.
    + intros [(j & -> & Hj)| ->].
      * exists j. split; [done|]. destruct (decide (i = j)) as [->|Hne]; [congruence|].
        by rewrite flag_insert_ne.
      * exists i. split; [done|]. apply flag_insert_eq. lia.
    + intros (j & -> & Hj). destruct (decide (i = j)) as [->|Hne]; [by right|].
      left. exists j. split; [done|]. by rewrite flag_insert_ne in Hj.
Qed.

Lemma queue_inv_dequeue qu in_queue :
  queue_inv n qu in_queue ->
  RR.is_empty qu = false ->
  exists i l qu', RR.contents qu = Z.of_nat i :: l
                  /\ RR.dequeue qu = (Z.of_nat i, qu')
                  /\ (i < n)%nat
                  /\ RR.flag in_queue i = true
                  /\ queue_inv n qu' (<[i := false]> in_queue)
                  /\ RR.contents qu' = l.
Proof.
  intros [Hwf Hnd Hl Hflags] Hne.
  destruct (queue_dequeue_spec qu Hwf Hne) as (x & l & qu' & Hc & Hdq & _ & Hwf' & Hc').
  assert (Hx : x ∈ RR.contents qu) by (rewrite Hc; apply elem_of_cons; by left).
  apply Hflags in Hx as (i & -> & Hi).
  pose proof (flag_true_lt _ _ Hi) as Hlt.
  exists i, l, qu'. split_and!; [done|done|lia|done| |done].
  rewrite Hc in Hnd. apply NoDup_cons in Hnd as [Hnotin Hnd].
  constructor; [done| by rewrite Hc' | by rewrite length_insert |].
  intros x. rewrite Hc'. split.
  - intros Hx. assert (Hx' : x ∈ RR.contents qu) by (rewrite Hc; apply elem_of_cons; by right).
    apply Hflags in Hx' as (j & -> & Hj). exists j. split; [done|].
    destruct (decide (i = j)) as [->|Hij]; [done|]. by rewrite flag_insert_ne.
  - intros (j & -> & Hj). destruct (decide (i = j)) as [->|Hij].
    + rewrite flag_insert_eq in Hj; [done|lia].
    + rewrite flag_insert_ne in Hj by done.
      assert (Hx' : Z.of_nat j ∈ RR.contents qu) by (apply Hflags; eauto).
      rewrite Hc in Hx'. apply elem_of_cons in Hx' as [?%Nat2Z.inj|?]; [congruence|done].
Qed.

End RR_queue.

(** ** The admission loops of round robin *)

Section RR_admission.

Variable test : list bool -> nat -> Process -> bool.
Hypothesis test_local :
  forall l1 l2 j p, RR.flag l1 j = RR.flag l2 j -> test l1 j p = test l2 j p.

Lemma admitted_ext rest i l1 l2 :
  (forall j, (i <= j)%nat -> RR.flag l1 j = RR.flag l2 j) ->
  admitted test l1 i rest = admitted test l2 i rest.
Proof.
  revert i. induction rest as [|p rest IH]; intros i Hflags; simpl; [done|].
  rewrite (test_local l1 l2 i p) by (apply Hflags; lia).
  rewrite (IH (S i)) by (intros j Hj; apply Hflags; lia). done.
Qed.

Lemma admitted_elem rest i in_queue j :
  j ∈ admitted test in_queue i rest
  <-> exists k p, j = (i + k)%nat /\ rest !! k = Some p /\ test in_queue j p = true.
Proof.
  revert i. induction rest as [|p rest IH]; intros i; simpl.
  - split; [by intros ?%elem_of_nil | by intros (k & x & _ & ? & _)].
  - assert (Hrec : j ∈ admitted test in_queue (S i) rest
                   <-> exists k x, j = (i + S k)%nat /\ rest !! k = Some x
                                   /\ test in_queue j x = true).
    { rewrite IH. split; intros (k & x & -> & ? & ?); exists k, x; split_and!; try done; lia. }
    destruct (test in_queue i p) eqn:Ht.
    + rewrite elem_of_cons, Hrec. split.
      * intros [->|(k & x & -> & ? & ?)].
        -- exists O, p. split_and!; [lia|done|done].
        -- exists (S k), x. done.
      * intros ([|k] & x & -> & Hx & Hj); simpl in Hx.
        -- left. lia.
        -- right. by exists k, x.
    + rewrite Hrec. split.
      * intros (k & x & -> & ? & ?). by exists (S k), x.
      * intros ([|k] & x & -> & Hx & Hj); simpl in Hx.
        -- simplify_eq. rewrite Nat.add_0_r in Hj. congruence.
        -- by exists k, x.
Qed.

Variable n : nat.
Hypothesis n_small : Z.of_nat n < QUEUE_MAX.

(** An admission loop appends the admitted indices, in index order, sets
    their flags, and never meets a full queue. *)
Lemma rr_enqueue_loop_spec rest i qu in_queue :
  (i + length rest)%nat = n ->
  queue_inv n qu in_queue ->
  (forall k p, rest !! k = Some p -> test in_queue (i + k) p = true ->
               RR.flag in_queue (i + k) = false) ->
  exists qu' in_queue',
    RR.enqueue_loop test i rest qu in_queue = (qu', in_queue')
    /\ queue_inv n qu' in_queue'
    /\ RR.contents qu' = RR.contents qu ++ map Z.of_nat (admitted test in_queue i rest)
    /\ (forall j, RR.flag in_queue' j = true
                  <-> RR.flag in_queue j = true \/ j ∈ admitted test in_queue i rest)
    /\ enqueue_loop_never_full test i rest qu in_queue.
Proof.
  revert i qu in_queue. induction rest as [|p rest IH]; intros i qu in_queue Hn Hinv Hfresh; simpl.
  - exists qu, in_queue. split; [done|]. split; [done|].
    split; [by rewrite app_nil_r|]. split; [|done].
    intros j. split; [by left|]. intros [?|?%elem_of_nil]; done.
  - simpl in Hn. destruct (test in_queue i p) eqn:Ht.
    + assert (Hi : RR.flag in_queue i = false).
      { specialize (Hfresh O p eq_refl). rewrite Nat.add_0_r in Hfresh. by apply Hfresh. }
      destruct (queue_inv_enqueue n n_small qu in_queue i Hinv ltac:(lia) Hi)
        as (Hfull & Hinv1 & Hc1).
      assert (Hsame : forall j, (S i <= j)%nat ->
                RR.flag (<[i := true]> in_queue) j = RR.flag in_queue j).
      { intros j Hj. apply flag_insert_ne. lia. }
      destruct (IH (S i) _ _ ltac:(lia) Hinv1) as (qu' & in_queue' & Hloop & Hinv' & Hc & Hfl & Hnf).
      { intros k x Hk. rewrite Hsame by lia.
        rewrite (test_local _ in_queue) by (apply Hsame; lia).
        specialize (Hfresh (S k) x Hk).
        by replace (i + S k)%nat with (S i + k)%nat in Hfresh by lia. }
      rewrite (admitted_ext rest (S i) _ in_queue Hsame) in Hc, Hfl.
      exists qu', in_queue'. split; [done|]. split; [done|].
      split; [|split; [|done]].
      * rewrite Hc, Hc1, <- app_assoc. done.
      * intros j. rewrite Hfl, elem_of_cons.
        destruct (decide (i = j)) as [->|Hij].
        -- rewrite flag_insert_eq by (rewrite (qi_length _ _ _ Hinv); lia).
           split; [intros _; right; by left | intros _; by left].
        -- rewrite flag_insert_ne by done.
           split; [intros [?|?]; [by left | right; by right]
                  |intros [?|[?|?]]; [by left | done | by right]].
    + destruct (IH (S i) qu in_queue ltac:(lia) Hinv) as (qu' & in_queue' & Hloop & Hinv' & Hc & Hfl & Hnf).
      { intros k x Hk. specialize (Hfresh (S k) x Hk).
        by replace (i + S k)%nat with (S i + k)%nat in Hfresh by lia. }
      by exists qu', in_queue'.
Qed.

End RR_admission.

Lemma arrives_at_zero_local l1 l2 j p :
  RR.flag l1 j = RR.flag l2 j -> RR.arrives_at_zero l1 j p = RR.arrives_at_zero l2 j p.
Proof. done. Qed.

Lemma arrives_at_local done now l1 l2 j p :
  RR.flag l1 j = RR.flag l2 j -> RR.arrives_at done now l1 j p = RR.arrives_at done now l2 j p.
Proof. unfold RR.arrives_at. by intros ->. Qed.

Lemma arrives_within_local done start now l1 l2 j p :
  RR.flag l1 j = RR.flag l2 j ->
  RR.arrives_within done start now l1 j p = RR.arrives_within done start now l2 j p.
Proof. unfold RR.arrives_within. by intros ->. Qed.

(** ** The idle branch of round robin *)

Section RR_idle.

Lemma rr_next_arrival_loop_spec done now rest i acc :
  let r := RR.next_arrival_loop done now i rest acc in
  r <= acc
  /\ (r = acc \/ exists k p, rest !! k = Some p /\ RR.flag done (i + k) = false
                             /\ now < arrival_time p /\ arrival_time p = r)
  /\ (forall k p, rest !! k = Some p -> RR.flag done (i + k) = false ->
                  now < arrival_time p -> r <= arrival_time p \/ acc <= arrival_time p).
Proof.
  revert i acc. induction rest as [|p rest IH]; intros i acc; simpl.
  - split_and!; [lia | by left | done].
  - match goal with
    | |- context [RR.next_arrival_loop _ _ _ _ ?a] => set (acc' := a)
    end.
    destruct (IH (S i) acc') as (Hle & Hcase & Hall).
    set (r := RR.next_arrival_loop _ _ _ _ _) in *.
    assert (Hstep : acc' <= acc
                    /\ (acc' = acc \/ (RR.flag done i = false /\ now < arrival_time p
                                       /\ acc' = arrival_time p))
                    /\ (RR.flag done i = false -> now < arrival_time p ->
                        acc' <= arrival_time p)).
    { unfold acc'. destruct (RR.flag done i); simpl; zbool; split_and!; try lia; auto;
        try (right; split_and!; [done|lia|lia]); intros; try done; lia. }
    destruct Hstep as (Hs1 & Hs2 & Hs3).
    split_and!.
    + lia.
    + destruct Hcase as [Hr|(k & x & Hk & Hd & ? & ?)].
      * destruct Hs2 as [Hs2|(? & ? & Hs2)]; [left; lia|].
        right. exists O, p. rewrite Nat.add_0_r. split_and!; [done|done|done|lia].
      * right. exists (S k), x. replace (i + S k)%nat with (S i + k)%nat by lia. done.
    + intros [|k] x Hk Hd Hx; simpl in Hk.
      * simplify_eq. rewrite Nat.add_0_r in Hd. specialize (Hs3 Hd Hx). lia.
      * replace (i + S k)%nat with (S i + k)%nat in Hd by lia.
        specialize (Hall k x Hk Hd Hx). lia.
Qed.

Lemma rr_process_ok_advance now now' done queued queued' p r :
  rr_process_ok now done queued p r ->
  now <= now' ->
  (queued' = true -> queued = true \/ (done = false /\ arrival_time p <= now')) ->
  (done = false -> arrival_time p <= now' -> queued' = true) ->
  rr_process_ok now' done queued' p r.
Proof.
  unfold rr_process_ok. intros (H1 & H2 & H3 & H4 & H5 & H6 & H7 & H8) Hle Hq1 Hq2.
  split_and!; try done; try lia.
  intros Hq. destruct (Hq1 Hq) as [Hold|[? ?]]; [|done].
  destruct (H7 Hold). split; [lia|done].
Qed.

Lemma rr_future_sum_le now now' (l : list Process) :
  now <= now' ->
  sum_Z (map (rr_is_future now') l) <= sum_Z (map (rr_is_future now) l).
Proof.
  intros Hle. apply sum_map_le, Forall_forall. intros p _. unfold rr_is_future. zbool; lia.
Qed.

Lemma rr_future_sum_nonneg now (l : list Process) : 0 <= sum_Z (map (rr_is_future now) l).
Proof. apply sum_map_nonneg. intros p. unfold rr_is_future. zbool; lia. Qed.

Variable n : nat.
Hypothesis n_small : Z.of_nat n < QUEUE_MAX.

Lemma rr_empty_flags st i :
  rr_inv st -> RR.is_empty (RR.q st) = true -> RR.flag (RR.in_ready_queue st) i = false.
Proof.
  intros Hinv Hempty. destruct (RR.flag (RR.in_ready_queue st) i) eqn:Hf; [|done].
  assert (Hin : Z.of_nat i ∈ RR.contents (RR.q st)).
  { apply (qi_flags _ _ _ (ri_queue _ Hinv)). eauto. }
  rewrite (queue_contents_empty _ Hempty) in Hin. by apply elem_of_nil in Hin.
Qed.

(** The idle branch: a break when nothing is pending, otherwise a jump to
    the next arrival and the admission of the processes that arrive then. *)
Lemma rr_idle_spec st :
  length (RR.procs st) = n ->
  rr_inv st ->
  RR.is_empty (RR.q st) = true ->
  (RR.next_arrival_time st = INT_MAX -> RR.idle st = Break st)
  /\ (RR.next_arrival_time st <> INT_MAX ->
      exists st', RR.idle st = Continue st'
                  /\ rr_inv st'
                  /\ RR.procs st' = RR.procs st
                  /\ RR.remaining_time st' = RR.remaining_time st
                  /\ RR.time st < RR.time st'
                  /\ RR.time st' = RR.next_arrival_time st
                  /\ (rr_measure st' < rr_measure st)%nat
                  /\ idle_never_full st).
Proof.
  intros Hn Hinv Hempty. unfold RR.idle.
  destruct (Z.eqb_spec (RR.next_arrival_time st) INT_MAX) as [Heq|Hne]; [by split|].
  split; [done|]. intros _.
  set (next := RR.next_arrival_time st) in *.
  destruct (rr_next_arrival_loop_spec (RR.is_completed st) (RR.time st) (RR.procs st) 0 INT_MAX)
    as (Hmax & [?|(k0 & p0 & Hk0 & Hd0 & Hlt0 & Harr0)] & Hmin); [done|].
  fold (RR.next_arrival_time st) in Harr0, Hmin, Hmax. fold next in Harr0, Hmin, Hmax.
  set (test := RR.arrives_at (RR.is_completed st) next).
  destruct (rr_enqueue_loop_spec test (arrives_at_local _ _) n n_small (RR.procs st) 0
              (RR.q st) (RR.in_ready_queue st) ltac:(simpl; lia)
              ltac:(rewrite <- Hn; apply (ri_queue _ Hinv)))
    as (qu' & in_queue' & Hloop & Hqinv & Hc & Hfl & Hnf).
  { intros k p _ _. by apply rr_empty_flags. }
  rewrite Hloop.
  eexists. split; [done|]. simpl.
  split_and!; try done; try lia; [| |by intros _].
  - constructor; simpl.
    + apply (ri_len_remaining _ Hinv).
    + apply (ri_len_completed _ Hinv).
    + by rewrite Hn.
    + intros i p r Hp Hr.
      pose proof (ri_each _ Hinv i p r Hp Hr) as Hok.
      apply (rr_process_ok_advance (RR.time st) next _ (RR.flag (RR.in_ready_queue st) i));
        [done|lia| |].
      * intros [Hold|Hadm]%Hfl.
        { by rewrite (rr_empty_flags st i Hinv Hempty) in Hold. }
        apply admitted_elem in Hadm as (k & x & -> & Hx & Ht).
        rewrite Nat.add_0_l in *. assert (x = p) as -> by congruence.
        right. unfold test, RR.arrives_at in Ht.
        destruct (RR.flag (RR.is_completed st) k); [done|]. simpl in Ht.
        destruct (Z.eqb_spec (arrival_time p) next); [|done]. split; [done|lia].
      * intros Hd Ha. apply Hfl.
        destruct (Z.le_gt_cases (arrival_time p) (RR.time st)) as [Hold|Hnew].
        { left. unfold rr_process_ok in Hok. by apply Hok. }
        right. apply admitted_elem. exists i, p. split_and!; [done|done|].
        unfold test, RR.arrives_at. rewrite Hd, (rr_empty_flags st i Hinv Hempty). simpl.
        specialize (Hmin i p Hp Hd ltac:(lia)).
        destruct (Z.eqb_spec (arrival_time p) next); [done|]. lia.
    + apply (ri_count _ Hinv).
    + pose proof (ri_time _ Hinv). lia.
  - unfold rr_measure. simpl.
    pose proof (rr_future_sum_nonneg next (RR.procs st)).
    enough (sum_Z (map (rr_is_future next) (RR.procs st))
            < sum_Z (map (rr_is_future (RR.time st)) (RR.procs st))) by lia.
    eapply sum_map_lt; [|exact Hk0|].
    + apply Forall_forall. intros x _. unfold rr_is_future. zbool; lia.
    + unfold rr_is_future. zbool; lia.
Qed.

End RR_idle.

(** ** The slice branch of round robin *)

Section RR_slice.

Lemma sum_Z_insert (l : list Z) i x y :
  l !! i = Some x -> sum_Z (<[i := y]> l) = sum_Z l - x + y.
Proof.
  intros Hi. pose proof (sum_map_insert (fun z => z) l i x y Hi) as H.
  by rewrite !map_id in H.
Qed.

Lemma sum_Z_lookup_le (l : list Z) i x :
  Forall (fun z => 0 <= z) l -> l !! i = Some x -> x <= sum_Z l.
Proof.
  intros Hl Hi. pose proof (sum_map_lookup_le_Forall (fun z => z) l i x Hl Hi) as H.
  by rewrite map_id in H.
Qed.

Lemma bool_count_insert (l : list bool) i :
  l !! i = Some false -> bool_count (<[i := true]> l) = bool_count l + 1.
Proof.
  intros Hi. unfold bool_count. rewrite (sum_map_insert _ _ _ _ _ Hi). lia.
Qed.

Lemma bool_count_le (l : list bool) : bool_count l <= Z.of_nat (length l).
Proof. unfold bool_count. induction l as [|[|] l IH]; simpl; lia. Qed.

Lemma bool_count_pending (l : list bool) :
  bool_count l < Z.of_nat (length l) -> exists i, l !! i = Some false.
Proof.
  unfold bool_count. induction l as [|[|] l IH]; simpl; [lia| |].
  - intros Hlt. destruct IH as [i Hi]; [lia|]. by exists (S i).
  - intros _. by exists O.
Qed.

Lemma bool_count_all (l : list bool) :
  Z.of_nat (length l) <= bool_count l -> Forall (fun b => b = true) l.
Proof.
  induction l as [|b l IH]; [constructor|]. intros Hle.
  pose proof (bool_count_le l). unfold bool_count in *. simpl in Hle.
  destruct b; [|lia]. constructor; [done|]. apply IH. lia.
Qed.

Lemma flag_lookup (l : list bool) i b : l !! i = Some b -> RR.flag l i = b.
Proof. unfold RR.flag. by intros ->. Qed.

Lemma flag_false_lookup (l : list bool) i :
  (i < length l)%nat -> RR.flag l i = false -> l !! i = Some false.
Proof.
  intros Hi Hf. destruct (lookup_lt_is_Some_2 l i Hi) as [b Hb].
  by rewrite (flag_lookup _ _ _ Hb) in Hf; subst.
Qed.

Lemma rr_inv_remaining_nonneg st :
  rr_inv st -> Forall (fun r => 0 <= r) (RR.remaining_time st).
Proof.
  intros Hinv. apply Forall_lookup. intros i r Hr.
  destruct (lookup_lt_is_Some_2 (RR.procs st) i) as [p Hp].
  { rewrite <- (ri_len_remaining _ Hinv). by eapply lookup_lt_Some. }
  pose proof (ri_each _ Hinv i p r Hp Hr) as Hok. unfold rr_process_ok in Hok. lia.
Qed.

Lemma exec_time_bounds tq r :
  0 < tq -> 0 < r -> 0 < RR.exec_time tq r <= r /\ RR.exec_time tq r <= tq.
Proof. unfold RR.exec_time. intros. zbool; lia. Qed.

End RR_slice.

Section RR_slice_spec.

Variable n : nat.
Hypothesis n_small : Z.of_nat n < QUEUE_MAX.
Variable tq : Z.
Hypothesis tq_pos : 0 < tq.

(** The process at the front of a non-empty queue has arrived, is not
    completed and has work left. *)
Lemma rr_front_spec st :
  length (RR.procs st) = n ->
  rr_inv st ->
  RR.is_empty (RR.q st) = false ->
  exists i l q1 p r,
    RR.contents (RR.q st) = Z.of_nat i :: l
    /\ RR.dequeue (RR.q st) = (Z.of_nat i, q1)
    /\ RR.contents q1 = l
    /\ queue_inv n q1 (<[i := false]> (RR.in_ready_queue st))
    /\ (i < n)%nat
    /\ RR.procs st !! i = Some p
    /\ RR.remaining_time st !! i = Some r
    /\ 0 < r <= burst_time p
    /\ arrival_time p <= RR.time st
    /\ (r < burst_time p -> arrival_time p + (burst_time p - r) <= RR.time st)
    /\ RR.flag (RR.is_completed st) i = false
    /\ RR.flag (RR.in_ready_queue st) i = true.
Proof.
  intros Hn Hinv Hne.
  destruct (queue_inv_dequeue n (RR.q st) (RR.in_ready_queue st)
              ltac:(rewrite <- Hn; apply (ri_queue _ Hinv)) Hne)
    as (i & l & q1 & Hc & Hdq & Hi & Hflag & Hq1 & Hc1).
  destruct (lookup_lt_is_Some_2 (RR.procs st) i ltac:(lia)) as [p Hp].
  destruct (lookup_lt_is_Some_2 (RR.remaining_time st) i) as [r Hr].
  { rewrite (ri_len_remaining _ Hinv). lia. }
  pose proof (ri_each _ Hinv i p r Hp Hr) as Hok.
  unfold rr_process_ok in Hok. rewrite Hflag in Hok.
  destruct Hok as (H1 & H2 & H3 & H4 & H5 & H6 & H7 & H8).
  destruct (H7 eq_refl) as [Harr Hdone].
  assert (r <> 0).
  { intros Hz. apply H4 in Hz. congruence. }
  exists i, l, q1, p, r. split_and!; try done; lia.
Qed.

Lemma rr_run_slice_spec st :
  length (RR.procs st) = n ->
  rr_inv st ->
  RR.is_empty (RR.q st) = false ->
  exists i l p r,
    RR.contents (RR.q st) = Z.of_nat i :: l
    /\ RR.procs st !! i = Some p
    /\ RR.remaining_time st !! i = Some r
    /\ 0 < r
    /\ arrival_time p <= RR.time st
    /\ slice_never_full tq st
    /\ (RR.in_int (RR.time st + RR.exec_time tq r) = false -> RR.run_slice tq st = Fault)
    /\ (RR.in_int (RR.time st + RR.exec_time tq r) = true ->
        exists st', RR.run_slice tq st = Continue st'
                    /\ rr_inv st'
                    /\ slice_outcome tq st i l p r st').
Proof.
  intros Hn Hinv Hne.
  destruct (rr_front_spec st Hn Hinv Hne)
    as (i & l & q1 & p & r & Hc & Hdq & Hc1 & Hq1 & Hi & Hp & Hr & Hrpos & Harr & Hran
        & Hdone & Hqueued).
  exists i, l, p, r.
  destruct (exec_time_bounds tq r tq_pos ltac:(lia)) as [Hexec Hexec'].
  set (exec := RR.exec_time tq r) in *.
  set (now := RR.time st + exec).
  set (in_queue1 := <[i := false]> (RR.in_ready_queue st)).
  set (test := RR.arrives_within (RR.is_completed st) (RR.time st) now).
  assert (Hlen1 : length in_queue1 = n) by apply (qi_length _ _ _ Hq1).
  assert (Hq1i : RR.flag in_queue1 i = false).
  { apply flag_insert_eq. rewrite (qi_length _ _ _ (ri_queue _ Hinv)). lia. }
  destruct (rr_enqueue_loop_spec test (arrives_within_local _ _ _) n n_small (RR.procs st) 0
              q1 in_queue1 ltac:(simpl; lia) Hq1)
    as (q2 & in_queue2 & Hloop & Hq2 & Hc2 & Hfl & Hnf).
  { intros k x _. unfold test, RR.arrives_within.
    destruct (RR.flag in_queue1 (0 + k)); [|done]. by rewrite andb_false_r. }
  assert (Hadm : forall j, j ∈ admitted test in_queue1 0 (RR.procs st)
                 <-> exists x, RR.procs st !! j = Some x
                               /\ RR.flag (RR.is_completed st) j = false
                               /\ RR.flag in_queue1 j = false
                               /\ RR.time st < arrival_time x <= now).
  { intros j. rewrite admitted_elem. unfold test, RR.arrives_within. split.
    - intros (k & x & -> & Hx & Ht). exists x. simpl in *.
      destruct (RR.flag (RR.is_completed st) k); [done|].
      destruct (RR.flag in_queue1 k); [done|]. simpl in Ht.
      split_and!; [done|done|done| |]; zbool; try done; lia.
    - intros (x & Hx & -> & -> & Hw). exists j, x. split_and!; [done|done|].
      simpl. zbool; try done; lia. }
  assert (Hq2i : RR.flag in_queue2 i = false).
  { destruct (RR.flag in_queue2 i) eqn:Hf; [|done].
    apply Hfl in Hf as [Hf|Hf]; [congruence|].
    apply Hadm in Hf as (x & Hx & _ & _ & Hw). simplify_eq. lia. }
  assert (Hother : forall j, j <> i ->
            RR.flag in_queue2 j = true
            <-> RR.flag (RR.in_ready_queue st) j = true
                \/ j ∈ admitted test in_queue1 0 (RR.procs st)).
  { intros j Hj. rewrite Hfl. unfold in_queue1. by rewrite flag_insert_ne. }
  assert (Hkeep : forall j x y, j <> i ->
            RR.procs st !! j = Some x -> RR.remaining_time st !! j = Some y ->
            rr_process_ok now (RR.flag (RR.is_completed st) j) (RR.flag in_queue2 j) x y).
  { intros j x y Hj Hx Hy.
    pose proof (ri_each _ Hinv j x y Hx Hy) as Hok.
    apply (rr_process_ok_advance (RR.time st) now _ (RR.flag (RR.in_ready_queue st) j));
      [done|lia| |].
    - intros [Hold|Hnew]%(Hother j Hj); [by left|].
      apply Hadm in Hnew as (x' & Hx' & Hd & _ & Hw). simplify_eq. right. split; [done|lia].
    - intros Hd Ha. apply (Hother j Hj).
      destruct (Z.le_gt_cases (arrival_time x) (RR.time st)) as [Hold|Hnew].
      { left. unfold rr_process_ok in Hok. by apply Hok. }
      destruct (RR.flag (RR.in_ready_queue st) j) eqn:Hqj; [by left|].
      right. apply Hadm. exists x. split_and!; [done|done| |lia|lia].
      unfold in_queue1. by rewrite flag_insert_ne. }
  assert (Hslice : slice_never_full tq st).
  { unfold slice_never_full. rewrite Hdq, Nat2Z.id, Hr. fold exec now in_queue1 test.
    split; [done|]. intros _. rewrite Hloop. simpl.
    by destruct (queue_inv_enqueue n n_small q2 in_queue2 i Hq2 Hi Hq2i) as [? _]. }
  split_and!; try done; try lia.
  - intros Hint. unfold RR.run_slice. rewrite Hdq.
    destruct (Z.ltb_spec (Z.of_nat i) 0); [lia|].
    rewrite Nat2Z.id, Hp, Hr. fold exec now. by rewrite Hint.
  - intros Hint. unfold RR.run_slice. rewrite Hdq.
    destruct (Z.ltb_spec (Z.of_nat i) 0); [lia|].
    rewrite Nat2Z.id, Hp, Hr. fold exec now. rewrite Hint. simpl negb. cbv iota.
    fold in_queue1 test. rewrite Hloop.
    pose proof (ri_time _ Hinv) as Htime.
    destruct (Z.eqb_spec (r - exec) 0) as [Hz|Hnz].
    + eexists. split; [reflexivity|]. split.
      * constructor; simpl.
        -- by rewrite !length_insert, (ri_len_remaining _ Hinv).
        -- by rewrite !length_insert, (ri_len_completed _ Hinv).
        -- by rewrite length_insert, Hn.
        -- intros j x y Hx Hy. destruct (decide (j = i)) as [->|Hj].
           ++ rewrite list_lookup_insert_eq in Hx by (by eapply lookup_lt_Some).
              rewrite list_lookup_insert_eq in Hy by (by eapply lookup_lt_Some).
              simplify_eq.
              rewrite flag_insert_eq by (rewrite (ri_len_completed _ Hinv); lia).
              rewrite Hq2i.
              pose proof (ri_each _ Hinv i p r Hp Hr) as Hok.
              unfold rr_process_ok in *. simpl. split_and!; try done; try lia.
           ++ rewrite list_lookup_insert_ne in Hx by done.
              rewrite list_lookup_insert_ne in Hy by done.
              rewrite flag_insert_ne by done. by apply Hkeep.
        -- rewrite bool_count_insert, (ri_count _ Hinv); [done|].
           apply flag_false_lookup; [|done]. rewrite (ri_len_completed _ Hinv). lia.
        -- lia.
      * unfold slice_outcome. fold exec now in_queue1 test. simpl.
        destruct (Z.eqb_spec (r - exec) 0); [|done].
        split_and!; try done. by rewrite Hc2, Hc1, app_nil_r.
    + destruct (queue_inv_enqueue n n_small q2 in_queue2 i Hq2 Hi Hq2i) as (_ & Hq3 & Hc3).
      eexists. split; [reflexivity|]. split.
      * constructor; simpl.
        -- by rewrite !length_insert, (ri_len_remaining _ Hinv).
        -- apply (ri_len_completed _ Hinv).
        -- by rewrite Hn.
        -- intros j x y Hx Hy. destruct (decide (j = i)) as [->|Hj].
           ++ rewrite list_lookup_insert_eq in Hy by (by eapply lookup_lt_Some).
              simplify_eq.
              rewrite flag_insert_eq by (rewrite (qi_length _ _ _ Hq2); lia).
              rewrite Hdone.
              pose proof (ri_each _ Hinv i p r Hp Hr) as Hok.
              unfold rr_process_ok in *. split_and!; try done; try lia.
           ++ rewrite list_lookup_insert_ne in Hy by done.
              rewrite flag_insert_ne by done. by apply Hkeep.
        -- apply (ri_count _ Hinv).
        -- lia.
      * unfold slice_outcome. fold exec now in_queue1 test. simpl.
        destruct (Z.eqb_spec (r - exec) 0); [done|].
        split_and!; try done. by rewrite Hc3, Hc2, Hc1, <- app_assoc.
Qed.

End RR_slice_spec.

(** ** The main loop of round robin on valid input *)

Section RR_valid.

Variable n : nat.
Hypothesis n_small : Z.of_nat n < QUEUE_MAX.
Variable tq : Z.
Hypothesis tq_pos : 0 < tq.
Variables latest bound : Z.
Hypothesis bound_int : bound < INT_MAX.

Lemma rr_remaining_le_burst (procs : list Process) (rem : list Z) :
  length rem = length procs ->
  (forall i p r, procs !! i = Some p -> rem !! i = Some r -> r <= burst_time p) ->
  sum_Z rem <= sum_Z (map burst_time procs).
Proof.
  revert rem. induction procs as [|p procs IH]; intros [|r rem] Hlen Hle;
    simplify_eq/=; [lia|].
  pose proof (Hle O p r eq_refl eq_refl).
  specialize (IH rem ltac:(lia) (fun i => Hle (S i))). lia.
Qed.

Lemma rr_inv_remaining_le st :
  rr_inv st -> sum_Z (RR.remaining_time st) <= sum_Z (map burst_time (RR.procs st)).
Proof.
  intros Hinv. apply rr_remaining_le_burst; [apply (ri_len_remaining _ Hinv)|].
  intros i p r Hp Hr. pose proof (ri_each _ Hinv i p r Hp Hr) as Hok.
  unfold rr_process_ok in Hok. lia.
Qed.

Lemma rr_iteration_progress st :
  length (RR.procs st) = n ->
  rr_inv st ->
  rr_bounded latest bound st ->
  RR.completed st < Z.of_nat n ->
  exists st', RR.iteration tq st = Continue st'
              /\ length (RR.procs st') = n
              /\ rr_inv st'
              /\ rr_bounded latest bound st'
              /\ (rr_measure st' < rr_measure st)%nat.
Proof.
  intros Hn Hinv (Hb1 & Hb2 & Hb3) Hlt. unfold RR.iteration.
  pose proof (rr_inv_remaining_nonneg st Hinv) as Hnn.
  pose proof (rr_inv_remaining_le st Hinv) as Hrb.
  pose proof (ri_time _ Hinv) as Htime.
  assert (Hsum : 0 <= sum_Z (RR.remaining_time st)).
  { clear -Hnn. induction Hnn; simpl; lia. }
  destruct (RR.is_empty (RR.q st)) eqn:Hempty.
  - destruct (rr_idle_spec n n_small st Hn Hinv Hempty) as [_ Hjump].
    destruct (rr_next_arrival_loop_spec (RR.is_completed st) (RR.time st) (RR.procs st)
                0 INT_MAX) as (Hmax & Hcase & Hmin).
    fold (RR.next_arrival_time st) in Hmax, Hcase, Hmin.
    assert (Hne : RR.next_arrival_time st <> INT_MAX).
    { rewrite (ri_count _ Hinv) in Hlt.
      destruct (bool_count_pending (RR.is_completed st)) as [i Hi].
      { rewrite (ri_len_completed _ Hinv), Hn. lia. }
      pose proof (lookup_lt_Some _ _ _ Hi) as Hilt.
      rewrite (ri_len_completed _ Hinv) in Hilt.
      destruct (lookup_lt_is_Some_2 (RR.procs st) i Hilt) as [p Hp].
      destruct (lookup_lt_is_Some_2 (RR.remaining_time st) i) as [r Hr].
      { by rewrite (ri_len_remaining _ Hinv). }
      pose proof (ri_each _ Hinv i p r Hp Hr) as Hok.
      rewrite (flag_lookup _ _ _ Hi), (rr_empty_flags st i Hinv Hempty) in Hok.
      pose proof (Forall_lookup_1 _ _ _ _ Hb3 Hp) as Hlate. simpl in Hlate.
      pose proof (sum_map_nonneg burst_time (RR.procs st)) as _.
      specialize (Hmin i p Hp (flag_lookup _ _ _ Hi)).
      unfold rr_process_ok in Hok.
      assert (RR.time st < arrival_time p).
      { destruct (Z.le_gt_cases (arrival_time p) (RR.time st)); [|lia].
        destruct Hok as (_ & _ & _ & _ & _ & _ & _ & Hq). by specialize (Hq eq_refl H). }
      specialize (Hmin H). lia. }
    destruct (Hjump Hne) as (st' & Hit & Hinv' & Hprocs & Hrem & Hlt' & Htime' & Hdec & _).
    exists st'. split_and!; [done|by rewrite Hprocs|done| |done].
    destruct Hcase as [?|(k & p & Hk & _ & _ & Hkarr)]; [done|].
    pose proof (Forall_lookup_1 _ _ _ _ Hb3 Hk) as Hlate. simpl in Hlate.
    unfold rr_bounded. rewrite Hprocs, Hrem, Htime'. split_and!; [lia|done|done].
  - destruct (rr_run_slice_spec n n_small tq tq_pos st Hn Hinv Hempty)
      as (i & l & p & r & Hc & Hp & Hr & Hrpos & Harr & _ & _ & Hrun).
    destruct (exec_time_bounds tq r tq_pos Hrpos) as [Hexec _].
    pose proof (sum_Z_lookup_le _ _ _ Hnn Hr) as Hrsum.
    destruct Hrun as (st' & Hit & Hinv' & Hout).
    { unfold RR.in_int. unfold INT_MAX in *. zbool; try done; lia. }
    unfold slice_outcome in Hout.
    destruct Hout as (Ht & Hrem & _ & Hprocs & _ & _).
    assert (Hlen : length (RR.procs st') = n).
    { rewrite Hprocs. destruct (_ =? _); [by rewrite length_insert|done]. }
    assert (Hburst : sum_Z (map burst_time (RR.procs st')) = sum_Z (map burst_time (RR.procs st))).
    { rewrite Hprocs. destruct (_ =? _); [|done].
      rewrite (sum_map_insert _ _ _ _ _ Hp). simpl. lia. }
    assert (Hfut : sum_Z (map (rr_is_future (RR.time st')) (RR.procs st'))
                   <= sum_Z (map (rr_is_future (RR.time st)) (RR.procs st))).
    { etrans; [|apply (rr_future_sum_le (RR.time st) (RR.time st')); lia].
      rewrite Hprocs. destruct (_ =? _); [|done].
      rewrite (sum_map_insert _ _ _ _ _ Hp). unfold rr_is_future. simpl. lia. }
    pose proof (rr_future_sum_nonneg (RR.time st') (RR.procs st')).
    assert (Hsum' : sum_Z (RR.remaining_time st')
                    = sum_Z (RR.remaining_time st) - RR.exec_time tq r).
    { rewrite Hrem, (sum_Z_insert _ _ _ _ Hr). lia. }
    exists st'. split_and!; [done|done|done| |].
    + unfold rr_bounded. rewrite Hburst, Hsum', Ht. split_and!; [lia|done|].
      rewrite Hprocs. destruct (_ =? _); [|done].
      apply Forall_insert; [done|]. simpl.
      exact (Forall_lookup_1 _ _ _ _ Hb3 Hp).
    + unfold rr_measure. rewrite Hsum'. lia.
Qed.

Lemma rr_loop_complete fuel st :
  length (RR.procs st) = n ->
  rr_inv st ->
  rr_bounded latest bound st ->
  (rr_measure st < fuel)%nat ->
  exists st', RR.loop fuel tq (Z.of_nat n) st = Finished LoopCondition st'
              /\ length (RR.procs st') = n
              /\ rr_inv st'
              /\ Z.of_nat n <= RR.completed st'.
Proof.
  revert st. induction fuel as [|fuel IH]; intros st Hn Hinv Hb Hm; [lia|]. simpl.
  destruct (Z.ltb_spec (RR.completed st) (Z.of_nat n)) as [Hlt|Hge].
  - destruct (rr_iteration_progress st Hn Hinv Hb Hlt) as (st1 & Hit & Hn1 & Hinv1 & Hb1 & Hdec).
    rewrite Hit. apply IH; [done|done|done|lia].
  - by exists st.
Qed.

(** Once the counter has reached [n], every record carries a completion
    time that is not before arrival plus burst. *)
Lemma rr_inv_all_finished st :
  length (RR.procs st) = n ->
  rr_inv st ->
  Z.of_nat n <= RR.completed st ->
  RR.completed st = Z.of_nat n /\ Forall completes_in_time (RR.procs st).
Proof.
  intros Hn Hinv Hge. pose proof (bool_count_le (RR.is_completed st)) as Hle.
  rewrite (ri_len_completed _ Hinv), Hn in Hle.
  rewrite (ri_count _ Hinv) in Hge |- *. split; [lia|].
  pose proof (bool_count_all (RR.is_completed st)) as Hall.
  rewrite (ri_len_completed _ Hinv), Hn in Hall. specialize (Hall Hge).
  apply Forall_lookup. intros i p Hp.
  pose proof (lookup_lt_Some _ _ _ Hp) as Hi.
  destruct (lookup_lt_is_Some_2 (RR.remaining_time st) i) as [r Hr].
  { by rewrite (ri_len_remaining _ Hinv). }
  destruct (lookup_lt_is_Some_2 (RR.is_completed st) i) as [b Hb].
  { by rewrite (ri_len_completed _ Hinv). }
  pose proof (Forall_lookup_1 _ _ _ _ Hall Hb) as Hbt. simpl in Hbt. subst b.
  pose proof (ri_each _ Hinv i p r Hp Hr) as Hok.
  rewrite (flag_lookup _ _ _ Hb) in Hok.
  unfold rr_process_ok, completes_in_time in *.
  destruct Hok as (_ & _ & _ & Hd & _ & Hc & _). specialize (Hc (proj1 Hd eq_refl)). lia.
Qed.

End RR_valid.

(** ** The state in which round robin enters its main loop *)

Lemma sum_map_perm {A} (f : A -> Z) (l l' : list A) :
  l ≡ₚ l' -> sum_Z (map f l) = sum_Z (map f l').
Proof. induction 1; simpl; lia. Qed.

Lemma rr_sorted_perm ps :
  bubble_sort RR.swap_needed (reset_process_states ps) ≡ₚ reset_process_states ps.
Proof. apply bubble_sort_perm. Qed.

Lemma rr_sorted_length ps :
  length (bubble_sort RR.swap_needed (reset_process_states ps)) = length ps.
Proof.
  rewrite (Permutation_length (rr_sorted_perm ps)).
  unfold reset_process_states. by rewrite length_map.
Qed.

Lemma rr_initial_procs ps :
  RR.procs (RR.initial ps) = bubble_sort RR.swap_needed (reset_process_states ps).
Proof. unfold RR.initial. by destruct (RR.enqueue_loop _ _ _ _ _). Qed.

Lemma rr_initial_spec ps :
  valid_input ps ->
  Z.of_nat (length ps) < QUEUE_MAX ->
  length (RR.procs (RR.initial ps)) = length ps
  /\ rr_inv (RR.initial ps)
  /\ rr_bounded (max_arrival ps) (horizon ps) (RR.initial ps)
  /\ (rr_measure (RR.initial ps) < RR.fuel_for ps)%nat
  /\ initial_never_full ps.
Proof.
  intros Hvalid Hsmall.
  pose proof (rr_sorted_perm ps) as Hperm. pose proof (rr_sorted_length ps) as Hlen.
  unfold RR.initial, initial_never_full.
  set (sorted := bubble_sort RR.swap_needed (reset_process_states ps)) in *.
  assert (Hreset : Forall (fun p => valid_process p /\ arrival_time p <= max_arrival ps)
                          (reset_process_states ps)).
  { unfold reset_process_states. apply Forall_fmap.
    destruct (max_arrival_ge ps) as [_ Hmax].
    apply Forall_lookup. intros i p Hp.
    pose proof (Forall_lookup_1 _ _ _ _ Hvalid Hp) as Hv.
    pose proof (Forall_lookup_1 _ _ _ _ Hmax Hp) as Hm. done. }
  assert (Hsorted : Forall (fun p => valid_process p /\ arrival_time p <= max_arrival ps) sorted).
  { by rewrite Hperm. }
  assert (Hburst : sum_Z (map burst_time sorted) = total_burst ps).
  { rewrite (sum_map_perm _ _ _ Hperm). unfold reset_process_states, total_burst.
    by rewrite map_map. }
  assert (Hq0 : queue_inv (length ps)
                  (RR.init_queue (RR.mkQueue (replicate (Z.to_nat QUEUE_MAX) 0) 0 0))
                  (replicate (length sorted) false)).
  { constructor.
    - apply queue_init_wf. by rewrite length_replicate.
    - rewrite queue_contents_empty by done. constructor.
    - by rewrite length_replicate.
    - intros x. rewrite queue_contents_empty by done. split; [by intros ?%elem_of_nil|].
      intros (i & _ & Hi). by rewrite flag_replicate in Hi. }
  destruct (rr_enqueue_loop_spec RR.arrives_at_zero arrives_at_zero_local (length ps) Hsmall
              sorted 0 _ _ ltac:(simpl; lia) Hq0)
    as (q0 & in_queue0 & Hloop & Hqinv & Hc & Hfl & Hnf).
  { intros k p _ _. apply flag_replicate. }
  rewrite Hloop. simpl.
  pose proof (max_arrival_ge ps) as [Hm0 _].
  assert (Htb : 0 <= total_burst ps).
  { unfold total_burst. rewrite <- (sum_map_zero (fun _ => 0) ps) by (by apply Forall_forall).
    apply sum_map_le. eapply Forall_impl; [exact Hvalid|]. unfold valid_process. simpl. lia. }
  split_and!; [done| | | |done].
  - constructor; simpl.
    + by rewrite length_map.
    + by rewrite length_replicate.
    + by rewrite Hlen.
    + intros i p r Hp Hr.
      change ((burst_time <$> sorted) !! i = Some r) in Hr.
      rewrite list_lookup_fmap, Hp in Hr. simplify_eq/=.
      pose proof (Forall_lookup_1 _ _ _ _ Hsorted Hp) as [[Ha Hb] _].
      rewrite flag_replicate.
      unfold rr_process_ok. split_and!; try done; try lia.
      * intros [Hold|Hadm]%Hfl; [by rewrite flag_replicate in Hold|].
        apply admitted_elem in Hadm as (k & x & -> & Hx & Ht).
        rewrite Nat.add_0_l in *. assert (x = p) as -> by congruence.
        unfold RR.arrives_at_zero in Ht. split; [|done]. zbool; [lia|done].
      * intros _ Harr. apply Hfl. right. apply admitted_elem. exists i, p.
        split_and!; [done|done|]. unfold RR.arrives_at_zero. zbool; [done|lia].
    + unfold bool_count. symmetry. apply sum_map_zero, Forall_forall.
      by intros b ->%elem_of_replicate_inv.
    + done.
  - unfold rr_bounded, horizon. simpl. rewrite Hburst. split_and!; [lia|lia|].
    eapply Forall_impl; [exact Hsorted|]. by intros p [_ ?].
  - unfold rr_measure, RR.fuel_for. simpl. rewrite Hburst.
    assert (Hfut : sum_Z (map (rr_is_future 0) sorted) <= Z.of_nat (length ps)).
    { rewrite <- Hlen. clear. induction sorted as [|p l IH]; simpl; [lia|].
      unfold rr_is_future at 1. zbool; lia. }
    pose proof (rr_future_sum_nonneg 0 sorted).
    assert (Hmax : total_burst ps = sum_Z (map (fun p => Z.max 0 (burst_time p)) ps)).
    { unfold total_burst. apply sum_map_ext. eapply Forall_impl; [exact Hvalid|].
      unfold valid_process. simpl. lia. }
    rewrite <- Hmax. lia.
Qed.

Lemma rr_run_complete tq ps :
  0 < tq ->
  valid_input ps ->
  Z.of_nat (length ps) < QUEUE_MAX ->
  horizon ps < INT_MAX ->
  exists st, RR.run tq ps = Finished LoopCondition st
             /\ RR.completed st = Z.of_nat (length ps)
             /\ length (RR.procs st) = length ps
             /\ Forall completes_in_time (RR.procs st).
Proof.
  intros Htq Hvalid Hsmall Hbound.
  destruct (rr_initial_spec ps Hvalid Hsmall) as (Hlen & Hinv & Hb & Hm & _).
  unfold RR.run.
  destruct (rr_loop_complete (length ps) Hsmall tq Htq _ _ Hbound (RR.fuel_for ps)
              (RR.initial ps) Hlen Hinv Hb Hm) as (st & Hloop & Hlen' & Hinv' & Hdone).
  destruct (rr_inv_all_finished (length ps) st Hlen' Hinv' Hdone) as [Hc Hall].
  by exists st.
Qed.

(** ** Round robin: what every reachable state satisfies *)

Lemma rr_reachable_inv tq ps st :
  0 < tq ->
  valid_input ps ->
  Z.of_nat (length ps) < QUEUE_MAX ->
  RR.reachable tq ps st ->
  length (RR.procs st) = length ps /\ rr_inv st.
Proof.
  intros Htq Hvalid Hsmall Hreach. induction Hreach as [|st st' _ [Hn Hinv] _ Hit].
  - by destruct (rr_initial_spec ps Hvalid Hsmall) as (? & ? & _).
  - unfold RR.iteration in Hit. destruct (RR.is_empty (RR.q st)) eqn:Hempty.
    + destruct (rr_idle_spec (length ps) Hsmall st Hn Hinv Hempty) as [Hbreak Hjump].
      destruct (decide (RR.next_arrival_time st = INT_MAX)) as [Heq|Hne].
      { rewrite (Hbreak Heq) in Hit. done. }
      destruct (Hjump Hne) as (st1 & Hit1 & Hinv1 & Hprocs & _).
      rewrite Hit1 in Hit. simplify_eq. by rewrite Hprocs.
    + destruct (rr_run_slice_spec (length ps) Hsmall tq Htq st Hn Hinv Hempty)
        as (i & l & p & r & _ & _ & _ & _ & _ & _ & Hfault & Hrun).
      destruct (RR.in_int (RR.time st + RR.exec_time tq r)) eqn:Hint.
      * destruct (Hrun eq_refl) as (st1 & Hit1 & Hinv1 & Hout).
        rewrite Hit1 in Hit. simplify_eq. split; [|done].
        destruct Hout as (_ & _ & _ & -> & _). destruct (_ =? _); [|done].
        by rewrite length_insert.
      * rewrite (Hfault eq_refl) in Hit. done.
Qed.

(** Round robin changes the array only by sorting it and by writing
    completion times. *)
Lemma rr_iteration_static tq st st' :
  RR.iteration tq st = Continue st' ->
  map static_fields (RR.procs st') = map static_fields (RR.procs st).
Proof.
  unfold RR.iteration, RR.idle, RR.run_slice.
  destruct (RR.is_empty (RR.q st)).
  - destruct (_ =? INT_MAX); [done|].
    destruct (RR.enqueue_loop _ _ _ _ _). intros ?; by simplify_eq.
  - destruct (RR.dequeue (RR.q st)) as [idx q1].
    destruct (idx <? 0); [done|].
    destruct (RR.procs st !! Z.to_nat idx) as [p|] eqn:Hp; [|done].
    destruct (RR.remaining_time st !! Z.to_nat idx) as [r|]; [|done].
    destruct (negb _); [done|].
    destruct (RR.enqueue_loop _ _ _ _ _).
    destruct (_ =? 0); intros ?; simplify_eq; [|done].
    simpl. by eapply static_fields_insert.
Qed.

Lemma rr_iteration_break tq st st' : RR.iteration tq st = Break st' -> st' = st.
Proof.
  unfold RR.iteration, RR.idle, RR.run_slice. intros Hit.
  repeat case_match; by simplify_eq.
Qed.

Lemma rr_loop_static fuel tq n st how st' :
  RR.loop fuel tq n st = Finished how st' ->
  map static_fields (RR.procs st') = map static_fields (RR.procs st).
Proof.
  revert st. induction fuel as [|fuel IH]; intros st; simpl.
  - destruct (RR.completed st <? n); intros; by simplify_eq.
  - destruct (RR.completed st <? n); [|intros; by simplify_eq].
    destruct (RR.iteration tq st) as [st1|st1|] eqn:Hit; [| |done].
    + intros Hl. rewrite (IH _ Hl). by eapply rr_iteration_static.
    + intros ?. simplify_eq. by rewrite (rr_iteration_break _ _ _ Hit).
Qed.

Lemma reset_static ps : map static_fields (reset_process_states ps) = map static_fields ps.
Proof. unfold reset_process_states. rewrite map_map. by apply map_ext. Qed.

Lemma rr_run_static tq ps how st :
  RR.run tq ps = Finished how st ->
  map static_fields (RR.procs st) ≡ₚ map static_fields ps.
Proof.
  unfold RR.run. intros Hloop. rewrite (rr_loop_static _ _ _ _ _ _ Hloop), rr_initial_procs.
  etrans; [apply Permutation_map, rr_sorted_perm|]. by rewrite reset_static.
Qed.

(** ** Engines and the fields they are not asked to change *)

Lemma srt_engine_static ps how ps' :
  SRT.shortest_remaining_time_first_on ps = Finished how ps' ->
  map static_fields ps' = map static_fields ps.
Proof.
  unfold SRT.shortest_remaining_time_first_on, SRT.run.
  destruct (SRT.loop _ _ _) as [how' st| |] eqn:Hloop; [|done..].
  intros ?; simplify_eq. by rewrite (srt_loop_static _ _ _ _ _ Hloop), initial_static.
Qed.

Lemma pprr_engine_static tq ps how ps' :
  PPRR.priority_preemptive_rr_on tq ps = Finished how ps' ->
  map static_fields ps' = map static_fields ps.
Proof.
  unfold PPRR.priority_preemptive_rr_on, PPRR.run.
  destruct (PPRR.loop _ _ _ _) as [how' st| |] eqn:Hloop; [|done..].
  intros ?; simplify_eq. by rewrite (pprr_loop_static _ _ _ _ _ _ Hloop), initial_static.
Qed.

Lemma rr_engine_static tq ps how ps' :
  RR.round_robin_on tq ps = Finished how ps' ->
  map static_fields ps' ≡ₚ map static_fields ps.
Proof.
  unfold RR.round_robin_on.
  destruct (RR.run tq ps) as [how' st| |] eqn:Hrun; [|done..].
  intros ?; simplify_eq. by eapply rr_run_static.
Qed.

Lemma on_context_static (R : relation (list (Z * Z * Z * Z))) engine ctx :
  (forall l1 l2 k, R l1 l2 -> R (l1 ++ k) (l2 ++ k)) ->
  (forall ps how ps', engine ps = Finished how ps' ->
                      R (map static_fields ps') (map static_fields ps)) ->
  match on_context engine ctx with
  | Finished _ ctx' =>
      R (map static_fields (processes ctx')) (map static_fields (processes ctx))
      /\ num_processes ctx' = num_processes ctx
      /\ time_quantum ctx' = time_quantum ctx
  | _ => True
  end.
Proof.
  intros Happ Hengine. unfold on_context.
  destruct (_ <? _)%nat; [done|].
  destruct (engine _) as [how ps'| |] eqn:He; [|done..]. simpl.
  split; [|done]. rewrite map_app.
  rewrite <- (take_drop (Z.to_nat (num_processes ctx)) (processes ctx)) at 2.
  rewrite map_app. apply Happ. by eapply Hengine.
Qed.

(** C9.  Whenever [shortest_remaining_time_first] or
    [priority_preemptive_rr] returns, the processes array holds, position by
    position, records with the [pid], [arrival_time], [burst_time] and
    [priority] it held before (only [remaining_time] and [completion_time]
    may differ), and [num_processes] and [time_quantum] are as before.
    [round_robin] keeps the same records up to a permutation, and does
    reorder: given P2 (arrival 1) before P1 (arrival 0) it returns P1 first. *)
Theorem scanning_engines_keep_order_and_static_fields ctx :
  match SRT.shortest_remaining_time_first ctx with
  | Finished _ ctx' =>
      map static_fields (processes ctx') = map static_fields (processes ctx)
      /\ num_processes ctx' = num_processes ctx
      /\ time_quantum ctx' = time_quantum ctx
  | _ => True
  end
  /\ match PPRR.priority_preemptive_rr ctx with
     | Finished _ ctx' =>
         map static_fields (processes ctx') = map static_fields (processes ctx)
         /\ num_processes ctx' = num_processes ctx
         /\ time_quantum ctx' = time_quantum ctx
     | _ => True
     end
  /\ (forall tq,
        match RR.round_robin ctx tq with
        | Finished _ ctx' =>
            map static_fields (processes ctx') ≡ₚ map static_fields (processes ctx)
            /\ num_processes ctx' = num_processes ctx
            /\ time_quantum ctx' = time_quantum ctx
        | _ => True
        end)
  /\ RR.round_robin (mkContext [mkProcess 2 1 3 0 0 0; mkProcess 1 0 5 0 0 0] 2 2) 2
     = Finished LoopCondition
         (mkContext [mkProcess 1 0 5 0 5 8; mkProcess 2 1 3 0 3 7] 2 2).
Proof.
  split_and!.
  - apply (on_context_static eq); [by intros l1 l2 k ->|]. apply srt_engine_static.
  - apply (on_context_static eq); [by intros l1 l2 k ->|]. apply pprr_engine_static.
  - intros tq. unfold RR.round_robin.
    destruct (_ || _); [done|].
    apply (on_context_static (≡ₚ)); [by intros l1 l2 k ->|]. apply rr_engine_static.
  - vm_compute. reflexivity.
Qed.

(** C7.  Called with [time_quantum <= 0] or [num_processes <= 0],
    [round_robin] returns at once: the context it hands back is the context
    it was given, with no process state reset and no completion time
    written, and nothing else is produced. *)
Theorem rr_invalid_configuration_is_no_op ctx tq :
  tq <= 0 \/ num_processes ctx <= 0 ->
  RR.round_robin ctx tq = Finished EarlyReturn ctx.
Proof.
  intros H. unfold RR.round_robin.
  destruct (Z.leb_spec tq 0); [done|].
  destruct (Z.leb_spec (num_processes ctx) 0); [done|lia].
Qed.

Lemma rr_invalid_configuration_is_no_op_witness :
  (0 <= 0 \/ num_processes (mkContext [mkProcess 1 0 5 0 3 9] 1 0) <= 0)
  /\ RR.round_robin (mkContext [mkProcess 1 0 5 0 3 9] 1 0) 0
     = Finished EarlyReturn (mkContext [mkProcess 1 0 5 0 3 9] 1 0).
Proof.
  split; [left; lia|].
  apply (rr_invalid_configuration_is_no_op (mkContext [mkProcess 1 0 5 0 3 9] 1 0) 0).
  left. lia.
Defined.


(** ** Completion times *)

Lemma finished_completes_in_time (l : list Process) :
  Forall finished_process l -> Forall completes_in_time l.
Proof.
  intros H. eapply Forall_impl; [exact H|].
  unfold finished_process, completes_in_time. intros p (_ & _ & Hp). exact Hp.
Qed.

(** C6 (amended).  On a valid input (each process with [arrival_time >= 0]
    and [burst_time > 0]) whose latest arrival plus total burst stays below
    [INT_MAX], each engine runs until every process is completed (SRT;
    priority-preemptive with RR, priorities being [int]s; RR with a positive
    quantum and fewer than [QUEUE_MAX] processes), returns the processes it
    was given, and every process's final completion time is at least its
    arrival time plus its burst time. *)
Theorem engines_complete_no_earlier_than_arrival_plus_burst ps tq :
  valid_input ps ->
  horizon ps < INT_MAX ->
  (exists ps', SRT.shortest_remaining_time_first_on ps = Finished LoopCondition ps'
               /\ map static_fields ps' = map static_fields ps
               /\ Forall completes_in_time ps')
  /\ (Forall (fun p => priority p <= INT_MAX) ps ->
      exists ps', PPRR.priority_preemptive_rr_on tq ps = Finished LoopCondition ps'
                  /\ map static_fields ps' = map static_fields ps
                  /\ Forall completes_in_time ps')
  /\ (0 < tq -> Z.of_nat (length ps) < QUEUE_MAX ->
      exists ps', RR.round_robin_on tq ps = Finished LoopCondition ps'
                  /\ map static_fields ps' ≡ₚ map static_fields ps
                  /\ Forall completes_in_time ps').
Proof.
  intros Hvalid Hbound. split_and!.
  - destruct (srt_run_complete ps Hvalid Hbound) as (st & Hrun & _ & _ & Hall).
    exists (cs_processes st).
    assert (He : SRT.shortest_remaining_time_first_on ps
                 = Finished LoopCondition (cs_processes st)).
    { unfold SRT.shortest_remaining_time_first_on. by rewrite Hrun. }
    split_and!; [done| |by apply finished_completes_in_time].
    by eapply srt_engine_static.
  - intros Hprio.
    destruct (pprr_run_complete tq ps Hvalid Hbound Hprio) as (st & Hrun & _ & _ & Hall).
    exists (cs_processes st).
    assert (He : PPRR.priority_preemptive_rr_on tq ps
                 = Finished LoopCondition (cs_processes st)).
    { unfold PPRR.priority_preemptive_rr_on. by rewrite Hrun. }
    split_and!; [done| |by apply finished_completes_in_time].
    by eapply pprr_engine_static.
  - intros Htq Hsmall.
    destruct (rr_run_complete tq ps Htq Hvalid Hsmall Hbound) as (st & Hrun & _ & _ & Hall).
    exists (RR.procs st).
    assert (He : RR.round_robin_on tq ps = Finished LoopCondition (RR.procs st)).
    { unfold RR.round_robin_on. by rewrite Hrun. }
    split_and!; [done| |done].
    by eapply rr_engine_static.
Qed.

Lemma engines_complete_no_earlier_than_arrival_plus_burst_witness :
  valid_input [mkProcess 1 0 6 3 0 0; mkProcess 2 2 3 1 0 0]
  /\ horizon [mkProcess 1 0 6 3 0 0; mkProcess 2 2 3 1 0 0] < INT_MAX
  /\ Forall (fun p => priority p <= INT_MAX) [mkProcess 1 0 6 3 0 0; mkProcess 2 2 3 1 0 0]
  /\ 0 < 2
  /\ Z.of_nat (length [mkProcess 1 0 6 3 0 0; mkProcess 2 2 3 1 0 0]) < QUEUE_MAX
  /\ (exists ps', SRT.shortest_remaining_time_first_on
                    [mkProcess 1 0 6 3 0 0; mkProcess 2 2 3 1 0 0]
                  = Finished LoopCondition ps'
                  /\ Forall completes_in_time ps')
  /\ (exists ps', PPRR.priority_preemptive_rr_on 2
                    [mkProcess 1 0 6 3 0 0; mkProcess 2 2 3 1 0 0]
                  = Finished LoopCondition ps'
                  /\ Forall completes_in_time ps')
  /\ (exists ps', RR.round_robin_on 2 [mkProcess 1 0 6 3 0 0; mkProcess 2 2 3 1 0 0]
                  = Finished LoopCondition ps'
                  /\ Forall completes_in_time ps').
Proof.
  assert (Hv : valid_input [mkProcess 1 0 6 3 0 0; mkProcess 2 2 3 1 0 0]) by prove_valid.
  assert (Hh : horizon [mkProcess 1 0 6 3 0 0; mkProcess 2 2 3 1 0 0] < INT_MAX)
    by reflexivity.
  assert (Hp : Forall (fun p => priority p <= INT_MAX)
                      [mkProcess 1 0 6 3 0 0; mkProcess 2 2 3 1 0 0]).
  { repeat first [apply List.Forall_nil | apply List.Forall_cons; [unfold INT_MAX; simpl; lia|]]. }
  assert (Hq : 0 < 2) by lia.
  assert (Hn : Z.of_nat (length [mkProcess 1 0 6 3 0 0; mkProcess 2 2 3 1 0 0]) < QUEUE_MAX)
    by reflexivity.
  destruct (engines_complete_no_earlier_than_arrival_plus_burst
              [mkProcess 1 0 6 3 0 0; mkProcess 2 2 3 1 0 0] 2 Hv Hh) as (H1 & H2 & H3).
  split; [exact Hv|]. split; [exact Hh|]. split; [exact Hp|]. split; [exact Hq|].
  split; [exact Hn|].
  split; [|split].
  - destruct H1 as (ps' & He & _ & Hc). exists ps'. split; [exact He|exact Hc].
  - destruct (H2 Hp) as (ps' & He & _ & Hc). exists ps'. split; [exact He|exact Hc].
  - destruct (H3 Hq Hn) as (ps' & He & _ & Hc). exists ps'. split; [exact He|exact Hc].
Defined.

(** C6 as stated fails: a single process with [burst_time = 1] that arrives
    at [INT_MAX] is a valid input, yet each of the three engines leaves its
    loop through the defensive break without running it, so its
    [completion_time] keeps the cleared value, which is below
    [arrival_time + burst_time]. *)
Lemma completion_unset_on_valid_input :
  valid_input [mkProcess 1 INT_MAX 1 0 0 0]
  /\ SRT.shortest_remaining_time_first_on [mkProcess 1 INT_MAX 1 0 0 0]
     = Finished DefensiveBreak [mkProcess 1 INT_MAX 1 0 1 COMPLETION_UNSET]
  /\ PPRR.priority_preemptive_rr_on 2 [mkProcess 1 INT_MAX 1 0 0 0]
     = Finished DefensiveBreak [mkProcess 1 INT_MAX 1 0 1 COMPLETION_UNSET]
  /\ RR.round_robin_on 2 [mkProcess 1 INT_MAX 1 0 0 0]
     = Finished DefensiveBreak [mkProcess 1 INT_MAX 1 0 1 COMPLETION_UNSET]
  /\ ~ completes_in_time (mkProcess 1 INT_MAX 1 0 1 COMPLETION_UNSET).
Proof.
  split; [prove_valid|].
  split; [vm_compute; reflexivity|].
  split; [vm_compute; reflexivity|].
  split; [vm_compute; reflexivity|].
  unfold completes_in_time, COMPLETION_UNSET, INT_MAX. simpl. lia.
Qed.

(** ** Round robin: the slice and the queue *)


(** C8.  In every state the main loop of [round_robin] reaches, on a valid
    input with a positive quantum and fewer than [QUEUE_MAX] processes:
    [in_ready_queue[i]] is true exactly when index [i] is stored in the
    ready queue; no index occurs twice; every entry is a process index; the
    queue holds at most [num_processes] entries; and none of the calls of
    [enqueue], before the loop or in the next iteration, takes the branch
    that drops the element because the queue is full. *)
Theorem rr_queue_matches_flags_and_never_overflows tq ps st :
  0 < tq ->
  valid_input ps ->
  Z.of_nat (length ps) < QUEUE_MAX ->
  RR.reachable tq ps st ->
  (forall i, (i < length ps)%nat ->
             RR.flag (RR.in_ready_queue st) i = true
             <-> Z.of_nat i ∈ RR.contents (RR.q st))
  /\ NoDup (RR.contents (RR.q st))
  /\ (forall x, x ∈ RR.contents (RR.q st) -> exists i, x = Z.of_nat i /\ (i < length ps)%nat)
  /\ (length (RR.contents (RR.q st)) <= length ps)%nat
  /\ initial_never_full ps
  /\ iteration_never_full tq st.
Proof.
  intros Htq Hvalid Hsmall Hreach.
  destruct (rr_reachable_inv tq ps st Htq Hvalid Hsmall Hreach) as [Hn Hinv].
  pose proof (ri_queue _ Hinv) as Hq. rewrite Hn in Hq.
  split_and!.
  - intros i _. rewrite (qi_flags _ _ _ Hq). split.
    + intros Hf. by exists i.
    + intros (j & ->%Nat2Z.inj & Hf). done.
  - apply (qi_nodup _ _ _ Hq).
  - intros x (i & -> & Hf)%(qi_flags _ _ _ Hq). exists i. split; [done|].
    apply flag_true_lt in Hf. by rewrite (qi_length _ _ _ Hq) in Hf.
  - by apply (queue_inv_length (length ps) _ _ Hq).
  - by destruct (rr_initial_spec ps Hvalid Hsmall) as (_ & _ & _ & _ & ?).
  - unfold iteration_never_full. destruct (RR.is_empty (RR.q st)) eqn:Hempty.
    + intros Hne.
      destruct (rr_idle_spec (length ps) Hsmall st Hn Hinv Hempty) as [_ Hjump].
      destruct (Hjump Hne) as (st' & _ & _ & _ & _ & _ & _ & _ & Hnf). by apply Hnf.
    + by destruct (rr_run_slice_spec (length ps) Hsmall tq Htq st Hn Hinv Hempty)
        as (i & l & p & r & _ & _ & _ & _ & _ & ? & _).
Qed.

(** ** The priority engine, unit by unit *)

Lemma higher_priority_arrival_spec ps now hp :
  PPRR.higher_priority_arrival ps now hp = true
  <-> exists j q, ps !! j = Some q /\ arrival_time q = now
                  /\ 0 < remaining_time q /\ priority q < hp.
Proof.
  unfold PPRR.higher_priority_arrival. rewrite existsb_exists. split.
  - intros (q & Hin & Hq). apply list_elem_of_In, list_elem_of_lookup in Hin as [j Hj].
    exists j, q. zbool; done.
  - intros (j & q & Hj & H1 & H2 & H3). exists q. split.
    + apply list_elem_of_In, list_elem_of_lookup. by exists j.
    + zbool; try done; lia.
Qed.

(** ** The statements at the scenarios of the specification *)


Lemma srt_tie_break_read_in_bounds_witness :
  Forall (fun p => burst_time p < INT_MAX) srt_tie_example
  /\ SRT.reachable srt_tie_example (initial srt_tie_example)
  /\ cs_processes (initial srt_tie_example) !! 1%nat = Some (mkProcess 1 0 4 0 4 0)
  /\ SRT.select_loop (cs_processes (initial srt_tie_example))
                     (current_time (initial srt_tie_example)) 0
                     (take 1 (cs_processes (initial srt_tie_example))) (-1, INT_MAX)
     = Some (0, 4)
  /\ SRT.eligible (current_time (initial srt_tie_example)) (mkProcess 1 0 4 0 4 0) = true
  /\ remaining_time (mkProcess 1 0 4 0 4 0) = 4
  /\ 0 <= 0 < Z.of_nat (length (cs_processes (initial srt_tie_example)))
  /\ is_Some (SRT.read (cs_processes (initial srt_tie_example)) 0).
Proof.
  assert (Hb : Forall (fun p => burst_time p < INT_MAX) srt_tie_example).
  { repeat first [apply List.Forall_nil | apply List.Forall_cons; [unfold INT_MAX; simpl; lia|]]. }
  assert (Hp : cs_processes (initial srt_tie_example) !! 1%nat = Some (mkProcess 1 0 4 0 4 0))
    by reflexivity.
  assert (Hscan : SRT.select_loop (cs_processes (initial srt_tie_example))
                    (current_time (initial srt_tie_example)) 0
                    (take 1 (cs_processes (initial srt_tie_example))) (-1, INT_MAX)
                  = Some (0, 4)) by reflexivity.
  assert (He : SRT.eligible (current_time (initial srt_tie_example))
                            (mkProcess 1 0 4 0 4 0) = true) by reflexivity.
  assert (Htie : remaining_time (mkProcess 1 0 4 0 4 0) = 4) by reflexivity.
  destruct (srt_tie_break_read_in_bounds srt_tie_example (initial srt_tie_example) Hb
              (SRT.reach_initial srt_tie_example)) as [_ Hread].
  destruct (Hread 1%nat (mkProcess 1 0 4 0 4 0) 0 4 Hp Hscan He) as [_ Hin].
  destruct (Hin Htie) as [Hrange Hsome].
  split; [exact Hb|]. split; [apply SRT.reach_initial|]. split; [exact Hp|].
  split; [exact Hscan|]. split; [exact He|]. split; [exact Htie|].
  split; [exact Hrange|exact Hsome].
Defined.

Lemma rr_queue_matches_flags_and_never_overflows_witness :
  0 < 2
  /\ valid_input rr_example
  /\ Z.of_nat (length rr_example) < QUEUE_MAX
  /\ RR.reachable 2 rr_example (RR.initial rr_example)
  /\ (forall i, (i < length rr_example)%nat ->
                RR.flag (RR.in_ready_queue (RR.initial rr_example)) i = true
                <-> Z.of_nat i ∈ RR.contents (RR.q (RR.initial rr_example)))
  /\ NoDup (RR.contents (RR.q (RR.initial rr_example)))
  /\ (forall x, x ∈ RR.contents (RR.q (RR.initial rr_example)) ->
                exists i, x = Z.of_nat i /\ (i < length rr_example)%nat)
  /\ (length (RR.contents (RR.q (RR.initial rr_example))) <= length rr_example)%nat
  /\ initial_never_full rr_example
  /\ iteration_never_full 2 (RR.initial rr_example).
Proof.
  assert (Hq : 0 < 2) by lia.
  assert (Hv : valid_input rr_example) by prove_valid.
  assert (Hn : Z.of_nat (length rr_example) < QUEUE_MAX) by reflexivity.
  split; [exact Hq|]. split; [exact Hv|]. split; [exact Hn|].
  split; [apply RR.reach_initial|].
  apply (rr_queue_matches_flags_and_never_overflows 2 rr_example (RR.initial rr_example)
           Hq Hv Hn).
  apply RR.reach_initial.
Defined.


(** ** The fuel of the priority engine is enough *)

Lemma pprr_slice_measure hp idx units st st' b p :
  cs_processes st !! idx = Some p ->
  Z.of_nat units <= remaining_time p ->
  PPRR.slice hp idx units st = Some (st', b) ->
  (measure st' <= measure st)%nat /\ ((0 < units)%nat -> (measure st' < measure st)%nat).
Proof.
  revert st p. induction units as [|units IH]; intros st p Hidx Hrem; simpl.
  - intros ?; simplify_eq. lia.
  - rewrite Hidx. destruct (INT_MAX <=? current_time st); [done|].
    pose proof (run_unit_measure st idx p Hidx ltac:(lia)) as Hm.
    destruct (PPRR.higher_priority_arrival _ _ _); [intros ?; simplify_eq; lia|].
    destruct (remaining_time p - 1 =? 0); [intros ?; simplify_eq; lia|].
    destruct (run_unit_lookup st idx p Hidx) as (p' & Hps & _ & Hrem' & _).
    assert (Hidx' : cs_processes (run_unit st idx p) !! idx = Some p').
    { rewrite Hps. apply list_lookup_insert_eq. by eapply lookup_lt_Some. }
    intros Hrec. destruct (IH _ p' Hidx' ltac:(lia) Hrec) as [Hle _]. lia.
Qed.

Lemma pprr_rotation_measure tq hp n ready st st' b :
  0 < tq ->
  PPRR.rotation tq hp n ready st = Some (st', b) ->
  (measure st' <= measure st)%nat
  /\ (completed st < n ->
      (exists idx rest p, ready = idx :: rest /\ cs_processes st !! idx = Some p
                          /\ 0 < remaining_time p) ->
      (measure st' < measure st)%nat).
Proof.
  intros Htq. revert st. induction ready as [|idx ready IH]; intros st; simpl.
  - intros ?; simplify_eq. split; [lia|]. by intros _ (? & ? & ? & ? & _).
  - destruct (Z.ltb_spec (completed st) n); [|intros ?; simplify_eq; lia].
    destruct (cs_processes st !! idx) as [p|] eqn:Hidx; [|done].
    destruct (Z.leb_spec (remaining_time p) 0) as [Hz|Hpos].
    { intros Hrec. destruct (IH _ Hrec) as [Hle _]. split; [done|].
      intros _ (? & ? & q & ? & Hq & ?). simplify_eq. lia. }
    destruct (pprr_run_for_bounds tq p Htq Hpos) as [Hu0 Hu1].
    destruct (PPRR.slice hp idx _ st) as [[st1 [|]]|] eqn:Hslice; [| |done].
    + intros ?; simplify_eq.
      destruct (pprr_slice_measure _ _ _ _ _ _ _ Hidx Hu1 Hslice) as [Hle Hlt].
      specialize (Hlt Hu0). lia.
    + intros Hrec. destruct (IH _ Hrec) as [Hle _].
      destruct (pprr_slice_measure _ _ _ _ _ _ _ Hidx Hu1 Hslice) as [_ Hlt].
      specialize (Hlt Hu0). lia.
Qed.

Lemma pprr_iteration_measure tq n st st' :
  0 < tq ->
  completed st < n ->
  PPRR.iteration tq n st = Continue st' ->
  (measure st' < measure st)%nat.
Proof.
  intros Htq Hlt. unfold PPRR.iteration.
  pose proof (pprr_collect_members (current_time st) (cs_processes st)) as Hmem.
  destruct (PPRR.collect _ _) as [hp ready]. simpl in Hmem.
  destruct ready as [|idx ready].
  - destruct (Z.eqb_spec (next_arrival (cs_processes st) (current_time st)) INT_MAX) as [|Hne];
      [done|].
    intros ?; simplify_eq. unfold measure. simpl.
    pose proof (future_count_jump _ _ Hne). lia.
  - set (sorted := PPRR.sort_ready (cs_processes st) (idx :: ready)).
    assert (Hsorted : Forall (ready_member (current_time st) (cs_processes st)) sorted).
    { by apply pprr_sort_ready_members. }
    assert (Hne : sorted <> []) by (by apply pprr_sort_ready_nonempty).
    destruct (PPRR.rotation tq hp n sorted st) as [[st1 b]|] eqn:Hrot; [|done].
    intros ?; simplify_eq.
    destruct (pprr_rotation_measure _ _ _ _ _ _ _ Htq Hrot) as [_ Hdec].
    apply Hdec; [done|].
    destruct sorted as [|i rest]; [done|].
    apply Forall_cons in Hsorted as [(p & Hp & _ & Hpos) _]. by exists i, rest, p.
Qed.

(** The fuel [PPRR.run] starts with is never used up. *)
Lemma pprr_loop_fuel fuel tq n st :
  0 < tq -> (measure st < fuel)%nat -> PPRR.loop fuel tq n st <> OutOfFuel.
Proof.
  intros Htq. revert st. induction fuel as [|fuel IH]; intros st Hm; [lia|]. simpl.
  destruct (Z.ltb_spec (completed st) n) as [Hlt|]; [|done].
  destruct (PPRR.iteration tq n st) as [st'| |] eqn:Hit; [|done..].
  apply IH. pose proof (pprr_iteration_measure _ _ _ _ Htq Hlt Hit). lia.
Qed.

(** ** The other two scenarios of the specification *)

Example srt_scenario :
  SRT.shortest_remaining_time_first_on srt_example
  = Finished LoopCondition [mkProcess 1 0 8 0 0 12; mkProcess 2 1 4 0 0 5].
Proof. vm_compute. reflexivity. Qed.

Example pprr_scenario :
  PPRR.priority_preemptive_rr_on 2 pprr_example
  = Finished LoopCondition [mkProcess 1 0 6 3 0 9; mkProcess 2 2 3 1 0 5].
Proof. vm_compute. reflexivity. Qed.

(** * Further facts about the code *)

(** ** The circular queue as its callers see it *)

Lemma queue_is_empty_contents qu : RR.is_empty qu = true <-> RR.contents qu = [].
Proof.
  split; [apply queue_contents_empty|]. intros Hc.
  destruct (RR.is_empty qu) eqn:He; [done|]. by apply queue_contents_nonempty in He.
Qed.

Lemma queue_full_capacity qu :
  queue_wf qu ->
  RR.full qu = true <-> RR.occupancy qu = Z.to_nat QUEUE_MAX.
Proof.
  intros [_ Hq]. unfold RR.full, RR.occupancy, RR.is_empty, QUEUE_MAX.
  destruct Hq as [[-> ->]|[Hf Hr]]; [simpl; split; [done|lia]|].
  unfold QUEUE_MAX in *.
  destruct (Z.eqb_spec (RR.front qu) (-1)); [lia|].
  rewrite Z.rem_mod_nonneg by lia.
  remember (RR.front qu) as f. remember (RR.rear qu) as r.
  pose proof (Z.mod_pos_bound (r - f) 1000 ltac:(lia)) as Hd.
  destruct (Z.eqb_spec ((r + 1) mod 1000) f) as [Heq|Hne]; split; try done.
  - intros _. assert ((r - f) mod 1000 = 999); [|lia].
    clear Hd. Z.div_mod_to_equations. lia.
  - intros Hocc. exfalso. apply Hne.
    assert (Hm : (r - f) mod 1000 = 999) by lia.
    clear Hd Hocc. Z.div_mod_to_equations. lia.
Qed.





Lemma queue_enqueue_full qu x : RR.full qu = true -> RR.enqueue qu x = qu.
Proof. unfold RR.full, RR.enqueue. by intros ->. Qed.

(** X3.  A well-formed queue holds at most [QUEUE_MAX] entries, all
    [QUEUE_MAX] slots can be in use, and [enqueue] on a queue that holds
    [QUEUE_MAX] entries returns it unchanged: the new entry is dropped. *)
Theorem queue_enqueue_drops_when_full qu x :
  queue_wf qu ->
  (length (RR.contents qu) <= Z.to_nat QUEUE_MAX)%nat
  /\ (length (RR.contents qu) = Z.to_nat QUEUE_MAX -> RR.enqueue qu x = qu).
Proof.
  intros Hwf. rewrite queue_contents_length. split.
  - by apply queue_occupancy_bound.
  - intros Hocc. apply queue_enqueue_full. by apply queue_full_capacity.
Qed.

Lemma queue_enqueue_all_spec xs : forall qu,
  queue_wf qu ->
  queue_wf (enqueue_all qu xs)
  /\ RR.contents (enqueue_all qu xs)
     = take (Z.to_nat QUEUE_MAX) (RR.contents qu ++ xs).
Proof.
  induction xs as [|x xs IH]; intros qu Hwf.
  - simpl. split; [done|]. rewrite app_nil_r, take_ge; [done|].
    rewrite queue_contents_length. by apply queue_occupancy_bound.
  - cbn [enqueue_all fold_left]. fold (enqueue_all (RR.enqueue qu x) xs).
    pose proof (queue_occupancy_bound qu Hwf) as Hb.
    destruct (decide (RR.occupancy qu < Z.to_nat QUEUE_MAX)%nat) as [Hlt|Hge].
    + destruct (queue_enqueue_spec qu x Hwf Hlt) as (_ & Hwf' & Hc).
      destruct (IH _ Hwf') as [Hwf'' Hc'']. split; [done|].
      by rewrite Hc'', Hc, <- app_assoc.
    + assert (Hfull : RR.full qu = true) by (apply queue_full_capacity; [done|lia]).
      rewrite (queue_enqueue_full qu x Hfull).
      destruct (IH _ Hwf) as [Hwf'' Hc'']. split; [done|].
      rewrite Hc''.
      rewrite !take_app_le by (rewrite queue_contents_length; lia). done.
Qed.

(** X4.  Any number of [enqueue] calls in a row: the queue then holds its
    old entries followed by the new ones in the order of the calls, cut
    after the first [QUEUE_MAX] entries. *)
Theorem queue_enqueue_sequence_keeps_first_queue_max qu xs :
  queue_wf qu ->
  RR.contents (enqueue_all qu xs) = take (Z.to_nat QUEUE_MAX) (RR.contents qu ++ xs)
  /\ queue_wf (enqueue_all qu xs).
Proof.
  intros Hwf. destruct (queue_enqueue_all_spec xs qu Hwf) as [Hwf' Hc]. by split.
Qed.

Lemma queue_dequeue_n_spec xs : forall qu l,
  queue_wf qu ->
  RR.contents qu = xs ++ l ->
  exists qu', dequeue_n (length xs) qu = (xs, qu')
              /\ queue_wf qu'
              /\ RR.contents qu' = l.
Proof.
  induction xs as [|x xs IH]; intros qu l Hwf Hc.
  - exists qu. by split.
  - assert (Hne : RR.is_empty qu = false).
    { destruct (RR.is_empty qu) eqn:He; [|done].
      apply queue_is_empty_contents in He. rewrite He in Hc. done. }
    destruct (queue_dequeue_spec qu Hwf Hne) as (x' & l' & qu' & Hc' & Hdq & _ & Hwf' & Hl').
    rewrite Hc in Hc'. simpl in Hc'.
    assert (x' = x) as -> by congruence.
    assert (l' = xs ++ l) as -> by congruence.
    destruct (IH qu' l Hwf' Hl') as (qu'' & Hdn & Hwf'' & Hc'').
    exists qu''. cbn [dequeue_n length]. rewrite Hdq, Hdn. by split.
Qed.

Lemma queue_dequeue_n_empty k : forall qu,
  RR.is_empty qu = true -> dequeue_n k qu = (replicate k (-1), qu).
Proof.
  induction k as [|k IH]; intros qu He; [done|].
  cbn [dequeue_n replicate]. unfold RR.dequeue. rewrite He. by rewrite (IH qu He).
Qed.

(** X5.  Round trip: at most [QUEUE_MAX] values enqueued on an empty queue
    come back from as many [dequeue] calls in the order they went in, the
    queue is empty again, and every further [dequeue] returns -1. *)
Theorem queue_round_trip qu xs k :
  queue_wf qu ->
  RR.contents qu = [] ->
  (length xs <= Z.to_nat QUEUE_MAX)%nat ->
  exists qu',
    dequeue_n (length xs) (enqueue_all qu xs) = (xs, qu')
    /\ RR.is_empty qu' = true
    /\ dequeue_n k qu' = (replicate k (-1), qu').
Proof.
  intros Hwf Hc Hlen.
  destruct (queue_enqueue_all_spec xs qu Hwf) as [Hwf' Hc'].
  rewrite Hc in Hc'. simpl in Hc'. rewrite take_ge in Hc' by done.
  destruct (queue_dequeue_n_spec xs (enqueue_all qu xs) [] Hwf') as (qu' & Hdn & _ & Hl).
  { by rewrite app_nil_r. }
  assert (He : RR.is_empty qu' = true) by by apply queue_is_empty_contents.
  exists qu'. split; [done|]. split; [done|]. by apply queue_dequeue_n_empty.
Qed.

Lemma queue_enqueue_drops_when_full_witness :
  queue_wf full_queue
  /\ length (RR.contents full_queue) = Z.to_nat QUEUE_MAX
  /\ RR.enqueue full_queue 9 = full_queue.
Proof.
  assert (Hwf : queue_wf full_queue).
  { split; [vm_compute; reflexivity|]. right.
    assert (RR.front full_queue = 0) as -> by (vm_compute; reflexivity).
    assert (RR.rear full_queue = 999) as -> by (vm_compute; reflexivity).
    unfold QUEUE_MAX. lia. }
  assert (Hlen : length (RR.contents full_queue) = Z.to_nat QUEUE_MAX)
    by (vm_compute; reflexivity).
  split; [exact Hwf|]. split; [exact Hlen|].
  exact (proj2 (queue_enqueue_drops_when_full full_queue 9 Hwf) Hlen).
Defined.

Lemma queue_enqueue_sequence_keeps_first_queue_max_witness :
  queue_wf fresh_queue
  /\ RR.contents (enqueue_all fresh_queue [3; 1; 2])
     = take (Z.to_nat QUEUE_MAX) (RR.contents fresh_queue ++ [3; 1; 2]).
Proof.
  assert (Hwf : queue_wf fresh_queue).
  { split; [vm_compute; reflexivity|]. left. split; reflexivity. }
  split; [exact Hwf|].
  exact (proj1 (queue_enqueue_sequence_keeps_first_queue_max fresh_queue [3; 1; 2] Hwf)).
Defined.

Lemma queue_round_trip_witness :
  queue_wf fresh_queue
  /\ RR.contents fresh_queue = []
  /\ (length [3; 1; 2] <= Z.to_nat QUEUE_MAX)%nat
  /\ exists qu',
       dequeue_n (length [3; 1; 2]) (enqueue_all fresh_queue [3; 1; 2]) = ([3; 1; 2], qu')
       /\ RR.is_empty qu' = true
       /\ dequeue_n 2 qu' = (replicate 2 (-1), qu').
Proof.
  assert (Hwf : queue_wf fresh_queue).
  { split; [vm_compute; reflexivity|]. left. split; reflexivity. }
  assert (Hc : RR.contents fresh_queue = []) by reflexivity.
  assert (Hlen : (length [3; 1; 2] <= Z.to_nat QUEUE_MAX)%nat) by (vm_compute; lia).
  split; [exact Hwf|]. split; [exact Hc|]. split; [exact Hlen|].
  exact (queue_round_trip fresh_queue [3; 1; 2] 2 Hwf Hc Hlen).
Defined.

(** ** What the bubble sort achieves *)

Section Bubble_sorted.

Context {A : Type} (swap : A -> A -> bool).

(** [x] may stay in front of [y]. *)
Let keeps (x y : A) : Prop := swap x y = false.

Hypothesis swap_asym : forall x y, swap x y = true -> swap y x = false.
Hypothesis keeps_trans : forall x y z, keeps x y -> keeps y z -> keeps x z.

Lemma keeps_refl x : keeps x x.
Proof.
  unfold keeps. destruct (swap x x) eqn:Hs; [|done].
  by rewrite (swap_asym x x Hs) in Hs.
Qed.

Lemma bubble_inner_cons x (l : list A) j k :
  bubble_inner swap (x :: l) (S j) k = x :: bubble_inner swap l j k.
Proof.
  revert l j. induction k as [|k IH]; intros l j; [done|].
  cbn [bubble_inner]. by rewrite exchange_cons, IH.
Qed.

Lemma bubble_inner_head a b (l : list A) k :
  bubble_inner swap (a :: b :: l) 0 (S k)
  = if swap a b then b :: bubble_inner swap (a :: l) 0 k
    else a :: bubble_inner swap (b :: l) 0 k.
Proof.
  cbn [bubble_inner]. unfold exchange. cbn.
  destruct (swap a b); by rewrite bubble_inner_cons.
Qed.

(** One pass over the unsorted front [a :: l] moves a greatest element to
    its end and leaves what follows in place. *)
Lemma bubble_inner_pass (l : list A) : forall a suf,
  exists l' m,
    bubble_inner swap (a :: l ++ suf) 0 (length l) = l' ++ m :: suf
    /\ l' ++ [m] ≡ₚ a :: l
    /\ Forall (fun x => keeps x m) (a :: l).
Proof.
  induction l as [|b l IH]; intros a suf.
  - exists [], a. split; [done|]. split; [done|]. apply Forall_singleton, keeps_refl.
  - cbn [length app]. rewrite bubble_inner_head. destruct (swap a b) eqn:Hs.
    + destruct (IH a suf) as (l' & m & Heq & Hperm & Hall).
      exists (b :: l'), m. rewrite Heq. split; [done|]. split.
      * cbn [app]. rewrite Hperm. apply Permutation_swap.
      * apply Forall_cons in Hall as [Ha Hl].
        apply Forall_cons. split; [done|]. apply Forall_cons. split; [|done].
        apply keeps_trans with a; [|done]. by apply swap_asym.
    + destruct (IH b suf) as (l' & m & Heq & Hperm & Hall).
      exists (a :: l'), m. rewrite Heq. split; [done|]. split.
      * cbn [app]. by rewrite Hperm.
      * apply Forall_cons. split; [|done].
        apply Forall_cons in Hall as [Hb _]. by apply keeps_trans with b.
Qed.

Lemma bubble_outer_sorted passes : forall (pre suf : list A),
  length pre = S passes ->
  StronglySorted keeps suf ->
  Forall (fun x => Forall (keeps x) suf) pre ->
  StronglySorted keeps (bubble_outer swap (pre ++ suf) (length suf) passes).
Proof.
  induction passes as [|passes IH]; intros pre suf Hlen Hsorted Hle.
  - destruct pre as [|a [|? ?]]; try done. cbn.
    apply SSorted_cons; [done|]. exact (Forall_inv Hle).
  - destruct pre as [|a pre]; [done|]. cbn [bubble_outer].
    replace (length ((a :: pre) ++ suf) - 1 - length suf)%nat with (length pre)
      by (rewrite length_app; cbn [length]; lia).
    destruct (bubble_inner_pass pre a suf) as (l' & m & Heq & Hperm & Hall).
    cbn [app]. rewrite Heq.
    assert (Hm : m ∈ a :: pre).
    { rewrite <- Hperm. apply elem_of_app. right. by apply list_elem_of_singleton. }
    assert (Hmsuf : Forall (keeps m) suf).
    { rewrite Forall_forall in Hle. by apply Hle. }
    change (S (length suf)) with (length (m :: suf)). apply IH.
    + apply Permutation_length in Hperm. rewrite length_app in Hperm.
      cbn [length] in *. lia.
    + by apply SSorted_cons.
    + apply Forall_forall. intros x Hx.
      assert (Hx' : x ∈ a :: pre).
      { rewrite <- Hperm. apply elem_of_app. by left. }
      apply Forall_cons. split.
      * rewrite Forall_forall in Hall. by apply Hall.
      * rewrite Forall_forall in Hle. by apply Hle.
Qed.

Lemma bubble_sort_sorted (l : list A) : StronglySorted keeps (bubble_sort swap l).
Proof.
  unfold bubble_sort. destruct l as [|a l]; [constructor|].
  replace (length (a :: l) - 1)%nat with (length l) by (cbn [length]; lia).
  pose proof (bubble_outer_sorted (length l) (a :: l) []) as H.
  rewrite app_nil_r in H. apply H; [done|constructor|].
  apply Forall_forall. intros x _. constructor.
Qed.

End Bubble_sorted.

Lemma sorted_weaken {A} (R R' : A -> A -> Prop) (l : list A) :
  (forall x y, R x y -> R' x y) ->
  StronglySorted R l -> StronglySorted R' l.
Proof.
  intros Himpl Hs. induction Hs as [|a l Hs IH Hall]; constructor; [done|].
  eapply Forall_impl; [exact Hall|]. intros y. apply Himpl.
Qed.

Lemma swap_needed_false a b : RR.swap_needed a b = false <-> arrival_pid_le a b.
Proof. unfold RR.swap_needed, arrival_pid_le. zbool; split; intros; (done || lia). Qed.

Lemma swap_needed_asym a b : RR.swap_needed a b = true -> RR.swap_needed b a = false.
Proof. unfold RR.swap_needed. zbool; intros; (done || lia). Qed.

Lemma swap_needed_trans a b c :
  RR.swap_needed a b = false -> RR.swap_needed b c = false -> RR.swap_needed a c = false.
Proof. rewrite !swap_needed_false. unfold arrival_pid_le. lia. Qed.

Lemma rr_sorted_sorted ps :
  StronglySorted arrival_pid_le (bubble_sort RR.swap_needed ps).
Proof.
  eapply sorted_weaken; [|apply bubble_sort_sorted].
  - intros a b. apply swap_needed_false.
  - apply swap_needed_asym.
  - apply swap_needed_trans.
Qed.

Lemma arrival_pid_le_static a a' b b' :
  static_fields a' = static_fields a ->
  static_fields b' = static_fields b ->
  arrival_pid_le a b -> arrival_pid_le a' b'.
Proof.
  intros (? & ? & _)%static_fields_eq (? & ? & _)%static_fields_eq.
  unfold arrival_pid_le. lia.
Qed.

Lemma arrival_pid_le_all_static a a' (l : list Process) : forall l',
  static_fields a' = static_fields a ->
  map static_fields l' = map static_fields l ->
  Forall (arrival_pid_le a) l -> Forall (arrival_pid_le a') l'.
Proof.
  induction l as [|b l IH]; intros [|b' l'] Ha Hl Hall; try done.
  pose proof (f_equal (hd (static_fields b)) Hl) as Hb.
  apply (f_equal tl) in Hl. simpl in Hb, Hl.
  apply Forall_cons in Hall as [Hab Hall]. apply Forall_cons. split.
  - by apply (arrival_pid_le_static a a' b b').
  - by apply IH.
Qed.

Lemma sorted_static (l : list Process) : forall l',
  map static_fields l' = map static_fields l ->
  StronglySorted arrival_pid_le l -> StronglySorted arrival_pid_le l'.
Proof.
  induction l as [|a l IH]; intros [|a' l'] Hst Hs; try done.
  pose proof (f_equal (hd (static_fields a)) Hst) as Ha.
  pose proof (f_equal tl Hst) as Hl. simpl in Ha, Hl.
  apply StronglySorted_inv in Hs as [Hs Hall].
  apply SSorted_cons; [by apply IH|].
  by apply (arrival_pid_le_all_static a a' l).
Qed.

Lemma rr_loop_how fuel tq n st how st' :
  RR.loop fuel tq n st = Finished how st' -> how <> EarlyReturn.
Proof.
  revert st. induction fuel as [|fuel IH]; intros st; simpl.
  - destruct (RR.completed st <? n); intros; by simplify_eq.
  - destruct (RR.completed st <? n); [|intros; by simplify_eq].
    destruct (RR.iteration tq st) as [st1|st1|]; [apply IH| |done].
    intros; by simplify_eq.
Qed.

Lemma rr_engine_sorted tq ps how ps' :
  RR.round_robin_on tq ps = Finished how ps' ->
  how <> EarlyReturn
  /\ length ps' = length ps
  /\ StronglySorted arrival_pid_le ps'.
Proof.
  unfold RR.round_robin_on, RR.run.
  destruct (RR.loop _ _ _ _) as [how' st| |] eqn:Hloop; [|done..].
  intros ?; simplify_eq.
  pose proof (rr_loop_static _ _ _ _ _ _ Hloop) as Hst.
  split; [by eapply rr_loop_how|]. split.
  - rewrite <- (length_map static_fields), Hst, length_map, rr_initial_procs.
    apply rr_sorted_length.
  - apply (sorted_static _ _ Hst). rewrite rr_initial_procs. apply rr_sorted_sorted.
Qed.

(** X6.  [round_robin] sorts its array by arrival time, ties by pid, before
    it schedules: the array is in that order when the main loop is entered,
    and whenever the function returns after scheduling, the first
    [num_processes] records of the context are in that order.  An early
    return hands the context back as it was. *)
Theorem rr_returns_array_sorted_by_arrival_then_pid ctx tq ps :
  StronglySorted arrival_pid_le (RR.procs (RR.initial ps))
  /\ match RR.round_robin ctx tq with
     | Finished EarlyReturn ctx' => ctx' = ctx
     | Finished _ ctx' =>
         StronglySorted arrival_pid_le
           (take (Z.to_nat (num_processes ctx)) (processes ctx'))
     | _ => True
     end.
Proof.
  split; [rewrite rr_initial_procs; apply rr_sorted_sorted|].
  unfold RR.round_robin. destruct (_ || _); [done|].
  unfold on_context. destruct (Nat.ltb_spec (length (processes ctx))
                                 (Z.to_nat (num_processes ctx))) as [|Hlen]; [done|].
  destruct (RR.round_robin_on _ _) as [how ps'| |] eqn:He; [|done..].
  destruct (rr_engine_sorted _ _ _ _ He) as (Hhow & Hl & Hs).
  rewrite length_take in Hl.
  assert (Htake : take (Z.to_nat (num_processes ctx))
                    (processes (set_processes ctx
                       (ps' ++ drop (Z.to_nat (num_processes ctx)) (processes ctx)))) = ps').
  { destruct ctx; simpl in *. rewrite take_app_length'; [done|lia]. }
  destruct how; [by rewrite Htake..|done].
Qed.

(** X7.  The ready group of [priority_preemptive_rr] is rotated in ascending
    pid order: the sort puts the collected indices in an order in which the
    pids they name never decrease, and keeps exactly the collected indices. *)
Theorem pprr_ready_group_sorted_by_pid ps ready :
  StronglySorted (fun idx_a idx_b => pid_at ps idx_a <= pid_at ps idx_b)
                 (PPRR.sort_ready ps ready)
  /\ PPRR.sort_ready ps ready ≡ₚ ready.
Proof.
  split; [|apply bubble_sort_perm].
  unfold PPRR.sort_ready.
  eapply sorted_weaken; [|apply bubble_sort_sorted].
  - intros a b. cbv beta. intros H. by apply Z.ltb_ge in H.
  - intros a b. rewrite Z.ltb_lt, Z.ltb_ge. lia.
  - intros a b c. rewrite !Z.ltb_ge. lia.
Qed.

(** ** The ready group is the top-priority group *)

Section PPRR_group.

Variable now : Z.

Lemma ready_group_app hp (l1 l2 : list Process) : forall i,
  ready_group now hp i (l1 ++ l2)
  = ready_group now hp i l1 ++ ready_group now hp (i + length l1) l2.
Proof.
  induction l1 as [|p l1 IH]; intros i; cbn [app ready_group length].
  - by rewrite Nat.add_0_r.
  - rewrite IH. replace (S i + length l1)%nat with (i + S (length l1))%nat by lia.
    by destruct (_ && _).
Qed.

Lemma ready_group_below hp hp' (l : list Process) : forall i,
  Forall (fun p => is_ready now p -> hp <= priority p) l ->
  hp' < hp ->
  ready_group now hp' i l = [].
Proof.
  induction l as [|p l IH]; intros i Hall Hlt; [done|].
  apply Forall_cons in Hall as [Hp Hall]. cbn [ready_group].
  rewrite (IH (S i) Hall Hlt). unfold is_ready in Hp.
  destruct (Z.leb_spec (arrival_time p) now); [|done].
  destruct (Z.ltb_spec 0 (remaining_time p)); [|done].
  destruct (Z.eqb_spec (priority p) hp'); [lia|done].
Qed.

Lemma ready_group_lt hp (l : list Process) : forall i,
  Forall (fun idx => (i <= idx < i + length l)%nat) (ready_group now hp i l).
Proof.
  induction l as [|p l IH]; intros i; cbn [ready_group length]; [constructor|].
  assert (Hrest : Forall (fun idx => (i <= idx < i + S (length l))%nat)
                         (ready_group now hp (S i) l)).
  { eapply Forall_impl; [apply IH|]. intros idx. cbv beta. lia. }
  destruct (_ && _); [|done]. constructor; [lia|done].
Qed.

Lemma ready_group_sorted hp (l : list Process) : forall i,
  StronglySorted lt (ready_group now hp i l).
Proof.
  induction l as [|p l IH]; intros i; cbn [ready_group]; [constructor|].
  destruct (_ && _); [|apply IH]. constructor; [apply IH|].
  eapply Forall_impl; [apply ready_group_lt|]. intros idx. cbv beta. lia.
Qed.

Lemma pprr_collect_loop_group (rest : list Process) : forall pre hp ready,
  ready = ready_group now hp 0 pre ->
  Forall (fun p => is_ready now p -> hp <= priority p) pre ->
  hp <= INT_MAX ->
  (ready <> [] \/ hp = INT_MAX) ->
  let acc := PPRR.collect_loop now (length pre) rest (hp, ready) in
  acc.2 = ready_group now acc.1 0 (pre ++ rest)
  /\ Forall (fun p => is_ready now p -> acc.1 <= priority p) (pre ++ rest)
  /\ acc.1 <= INT_MAX
  /\ (acc.2 <> [] \/ acc.1 = INT_MAX).
Proof.
  induction rest as [|p rest IH]; intros pre hp ready Hready Hmin Hmax Hempty.
  - cbn. by rewrite app_nil_r.
  - cbn [PPRR.collect_loop].
    replace (pre ++ p :: rest) with ((pre ++ [p]) ++ rest) by by rewrite <- app_assoc.
    replace (S (length pre)) with (length (pre ++ [p]))
      by (rewrite length_app; cbn [length]; lia).
    unfold PPRR.collect_step.
    destruct (Z.leb_spec (arrival_time p) now) as [Harr|Harr]; cbn [andb].
    2:{ apply IH; [|apply Forall_app; split; [done|]|done|done].
        - rewrite ready_group_app. cbn [ready_group].
          destruct (Z.leb_spec (arrival_time p) now); [lia|]. cbn [andb].
          by rewrite app_nil_r.
        - apply Forall_singleton. unfold is_ready. lia. }
    destruct (Z.ltb_spec 0 (remaining_time p)) as [Hrem|Hrem].
    2:{ apply IH; [|apply Forall_app; split; [done|]|done|done].
        - rewrite ready_group_app. cbn [ready_group].
          destruct (Z.ltb_spec 0 (remaining_time p)); [lia|].
          rewrite andb_false_r. cbn [andb]. by rewrite app_nil_r.
        - apply Forall_singleton. unfold is_ready. lia. }
    assert (Hgroup : forall h, ready_group now h (0 + length pre) [p]
                               = if priority p =? h then [length pre] else []).
    { intros h. cbn [ready_group].
      destruct (Z.leb_spec (arrival_time p) now); [|lia].
      destruct (Z.ltb_spec 0 (remaining_time p)); [|lia]. done. }
    destruct (Z.ltb_spec (priority p) hp) as [Hlt|Hge].
    + apply IH; [| |lia|by left].
      * rewrite ready_group_app, Hgroup, Z.eqb_refl.
        by rewrite (ready_group_below hp (priority p) pre 0 Hmin Hlt).
      * apply Forall_app. split; [|apply Forall_singleton; lia].
        eapply Forall_impl; [exact Hmin|]. intros x Hx Hr. specialize (Hx Hr). lia.
    + destruct (Z.eqb_spec (priority p) hp) as [Heq|Hne].
      * apply IH; [| |done|left; by destruct ready].
        -- rewrite ready_group_app, Hgroup, Hready.
           destruct (Z.eqb_spec (priority p) hp); [done|lia].
        -- apply Forall_app. split; [done|]. apply Forall_singleton. lia.
      * apply IH; [| |done|done].
        -- rewrite ready_group_app, Hgroup.
           destruct (Z.eqb_spec (priority p) hp); [lia|]. by rewrite app_nil_r.
        -- apply Forall_app. split; [done|]. apply Forall_singleton. lia.
Qed.

End PPRR_group.

(** X8.  The scan that builds [ready_processes] returns, as
    [highest_priority], a value no ready process undercuts, and as the
    group exactly the indices, in ascending order, of the ready processes
    that have this priority; the group is empty only if [highest_priority]
    is still [INT_MAX]. *)
Theorem pprr_collect_is_top_priority_group ps now :
  (PPRR.collect ps now).2 = ready_group now (PPRR.collect ps now).1 0 ps
  /\ Forall (fun p => is_ready now p -> (PPRR.collect ps now).1 <= priority p) ps
  /\ StronglySorted lt (PPRR.collect ps now).2
  /\ Forall (fun idx => (idx < length ps)%nat) (PPRR.collect ps now).2
  /\ ((PPRR.collect ps now).2 <> [] \/ (PPRR.collect ps now).1 = INT_MAX).
Proof.
  destruct (pprr_collect_loop_group now ps [] INT_MAX []) as (Hg & Hmin & _ & Hempty);
    [done|constructor|done|by right|].
  cbn [length app] in *. fold (PPRR.collect ps now) in *.
  split; [done|]. split; [done|]. rewrite Hg. split; [|split; [|by rewrite <- Hg]].
  - apply ready_group_sorted.
  - eapply Forall_impl; [apply ready_group_lt|]. intros idx. cbv beta. lia.
Qed.

(** ** No engine runs past the horizon *)

Lemma clock_inv_completion_le latest bound st :
  clock_inv latest bound st ->
  Forall (fun p => remaining_time p = 0 -> completion_time p <= bound) (cs_processes st).
Proof.
  intros Hinv. destruct (clock_inv_remaining_le _ _ st Hinv) as [_ Hnn].
  destruct Hinv as [Heach _ [_ Hc] _].
  eapply Forall_impl; [exact Heach|]. intros p Hok Hz. unfold process_ok in Hok. lia.
Qed.

Lemma finished_before (bound : Z) (l : list Process) :
  Forall finished_process l ->
  Forall (fun p => remaining_time p = 0 -> completion_time p <= bound) l ->
  Forall (fun p => completion_time p <= bound) l.
Proof.
  intros Hfin Hle. apply Forall_lookup. intros i p Hi.
  pose proof (Forall_lookup_1 _ _ _ _ Hfin Hi) as [Hz _].
  pose proof (Forall_lookup_1 _ _ _ _ Hle Hi) as Hp. by apply Hp.
Qed.

Lemma rr_completion_le latest bound st :
  rr_inv st ->
  rr_bounded latest bound st ->
  Z.of_nat (length (RR.procs st)) <= RR.completed st ->
  Forall (fun p => completion_time p <= bound) (RR.procs st).
Proof.
  intros Hinv (Hb & _ & _) Hge.
  pose proof (bool_count_all (RR.is_completed st)) as Hall.
  rewrite (ri_len_completed _ Hinv), <- (ri_count _ Hinv) in Hall. specialize (Hall Hge).
  assert (Hnn : 0 <= sum_Z (RR.remaining_time st)).
  { pose proof (rr_inv_remaining_nonneg st Hinv) as Hr.
    clear -Hr. induction Hr; simpl; lia. }
  apply Forall_lookup. intros i p Hp.
  pose proof (lookup_lt_Some _ _ _ Hp) as Hi.
  destruct (lookup_lt_is_Some_2 (RR.remaining_time st) i) as [r Hr].
  { by rewrite (ri_len_remaining _ Hinv). }
  destruct (lookup_lt_is_Some_2 (RR.is_completed st) i) as [b Hb'].
  { by rewrite (ri_len_completed _ Hinv). }
  pose proof (Forall_lookup_1 _ _ _ _ Hall Hb') as Hbt. simpl in Hbt. subst b.
  pose proof (ri_each _ Hinv i p r Hp Hr) as Hok.
  rewrite (flag_lookup _ _ _ Hb') in Hok.
  unfold rr_process_ok in Hok.
  destruct Hok as (_ & _ & _ & Hd & _ & Hc & _). specialize (Hc (proj1 Hd eq_refl)). lia.
Qed.

Section RR_horizon.

Variable n : nat.
Hypothesis n_small : Z.of_nat n < QUEUE_MAX.
Variable tq : Z.
Hypothesis tq_pos : 0 < tq.
Variables latest bound : Z.
Hypothesis bound_int : bound < INT_MAX.

Lemma rr_loop_bounded fuel st :
  length (RR.procs st) = n ->
  rr_inv st ->
  rr_bounded latest bound st ->
  (rr_measure st < fuel)%nat ->
  exists st', RR.loop fuel tq (Z.of_nat n) st = Finished LoopCondition st'
              /\ length (RR.procs st') = n
              /\ rr_inv st'
              /\ rr_bounded latest bound st'
              /\ Z.of_nat n <= RR.completed st'.
Proof.
  revert st. induction fuel as [|fuel IH]; intros st Hn Hinv Hb Hm; [lia|]. simpl.
  destruct (Z.ltb_spec (RR.completed st) (Z.of_nat n)) as [Hlt|Hge].
  - destruct (rr_iteration_progress n n_small tq tq_pos latest bound bound_int
                st Hn Hinv Hb Hlt) as (st1 & Hit & Hn1 & Hinv1 & Hb1 & Hdec).
    rewrite Hit. apply IH; [done|done|done|lia].
  - by exists st.
Qed.

End RR_horizon.

(** X9.  On a valid input whose latest arrival plus total burst stays below
    [INT_MAX], each engine runs to the end and no completion time it
    records lies after the latest arrival plus the total burst (priorities
    being [int]s for the priority engine; a positive quantum and fewer than
    [QUEUE_MAX] processes for round robin). *)
Theorem engines_complete_by_latest_arrival_plus_total_burst ps tq :
  valid_input ps ->
  horizon ps < INT_MAX ->
  (exists ps', SRT.shortest_remaining_time_first_on ps = Finished LoopCondition ps'
               /\ Forall (fun p => completion_time p <= horizon ps) ps')
  /\ (Forall (fun p => priority p <= INT_MAX) ps ->
      exists ps', PPRR.priority_preemptive_rr_on tq ps = Finished LoopCondition ps'
                  /\ Forall (fun p => completion_time p <= horizon ps) ps')
  /\ (0 < tq -> Z.of_nat (length ps) < QUEUE_MAX ->
      exists ps', RR.round_robin_on tq ps = Finished LoopCondition ps'
                  /\ Forall (fun p => completion_time p <= horizon ps) ps').
Proof.
  intros Hvalid Hbound. pose proof (initial_inv ps Hvalid) as Hinv. split_and!.
  - destruct (srt_loop_complete _ _ Hbound (S (measure (initial ps))) (initial ps) Hinv
                ltac:(lia)) as (st & Hloop & Hinv' & Hlen & Hdone).
    exists (cs_processes st). split.
    + unfold SRT.shortest_remaining_time_first_on, SRT.run.
      rewrite initial_length in Hloop. by rewrite Hloop.
    + rewrite <- Hlen in Hdone.
      destruct (clock_inv_all_finished _ _ st Hinv' Hdone) as [_ Hall].
      apply finished_before; [done|]. by eapply clock_inv_completion_le.
  - intros Hprio.
    assert (Hprio0 : Forall (fun p => priority p <= INT_MAX) (cs_processes (initial ps))).
    { unfold initial, reset_process_states. cbn [cs_processes]. rewrite map_map.
      apply Forall_fmap. eapply Forall_impl; [exact Hprio|]. by intros p Hp. }
    destruct (pprr_loop_complete _ _ Hbound (PPRR.effective_quantum tq)
                (S (measure (initial ps))) (initial ps) (effective_quantum_pos tq)
                Hinv Hprio0 ltac:(lia)) as (st & Hloop & Hinv' & Hlen & Hdone).
    exists (cs_processes st). split.
    + unfold PPRR.priority_preemptive_rr_on, PPRR.run.
      rewrite initial_length in Hloop. by rewrite Hloop.
    + rewrite <- Hlen in Hdone.
      destruct (clock_inv_all_finished _ _ st Hinv' Hdone) as [_ Hall].
      apply finished_before; [done|]. by eapply clock_inv_completion_le.
  - intros Htq Hsmall.
    destruct (rr_initial_spec ps Hvalid Hsmall) as (Hlen & Hrr & Hb & Hm & _).
    destruct (rr_loop_bounded (length ps) Hsmall tq Htq _ _ Hbound (RR.fuel_for ps)
                (RR.initial ps) Hlen Hrr Hb Hm) as (st & Hloop & Hlen' & Hinv' & Hb' & Hdone).
    exists (RR.procs st). split.
    + unfold RR.round_robin_on, RR.run. by rewrite Hloop.
    + apply (rr_completion_le (max_arrival ps)); [done|done|by rewrite Hlen'].
Qed.

Lemma engines_complete_by_latest_arrival_plus_total_burst_witness :
  valid_input pprr_example
  /\ horizon pprr_example < INT_MAX
  /\ Forall (fun p => priority p <= INT_MAX) pprr_example
  /\ 0 < 2
  /\ Z.of_nat (length pprr_example) < QUEUE_MAX
  /\ (exists ps', SRT.shortest_remaining_time_first_on pprr_example
                  = Finished LoopCondition ps'
                  /\ Forall (fun p => completion_time p <= horizon pprr_example) ps')
  /\ (exists ps', PPRR.priority_preemptive_rr_on 2 pprr_example = Finished LoopCondition ps'
                  /\ Forall (fun p => completion_time p <= horizon pprr_example) ps')
  /\ (exists ps', RR.round_robin_on 2 pprr_example = Finished LoopCondition ps'
                  /\ Forall (fun p => completion_time p <= horizon pprr_example) ps').
Proof.
  assert (Hvalid : valid_input pprr_example).
  { repeat constructor; unfold valid_process; simpl; lia. }
  assert (Hbound : horizon pprr_example < INT_MAX) by (vm_compute; reflexivity).
  assert (Hprio : Forall (fun p => priority p <= INT_MAX) pprr_example).
  { repeat constructor; unfold INT_MAX; simpl; lia. }
  assert (Htq : 0 < 2) by lia.
  assert (Hsmall : Z.of_nat (length pprr_example) < QUEUE_MAX) by (vm_compute; reflexivity).
  destruct (engines_complete_by_latest_arrival_plus_total_burst pprr_example 2 Hvalid Hbound)
    as (Hsrt & Hpprr & Hrr).
  split; [exact Hvalid|]. split; [exact Hbound|]. split; [exact Hprio|].
  split; [exact Htq|]. split; [exact Hsmall|].
  split; [exact Hsrt|]. split; [exact (Hpprr Hprio)|exact (Hrr Htq Hsmall)].
Defined.

(** ** Which records an iteration may touch *)

Lemma run_unit_other st idx p i :
  i <> idx -> cs_processes (run_unit st idx p) !! i = cs_processes st !! i.
Proof.
  intros Hne. unfold run_unit.
  destruct (_ =? 0); cbn [cs_processes]; by rewrite list_lookup_insert_ne.
Qed.

Lemma pprr_slice_frame hp idx units : forall st st' b i,
  PPRR.slice hp idx units st = Some (st', b) ->
  i <> idx ->
  cs_processes st' !! i = cs_processes st !! i.
Proof.
  induction units as [|units IH]; intros st st' b i; simpl.
  - intros ? _; by simplify_eq.
  - destruct (cs_processes st !! idx) as [p|] eqn:Hidx; [|done].
    destruct (INT_MAX <=? current_time st); [done|].
    destruct (PPRR.higher_priority_arrival _ _ _).
    { intros ? Hne; simplify_eq. by apply run_unit_other. }
    destruct (remaining_time p - 1 =? 0).
    { intros ? Hne; simplify_eq. by apply run_unit_other. }
    intros Hrec Hne. rewrite (IH _ _ _ _ Hrec Hne). by apply run_unit_other.
Qed.

(** A rotation leaves alone the records outside the group, and inside it
    those with no work left. *)
Lemma pprr_rotation_frame tq hp n ready : forall st st' b i,
  PPRR.rotation tq hp n ready st = Some (st', b) ->
  i ∉ ready \/ (exists p, cs_processes st !! i = Some p /\ remaining_time p <= 0) ->
  cs_processes st' !! i = cs_processes st !! i.
Proof.
  induction ready as [|idx ready IH]; intros st st' b i; simpl.
  - intros ? _; by simplify_eq.
  - destruct (completed st <? n); [|intros ? _; by simplify_eq].
    destruct (cs_processes st !! idx) as [p|] eqn:Hidx; [|done].
    destruct (Z.leb_spec (remaining_time p) 0) as [Hz|Hpos].
    { intros Hrec [Hi|Hi]; apply (IH _ _ _ _ Hrec); [left|by right].
      intros ?. apply Hi. by apply elem_of_cons; right. }
    intros Hrec Hi.
    assert (Hne : i <> idx).
    { destruct Hi as [Hi|(q & Hq & Hqz)].
      - intros ->. apply Hi. apply elem_of_cons. by left.
      - intros ->. rewrite Hidx in Hq. simplify_eq. lia. }
    destruct (PPRR.slice hp idx _ st) as [[st1 [|]]|] eqn:Hslice; [| |done].
    + simplify_eq. by eapply pprr_slice_frame.
    + pose proof (pprr_slice_frame _ _ _ _ _ _ i Hslice Hne) as Hsame.
      rewrite <- Hsame. apply (IH _ _ _ _ Hrec).
      destruct Hi as [Hi|Hi]; [left|right; by rewrite Hsame].
      intros ?. apply Hi. by apply elem_of_cons; right.
Qed.

Lemma ready_group_elem now hp (l : list Process) : forall j i,
  i ∈ ready_group now hp j l ->
  exists p, l !! (i - j)%nat = Some p /\ (j <= i)%nat
            /\ is_ready now p /\ priority p = hp.
Proof.
  induction l as [|q l IH]; intros j i; cbn [ready_group]; [by intros ?%elem_of_nil|].
  assert (Hrest : i ∈ ready_group now hp (S j) l ->
                  exists p, (q :: l) !! (i - j)%nat = Some p /\ (j <= i)%nat
                            /\ is_ready now p /\ priority p = hp).
  { intros (p & Hp & Hle & Hr)%IH. exists p.
    replace (i - j)%nat with (S (i - S j)) by lia. split; [done|]. split; [lia|done]. }
  destruct (Z.leb_spec (arrival_time q) now); [|done].
  destruct (Z.ltb_spec 0 (remaining_time q)); [|done].
  destruct (Z.eqb_spec (priority q) hp); [|done]. cbn [andb].
  intros [->|Hin]%elem_of_cons; [|by apply Hrest].
  exists q. rewrite Nat.sub_diag. by split_and!.
Qed.

(** X10.  An iteration of [priority_preemptive_rr] gives the CPU only to
    the top-priority group: a record that the iteration changes belongs to
    a process that was ready when the iteration began and whose priority
    value no ready process undercut. *)
Theorem pprr_iteration_changes_only_top_priority_records tq n st i p :
  cs_processes st !! i = Some p ->
  match PPRR.iteration tq n st with
  | Continue st' =>
      cs_processes st' !! i = Some p
      \/ (is_ready (current_time st) p
          /\ Forall (fun q => is_ready (current_time st) q -> priority p <= priority q)
                    (cs_processes st))
  | _ => True
  end.
Proof.
  intros Hp. unfold PPRR.iteration.
  destruct (pprr_collect_loop_group (current_time st) (cs_processes st) [] INT_MAX [])
    as (Hg & Hmin & _); [done|constructor|done|by right|].
  cbn [length app] in Hg, Hmin. fold (PPRR.collect (cs_processes st) (current_time st)) in *.
  destruct (PPRR.collect _ _) as [hp ready]. cbn [fst snd] in *.
  destruct ready as [|idx ready].
  { destruct (_ =? INT_MAX); [done|]. by left. }
  destruct (PPRR.rotation _ _ _ _ _) as [[st1 b]|] eqn:Hrot; [|done].
  destruct (decide (i ∈ PPRR.sort_ready (cs_processes st) (idx :: ready))) as [Hin|Hout].
  - right. unfold PPRR.sort_ready in Hin. rewrite bubble_sort_perm, Hg in Hin.
    apply ready_group_elem in Hin as (q & Hq & _ & Hr & Hprio).
    rewrite Nat.sub_0_r, Hp in Hq. simplify_eq. by split.
  - left. rewrite <- Hp. eapply pprr_rotation_frame; [exact Hrot|by left].
Qed.

Lemma pprr_iteration_changes_only_top_priority_records_witness :
  cs_processes (initial pprr_example) !! 0%nat = Some (mkProcess 1 0 6 3 6 0)
  /\ match PPRR.iteration 2 2 (initial pprr_example) with
     | Continue st' =>
         cs_processes st' !! 0%nat = Some (mkProcess 1 0 6 3 6 0)
         \/ (is_ready (current_time (initial pprr_example)) (mkProcess 1 0 6 3 6 0)
             /\ Forall (fun q => is_ready (current_time (initial pprr_example)) q ->
                                 priority (mkProcess 1 0 6 3 6 0) <= priority q)
                       (cs_processes (initial pprr_example)))
     | _ => True
     end.
Proof.
  assert (Hp : cs_processes (initial pprr_example) !! 0%nat = Some (mkProcess 1 0 6 3 6 0))
    by reflexivity.
  split; [exact Hp|].
  exact (pprr_iteration_changes_only_top_priority_records 2 2 (initial pprr_example) 0
           (mkProcess 1 0 6 3 6 0) Hp).
Defined.

Lemma srt_iteration_frame st st' i p :
  SRT.iteration st = Continue st' ->
  cs_processes st !! i = Some p -> remaining_time p <= 0 ->
  cs_processes st' !! i = Some p.
Proof.
  intros [[_ ->]|(j & q & Hj & He & _ & ->)]%srt_iteration_continue Hp Hz; [done|].
  apply srt_eligible_pos in He. rewrite <- Hp. apply run_unit_other.
  intros ->. rewrite Hj in Hp. simplify_eq. lia.
Qed.

Lemma pprr_iteration_frame tq n st st' i p :
  PPRR.iteration tq n st = Continue st' ->
  cs_processes st !! i = Some p -> remaining_time p <= 0 ->
  cs_processes st' !! i = Some p.
Proof.
  unfold PPRR.iteration. destruct (PPRR.collect _ _) as [hp [|idx ready]].
  - destruct (_ =? INT_MAX); intros ?; by simplify_eq.
  - destruct (PPRR.rotation _ _ _ _ _) as [[st1 b]|] eqn:Hrot; [|done].
    intros ? Hp Hz; simplify_eq. rewrite <- Hp.
    eapply pprr_rotation_frame; [exact Hrot|]. right. by exists p.
Qed.

(** X11.  A process with no work left is never touched again: whatever the
    main loops of [shortest_remaining_time_first] and
    [priority_preemptive_rr] go on to do, its record, with the completion
    time in it, is in the final array as it was. *)
Theorem finished_records_are_never_touched_again fuel tq n st i p :
  cs_processes st !! i = Some p ->
  remaining_time p <= 0 ->
  match SRT.loop fuel n st with
  | Finished _ st' => cs_processes st' !! i = Some p
  | _ => True
  end
  /\ match PPRR.loop fuel tq n st with
     | Finished _ st' => cs_processes st' !! i = Some p
     | _ => True
     end.
Proof.
  intros Hp Hz. split.
  - revert st Hp. induction fuel as [|fuel IH]; intros st Hp; simpl.
    + by destruct (completed st <? n).
    + destruct (completed st <? n); [|done].
      destruct (SRT.iteration st) as [st1|st1|] eqn:Hit; [| |done].
      * apply IH. by eapply srt_iteration_frame.
      * by rewrite (srt_iteration_break _ _ Hit).
  - revert st Hp. induction fuel as [|fuel IH]; intros st Hp; simpl.
    + by destruct (completed st <? n).
    + destruct (completed st <? n); [|done].
      destruct (PPRR.iteration tq n st) as [st1|st1|] eqn:Hit; [| |done].
      * apply IH. by eapply pprr_iteration_frame.
      * by rewrite (pprr_iteration_break _ _ _ _ Hit).
Qed.

Lemma finished_records_are_never_touched_again_witness :
  cs_processes half_done_example !! 0%nat = Some (mkProcess 1 0 1 0 0 1)
  /\ remaining_time (mkProcess 1 0 1 0 0 1) <= 0
  /\ SRT.loop 5 2 half_done_example
     = Finished LoopCondition (mkClock [mkProcess 1 0 1 0 0 1; mkProcess 2 0 2 0 0 3] 3 2)
  /\ match SRT.loop 5 2 half_done_example with
     | Finished _ st' => cs_processes st' !! 0%nat = Some (mkProcess 1 0 1 0 0 1)
     | _ => True
     end.
Proof.
  assert (Hp : cs_processes half_done_example !! 0%nat = Some (mkProcess 1 0 1 0 0 1))
    by reflexivity.
  assert (Hz : remaining_time (mkProcess 1 0 1 0 0 1) <= 0) by (simpl; lia).
  split; [exact Hp|]. split; [exact Hz|]. split; [vm_compute; reflexivity|].
  exact (proj1 (finished_records_are_never_touched_again 5 2 2 half_done_example 0
                  (mkProcess 1 0 1 0 0 1) Hp Hz)).
Defined.

(** ** Round robin counts down in its own array *)

Lemma remaining_field_insert (l : list Process) i p now :
  l !! i = Some p ->
  map remaining_time (<[i := set_completion_time p now]> l) = map remaining_time l.
Proof.
  intros Hi. change (remaining_time <$> <[i := set_completion_time p now]> l
                     = remaining_time <$> l).
  rewrite list_fmap_insert. apply list_insert_id. by rewrite list_lookup_fmap, Hi.
Qed.

Lemma rr_iteration_remaining_field tq st st' :
  RR.iteration tq st = Continue st' ->
  map remaining_time (RR.procs st') = map remaining_time (RR.procs st).
Proof.
  unfold RR.iteration, RR.idle, RR.run_slice.
  destruct (RR.is_empty (RR.q st)).
  - destruct (_ =? INT_MAX); [done|].
    destruct (RR.enqueue_loop _ _ _ _ _). intros ?; by simplify_eq.
  - destruct (RR.dequeue (RR.q st)) as [idx q1].
    destruct (idx <? 0); [done|].
    destruct (RR.procs st !! Z.to_nat idx) as [p|] eqn:Hp; [|done].
    destruct (RR.remaining_time st !! Z.to_nat idx) as [r|]; [|done].
    destruct (negb _); [done|].
    destruct (RR.enqueue_loop _ _ _ _ _).
    destruct (_ =? 0); intros ?; simplify_eq; [|done].
    simpl. by apply remaining_field_insert.
Qed.

Lemma rr_loop_remaining_field fuel tq n st how st' :
  RR.loop fuel tq n st = Finished how st' ->
  map remaining_time (RR.procs st') = map remaining_time (RR.procs st).
Proof.
  revert st. induction fuel as [|fuel IH]; intros st; simpl.
  - destruct (RR.completed st <? n); intros; by simplify_eq.
  - destruct (RR.completed st <? n); [|intros; by simplify_eq].
    destruct (RR.iteration tq st) as [st1|st1|] eqn:Hit; [| |done].
    + intros Hl. rewrite (IH _ Hl). by eapply rr_iteration_remaining_field.
    + intros ?. simplify_eq. by rewrite (rr_iteration_break _ _ _ Hit).
Qed.

(** X12.  [round_robin] counts the work left in its local array and never
    writes the [remaining_time] field: the main loop returns the array with
    the [remaining_time] fields it found, so that in the result of a run
    every process still has its [remaining_time] equal to its [burst_time],
    as the reset left it. *)
Theorem rr_never_writes_the_remaining_time_field tq ps :
  (forall fuel n st,
     match RR.loop fuel tq n st with
     | Finished _ st' =>
         map remaining_time (RR.procs st') = map remaining_time (RR.procs st)
     | _ => True
     end)
  /\ match RR.round_robin_on tq ps with
     | Finished _ ps' => Forall (fun p => remaining_time p = burst_time p) ps'
     | _ => True
     end.
Proof.
  split.
  - intros fuel n st. destruct (RR.loop fuel tq n st) as [how st'| |] eqn:Hloop; [|done..].
    by eapply rr_loop_remaining_field.
  - unfold RR.round_robin_on, RR.run.
    destruct (RR.loop _ _ _ _) as [how st'| |] eqn:Hloop; [|done..].
    pose proof (rr_loop_remaining_field _ _ _ _ _ _ Hloop) as Hrem.
    pose proof (rr_loop_static _ _ _ _ _ _ Hloop) as Hst.
    rewrite rr_initial_procs in Hrem, Hst.
    assert (Hreset : Forall (fun p => remaining_time p = burst_time p)
                            (bubble_sort RR.swap_needed (reset_process_states ps))).
    { rewrite rr_sorted_perm. unfold reset_process_states. by apply Forall_fmap, Forall_true. }
    apply Forall_lookup. intros i p' Hi.
    destruct (static_fields_lookup _ _ _ _ (eq_sym Hst) Hi) as (p & Hp & Heq).
    pose proof (Forall_lookup_1 _ _ _ _ Hreset Hp) as Hpb. simpl in Hpb.
    assert (Hr : remaining_time p' = remaining_time p).
    { assert (Hl : (remaining_time <$> RR.procs st') !! i = Some (remaining_time p'))
        by by rewrite list_lookup_fmap, Hi.
      change (map remaining_time (RR.procs st') !! i = Some (remaining_time p')) in Hl.
      rewrite Hrem in Hl.
      change ((remaining_time <$> bubble_sort RR.swap_needed (reset_process_states ps)) !! i
              = Some (remaining_time p')) in Hl.
      rewrite list_lookup_fmap, Hp in Hl. simpl in Hl. congruence. }
    apply static_fields_eq in Heq. lia.
Qed.

(** ** The CPU idles only when nothing is ready *)

Lemma run_unit_work st i p :
  cs_processes st !! i = Some p ->
  work_left (run_unit st i p) = work_left st - 1.
Proof.
  intros Hi. destruct (run_unit_lookup st i p Hi) as (p' & Hps & _ & Hrem & _).
  unfold work_left. rewrite Hps, (sum_map_insert _ _ _ _ _ Hi). lia.
Qed.

Lemma next_arrival_jump st :
  next_arrival (cs_processes st) (current_time st) <> INT_MAX ->
  idle_jump st (mkClock (cs_processes st)
                        (next_arrival (cs_processes st) (current_time st)) (completed st)).
Proof.
  intros Hne. unfold idle_jump. cbn [cs_processes completed current_time].
  destruct (next_arrival_found _ _ Hne) as (i & p & Hi & Hpos & Hfut & Harr).
  destruct (next_arrival_fold (current_time st) (cs_processes st) INT_MAX)
    as (Hle & _ & Hmin).
  fold (next_arrival (cs_processes st) (current_time st)) in Hle, Hmin.
  split; [done|]. split; [done|]. split; [lia|]. split.
  - apply Exists_exists. exists p. split; [by eapply list_elem_of_lookup_2|done].
  - eapply Forall_impl; [exact Hmin|]. intros q Hq H1 H2. cbv beta in Hq.
    destruct (Hq H1 H2); lia.
Qed.

(** X13.  [shortest_remaining_time_first] is work conserving.  With every
    remaining time below [INT_MAX], an iteration that goes on either found
    no process ready and moved the clock to the earliest arrival still to
    come, changing nothing else, or ran one unit of a ready process; it
    leaves the loop by [break] only when no process is ready. *)
Theorem srt_idles_only_when_nothing_is_ready st :
  Forall (fun p => remaining_time p < INT_MAX) (cs_processes st) ->
  match SRT.iteration st with
  | Continue st' =>
      (Forall (fun p => ~ is_ready (current_time st) p) (cs_processes st)
       /\ idle_jump st st')
      \/ (busy_step st st' /\ current_time st' = current_time st + 1)
  | Break st' =>
      st' = st /\ Forall (fun p => ~ is_ready (current_time st) p) (cs_processes st)
  | Fault => INT_MAX <= current_time st
  end.
Proof.
  intros Hlt. unfold SRT.iteration.
  destruct (srt_select_sound _ (current_time st) Hlt) as (acc & Hsel & Hmean).
  rewrite Hsel.
  destruct Hmean as [[-> Hnone]|(s & p & -> & Hs & He & _)].
  - assert (Hidle : Forall (fun p => ~ is_ready (current_time st) p) (cs_processes st)).
    { eapply Forall_impl; [exact Hnone|]. intros q Hq [H1 H2]. cbv beta in Hq.
      unfold SRT.eligible in Hq.
      destruct (Z.leb_spec (arrival_time q) (current_time st)); [|lia].
      destruct (Z.ltb_spec 0 (remaining_time q)); [done|lia]. }
    rewrite Z.eqb_refl.
    destruct (Z.eqb_spec (next_arrival (cs_processes st) (current_time st)) INT_MAX)
      as [|Hne]; [done|].
    left. split; [done|]. by apply next_arrival_jump.
  - destruct (Z.eqb_spec (Z.of_nat s) (-1)); [lia|].
    rewrite srt_read_of_nat, Hs.
    destruct (Z.leb_spec INT_MAX (current_time st)); [done|].
    right. rewrite Nat2Z.id. unfold busy_step. rewrite !run_unit_clock. split; [|done].
    split; [|split; [lia|]].
    + apply Exists_exists. exists p. split; [by eapply list_elem_of_lookup_2|].
      by apply srt_eligible_pos.
    + rewrite (run_unit_work _ _ _ Hs). lia.
Qed.

Lemma srt_idles_only_when_nothing_is_ready_witness :
  Forall (fun p => remaining_time p < INT_MAX) (cs_processes half_done_example)
  /\ match SRT.iteration half_done_example with
     | Continue st' =>
         (Forall (fun p => ~ is_ready (current_time half_done_example) p)
                 (cs_processes half_done_example)
          /\ idle_jump half_done_example st')
         \/ (busy_step half_done_example st'
             /\ current_time st' = current_time half_done_example + 1)
     | Break st' =>
         st' = half_done_example
         /\ Forall (fun p => ~ is_ready (current_time half_done_example) p)
                   (cs_processes half_done_example)
     | Fault => INT_MAX <= current_time half_done_example
     end.
Proof.
  assert (Hlt : Forall (fun p => remaining_time p < INT_MAX)
                       (cs_processes half_done_example)).
  { repeat constructor; unfold INT_MAX; simpl; lia. }
  split; [exact Hlt|].
  exact (srt_idles_only_when_nothing_is_ready half_done_example Hlt).
Defined.

Lemma pprr_slice_work hp idx units : forall st st' b,
  PPRR.slice hp idx units st = Some (st', b) ->
  current_time st' - current_time st = work_left st - work_left st'
  /\ current_time st <= current_time st'
  /\ ((0 < units)%nat -> current_time st < current_time st').
Proof.
  induction units as [|units IH]; intros st st' b; simpl.
  - intros ?; simplify_eq. lia.
  - destruct (cs_processes st !! idx) as [p|] eqn:Hidx; [|done].
    destruct (INT_MAX <=? current_time st); [done|].
    pose proof (run_unit_work st idx p Hidx) as Hw.
    pose proof (run_unit_clock st idx p) as Hc.
    destruct (PPRR.higher_priority_arrival _ _ _); [intros ?; simplify_eq; lia|].
    destruct (remaining_time p - 1 =? 0); [intros ?; simplify_eq; lia|].
    intros Hrec. destruct (IH _ _ _ Hrec) as (H1 & H2 & _). lia.
Qed.

Lemma pprr_rotation_work tq hp n ready : forall st st' b,
  0 < tq ->
  PPRR.rotation tq hp n ready st = Some (st', b) ->
  current_time st' - current_time st = work_left st - work_left st'
  /\ current_time st <= current_time st'
  /\ (completed st < n ->
      (exists idx rest p, ready = idx :: rest /\ cs_processes st !! idx = Some p
                          /\ 0 < remaining_time p) ->
      current_time st < current_time st').
Proof.
  induction ready as [|idx ready IH]; intros st st' b Htq; simpl.
  - intros ?; simplify_eq. split; [lia|]. split; [lia|]. by intros _ (? & ? & ? & ? & _).
  - destruct (Z.ltb_spec (completed st) n); [|intros ?; simplify_eq; lia].
    destruct (cs_processes st !! idx) as [p|] eqn:Hidx; [|done].
    destruct (Z.leb_spec (remaining_time p) 0) as [Hz|Hpos].
    { intros Hrec. destruct (IH _ _ _ Htq Hrec) as (H1 & H2 & _).
      split; [done|]. split; [done|].
      intros _ (? & ? & q & ? & Hq & ?). simplify_eq. lia. }
    destruct (pprr_run_for_bounds tq p Htq Hpos) as [Hu0 _].
    destruct (PPRR.slice hp idx _ st) as [[st1 [|]]|] eqn:Hslice; [| |done].
    + intros ?; simplify_eq.
      destruct (pprr_slice_work _ _ _ _ _ _ Hslice) as (H1 & H2 & H3).
      specialize (H3 Hu0). lia.
    + intros Hrec. destruct (IH _ _ _ Htq Hrec) as (H1 & H2 & _).
      destruct (pprr_slice_work _ _ _ _ _ _ Hslice) as (H3 & H4 & H5).
      specialize (H5 Hu0). lia.
Qed.

(** X14.  [priority_preemptive_rr] is work conserving.  With priorities
    that are [int]s, an iteration entered with [completed < n] either found
    no process ready and moved the clock to the earliest arrival still to
    come, changing nothing else, or kept the CPU busy: the clock advanced,
    by exactly the number of units of work done.  It leaves the loop by
    [break] only when no process is ready. *)
Theorem pprr_idles_only_when_nothing_is_ready tq n st :
  0 < tq ->
  completed st < n ->
  Forall (fun p => priority p <= INT_MAX) (cs_processes st) ->
  match PPRR.iteration tq n st with
  | Continue st' =>
      (Forall (fun p => ~ is_ready (current_time st) p) (cs_processes st)
       /\ idle_jump st st')
      \/ busy_step st st'
  | Break st' =>
      st' = st /\ Forall (fun p => ~ is_ready (current_time st) p) (cs_processes st)
  | Fault => True
  end.
Proof.
  intros Htq Hlt Hprio. unfold PPRR.iteration.
  pose proof (pprr_collect_members (current_time st) (cs_processes st)) as Hmem.
  pose proof (pprr_collect_empty (current_time st) (cs_processes st) Hprio) as Hemp.
  destruct (PPRR.collect _ _) as [hp ready]. simpl in Hmem, Hemp.
  destruct ready as [|idx ready].
  - specialize (Hemp eq_refl).
    destruct (Z.eqb_spec (next_arrival (cs_processes st) (current_time st)) INT_MAX)
      as [|Hne]; [done|].
    left. split; [done|]. by apply next_arrival_jump.
  - set (sorted := PPRR.sort_ready (cs_processes st) (idx :: ready)).
    assert (Hsorted : Forall (ready_member (current_time st) (cs_processes st)) sorted).
    { by apply pprr_sort_ready_members. }
    assert (Hne : sorted <> []) by (by apply pprr_sort_ready_nonempty).
    destruct (PPRR.rotation tq hp n sorted st) as [[st1 b]|] eqn:Hrot; [|done].
    destruct (pprr_rotation_work _ _ _ _ _ _ _ Htq Hrot) as (Hwork & _ & Hadv).
    destruct sorted as [|i rest]; [done|].
    apply Forall_cons in Hsorted as [(p & Hp & Harr & Hpos) _].
    right. split; [|split; [|done]].
    + apply Exists_exists. exists p. split; [by eapply list_elem_of_lookup_2|done].
    + apply Hadv; [done|]. by exists i, rest, p.
Qed.

Lemma pprr_idles_only_when_nothing_is_ready_witness :
  0 < 2
  /\ completed half_done_example < 2
  /\ Forall (fun p => priority p <= INT_MAX) (cs_processes half_done_example)
  /\ match PPRR.iteration 2 2 half_done_example with
     | Continue st' =>
         (Forall (fun p => ~ is_ready (current_time half_done_example) p)
                 (cs_processes half_done_example)
          /\ idle_jump half_done_example st')
         \/ busy_step half_done_example st'
     | Break st' =>
         st' = half_done_example
         /\ Forall (fun p => ~ is_ready (current_time half_done_example) p)
                   (cs_processes half_done_example)
     | Fault => True
     end.
Proof.
  assert (Htq : 0 < 2) by lia.
  assert (Hlt : completed half_done_example < 2) by (simpl; lia).
  assert (Hprio : Forall (fun p => priority p <= INT_MAX) (cs_processes half_done_example)).
  { repeat constructor; unfold INT_MAX; simpl; lia. }
  split; [exact Htq|]. split; [exact Hlt|]. split; [exact Hprio|].
  exact (pprr_idles_only_when_nothing_is_ready 2 2 half_done_example Htq Hlt Hprio).
Defined.

Lemma rr_empty_nothing_arrived st :
  rr_inv st -> RR.is_empty (RR.q st) = true -> rr_nothing_arrived st.
Proof.
  intros Hinv Hempty i p r Hp Hr Hpos.
  pose proof (ri_each _ Hinv i p r Hp Hr) as Hok.
  assert (Hflag : RR.flag (RR.in_ready_queue st) i = false).
  { destruct (RR.flag (RR.in_ready_queue st) i) eqn:Hf; [|done].
    assert (Hin : Z.of_nat i ∈ RR.contents (RR.q st)).
    { apply (qi_flags _ _ _ (ri_queue _ Hinv)). eauto. }
    rewrite (queue_contents_empty _ Hempty) in Hin. by apply elem_of_nil in Hin. }
  rewrite Hflag in Hok. unfold rr_process_ok in Hok.
  destruct Hok as (_ & _ & _ & Hd & _ & _ & _ & Hq).
  destruct (RR.flag (RR.is_completed st) i) eqn:Hdone.
  - assert (r = 0) by by apply Hd. lia.
  - destruct (Z.le_gt_cases (arrival_time p) (RR.time st)) as [Hle|]; [|lia].
    by specialize (Hq eq_refl Hle).
Qed.

Lemma rr_idle_jump_spec st :
  rr_inv st ->
  rr_nothing_arrived st ->
  match RR.idle st with
  | Continue st' => rr_idle_jump st st'
  | Break st' => st' = st
  | Fault => False
  end.
Proof.
  intros Hinv Hnone. unfold RR.idle.
  destruct (Z.eqb_spec (RR.next_arrival_time st) INT_MAX) as [|Hne]; [done|].
  destruct (RR.enqueue_loop _ _ _ _ _) as [q' in_queue'].
  unfold rr_idle_jump. cbn [RR.procs RR.remaining_time RR.completed RR.time].
  destruct (rr_next_arrival_loop_spec (RR.is_completed st) (RR.time st) (RR.procs st) 0 INT_MAX)
    as (Hmax & [?|(k & p & Hk & Hd & Hlt & Harr)] & Hmin); [done|].
  fold (RR.next_arrival_time st) in Hmax, Harr, Hmin. cbn [Nat.add] in Hd, Hmin.
  split; [done|]. split; [done|]. split; [done|]. split; [lia|]. split.
  - destruct (lookup_lt_is_Some_2 (RR.remaining_time st) k) as [r Hr].
    { rewrite (ri_len_remaining _ Hinv). by eapply lookup_lt_Some. }
    exists k, p, r. split; [done|]. split; [done|]. split; [|done].
    pose proof (ri_each _ Hinv k p r Hk Hr) as Hok. rewrite Hd in Hok.
    unfold rr_process_ok in Hok. destruct Hok as (_ & _ & Hr0 & Hdone & _).
    destruct (decide (r = 0)) as [Hz|]; [|lia]. by apply Hdone in Hz.
  - intros i p0 r Hp Hr Hpos.
    pose proof (ri_each _ Hinv i p0 r Hp Hr) as Hok.
    unfold rr_process_ok in Hok. destruct Hok as (_ & _ & _ & Hdone & _).
    assert (Hflag : RR.flag (RR.is_completed st) i = false).
    { destruct (RR.flag (RR.is_completed st) i); [|done].
      assert (r = 0) by by apply Hdone. lia. }
    pose proof (Hnone i p0 r Hp Hr Hpos) as Hfut.
    destruct (Hmin i p0 Hp Hflag Hfut); lia.
Qed.

(** X15.  [round_robin] is work conserving.  In every state the main loop
    of a run on a valid input reaches, the queue is empty only if no process
    with work left has arrived; an iteration then moves the clock to the
    earliest arrival still to come and changes no record, or breaks.  With
    a process in the queue the iteration advances the clock by exactly the
    work it does; it can only fail when the clock would pass [INT_MAX]. *)
Theorem rr_idles_only_when_nothing_has_arrived tq ps st :
  0 < tq ->
  valid_input ps ->
  Z.of_nat (length ps) < QUEUE_MAX ->
  RR.reachable tq ps st ->
  match RR.iteration tq st with
  | Continue st' =>
      (RR.is_empty (RR.q st) = true /\ rr_nothing_arrived st /\ rr_idle_jump st st')
      \/ (RR.is_empty (RR.q st) = false /\ rr_busy_step st st')
  | Break st' => st' = st /\ rr_nothing_arrived st
  | Fault => INT_MAX < RR.time st + tq
  end.
Proof.
  intros Htq Hvalid Hsmall Hreach.
  destruct (rr_reachable_inv tq ps st Htq Hvalid Hsmall Hreach) as [Hn Hinv].
  unfold RR.iteration. destruct (RR.is_empty (RR.q st)) eqn:Hempty.
  - pose proof (rr_empty_nothing_arrived st Hinv Hempty) as Hnone.
    pose proof (rr_idle_jump_spec st Hinv Hnone) as Hidle.
    destruct (RR.idle st) as [st'|st'|]; [by left|done|done].
  - destruct (rr_run_slice_spec (length ps) Hsmall tq Htq st Hn Hinv Hempty)
      as (i & l & p & r & _ & Hp & Hr & Hpos & _ & _ & Hfault & Hgo).
    destruct (exec_time_bounds tq r Htq Hpos) as [Hexec Hexec'].
    pose proof (ri_time _ Hinv) as Htime.
    destruct (RR.in_int (RR.time st + RR.exec_time tq r)) eqn:Hint.
    + destruct (Hgo eq_refl) as (st' & -> & _ & Hout).
      right. split; [done|]. unfold slice_outcome in Hout.
      destruct Hout as (Ht & Hrem & _). unfold rr_busy_step.
      rewrite Ht, Hrem, (sum_Z_insert _ _ _ _ Hr). lia.
    + rewrite (Hfault eq_refl). unfold RR.in_int, INT_MAX in *.
      apply andb_false_iff in Hint as [Hint|Hint]; [apply Z.leb_gt in Hint|apply Z.leb_gt in Hint];
        lia.
Qed.

Lemma rr_idles_only_when_nothing_has_arrived_witness :
  0 < 2
  /\ valid_input rr_example
  /\ Z.of_nat (length rr_example) < QUEUE_MAX
  /\ RR.reachable 2 rr_example (RR.initial rr_example)
  /\ match RR.iteration 2 (RR.initial rr_example) with
     | Continue st' =>
         (RR.is_empty (RR.q (RR.initial rr_example)) = true
          /\ rr_nothing_arrived (RR.initial rr_example)
          /\ rr_idle_jump (RR.initial rr_example) st')
         \/ (RR.is_empty (RR.q (RR.initial rr_example)) = false
             /\ rr_busy_step (RR.initial rr_example) st')
     | Break st' => st' = RR.initial rr_example /\ rr_nothing_arrived (RR.initial rr_example)
     | Fault => INT_MAX < RR.time (RR.initial rr_example) + 2
     end.
Proof.
  assert (Htq : 0 < 2) by lia.
  assert (Hvalid : valid_input rr_example).
  { repeat constructor; unfold valid_process; simpl; lia. }
  assert (Hsmall : Z.of_nat (length rr_example) < QUEUE_MAX) by (vm_compute; reflexivity).
  assert (Hreach : RR.reachable 2 rr_example (RR.initial rr_example))
    by apply RR.reach_initial.
  split; [exact Htq|]. split; [exact Hvalid|]. split; [exact Hsmall|]. split; [exact Hreach|].
  exact (rr_idles_only_when_nothing_has_arrived 2 rr_example (RR.initial rr_example)
           Htq Hvalid Hsmall Hreach).
Defined.

(** ** One CPU: no two processes finish at the same time *)

Section Distinct_completions.

Variables latest bound : Z.
Hypothesis bound_int : bound < INT_MAX.

Lemma run_unit_distinct st idx p :
  clock_inv latest bound st ->
  distinct_completions (cs_processes st) ->
  cs_processes st !! idx = Some p ->
  0 < remaining_time p ->
  distinct_completions (cs_processes (run_unit st idx p)).
Proof.
  intros Hinv Hdist Hidx Hpos.
  destruct (run_unit_lookup st idx p Hidx) as (p' & Hps & _ & Hrem & Hdone & _).
  pose proof (inv_each _ _ _ Hinv) as Heach.
  assert (Hold : forall k q, cs_processes st !! k = Some q -> remaining_time q = 0 ->
                             completion_time q <= current_time st).
  { intros k q Hk Hz. pose proof (Forall_lookup_1 _ _ _ _ Heach Hk) as Hok.
    unfold process_ok in Hok. lia. }
  rewrite Hps. intros i j a b Hne Hi Hj Ha Hb.
  destruct (decide (i = idx)) as [->|Hi'].
  - rewrite list_lookup_insert_ne in Hj by done.
    rewrite list_lookup_insert_eq in Hi by by eapply lookup_lt_Some.
    simplify_eq. specialize (Hdone Ha). specialize (Hold _ _ Hj Hb). lia.
  - rewrite list_lookup_insert_ne in Hi by done.
    destruct (decide (j = idx)) as [->|Hj'].
    + rewrite list_lookup_insert_eq in Hj by by eapply lookup_lt_Some.
      simplify_eq. specialize (Hdone Hb). specialize (Hold _ _ Hi Ha). lia.
    + rewrite list_lookup_insert_ne in Hj by done.
      exact (Hdist i j a b Hne Hi Hj Ha Hb).
Qed.

Lemma srt_iteration_distinct st st' :
  clock_inv latest bound st ->
  distinct_completions (cs_processes st) ->
  SRT.iteration st = Continue st' ->
  clock_inv latest bound st' /\ distinct_completions (cs_processes st').
Proof.
  intros Hinv Hdist [[Hne ->]|(i & p & Hi & He & _ & ->)]%srt_iteration_continue.
  - split; [by apply jump_inv|done].
  - apply srt_eligible_pos in He as [Harr Hpos].
    split; [by apply run_unit_inv|by apply run_unit_distinct].
Qed.

Lemma srt_loop_distinct fuel n : forall st how st',
  clock_inv latest bound st ->
  distinct_completions (cs_processes st) ->
  SRT.loop fuel n st = Finished how st' ->
  distinct_completions (cs_processes st').
Proof.
  induction fuel as [|fuel IH]; intros st how st' Hinv Hdist; simpl.
  - destruct (completed st <? n); intros; by simplify_eq.
  - destruct (completed st <? n); [|intros; by simplify_eq].
    destruct (SRT.iteration st) as [st1|st1|] eqn:Hit; [| |done].
    + destruct (srt_iteration_distinct _ _ Hinv Hdist Hit) as [Hinv1 Hdist1].
      by apply IH.
    + intros ?. simplify_eq. by rewrite (srt_iteration_break _ _ Hit).
Qed.

Lemma pprr_slice_distinct hp idx units : forall st p st' b,
  clock_inv latest bound st ->
  distinct_completions (cs_processes st) ->
  cs_processes st !! idx = Some p ->
  arrival_time p <= current_time st ->
  Z.of_nat units <= remaining_time p ->
  PPRR.slice hp idx units st = Some (st', b) ->
  distinct_completions (cs_processes st').
Proof.
  induction units as [|units IH]; intros st p st' b Hinv Hdist Hidx Harr Hrem; simpl.
  - intros ?; by simplify_eq.
  - rewrite Hidx. destruct (INT_MAX <=? current_time st); [done|].
    pose proof (run_unit_inv _ _ st idx p Hinv Hidx Harr ltac:(lia)) as Hinv1.
    pose proof (run_unit_distinct st idx p Hinv Hdist Hidx ltac:(lia)) as Hdist1.
    destruct (PPRR.higher_priority_arrival _ _ _); [intros ?; by simplify_eq|].
    destruct (Z.eqb_spec (remaining_time p - 1) 0); [intros ?; by simplify_eq|].
    destruct (run_unit_lookup st idx p Hidx) as (p' & Hps & Hst & Hrem' & _).
    assert (Hidx' : cs_processes (run_unit st idx p) !! idx = Some p').
    { rewrite Hps. apply list_lookup_insert_eq. by eapply lookup_lt_Some. }
    assert (Harr' : arrival_time p' = arrival_time p).
    { unfold static_fields in Hst. congruence. }
    apply (IH _ p'); [done|done|done| |lia].
    rewrite Harr', run_unit_clock. lia.
Qed.

Lemma pprr_rotation_distinct tq hp n ready : forall st st' b,
  0 < tq ->
  clock_inv latest bound st ->
  distinct_completions (cs_processes st) ->
  Forall (arrived st) ready ->
  PPRR.rotation tq hp n ready st = Some (st', b) ->
  distinct_completions (cs_processes st').
Proof.
  induction ready as [|idx ready IH]; intros st st' b Htq Hinv Hdist Harr; simpl.
  - intros ?; by simplify_eq.
  - apply Forall_cons in Harr as [(p & Hidx & Ha) Harr].
    destruct (completed st <? n); [|intros ?; by simplify_eq].
    rewrite Hidx.
    destruct (Z.leb_spec (remaining_time p) 0) as [Hz|Hpos]; [by apply IH|].
    destruct (pprr_run_for_bounds tq p Htq Hpos) as [_ Hu1].
    destruct (pprr_slice_inv latest bound bound_int hp idx _ st p Hinv Hidx Ha Hu1)
      as (st1 & b1 & Hslice & Hinv1 & _).
    pose proof (pprr_slice_distinct _ _ _ _ _ _ _ Hinv Hdist Hidx Ha Hu1 Hslice) as Hdist1.
    rewrite Hslice. destruct b1; [intros ?; by simplify_eq|].
    destruct (pprr_slice_static _ _ _ _ _ _ Hslice) as [Hst Hcl].
    apply IH; [done|done|done|].
    eapply Forall_impl; [exact Harr|]. intros i. by apply arrived_later.
Qed.

Lemma pprr_iteration_distinct tq n st st' :
  0 < tq ->
  clock_inv latest bound st ->
  distinct_completions (cs_processes st) ->
  PPRR.iteration tq n st = Continue st' ->
  clock_inv latest bound st' /\ distinct_completions (cs_processes st').
Proof.
  intros Htq Hinv Hdist. unfold PPRR.iteration.
  pose proof (pprr_collect_members (current_time st) (cs_processes st)) as Hmem.
  destruct (PPRR.collect _ _) as [hp ready]. simpl in Hmem.
  destruct ready as [|idx ready].
  - destruct (Z.eqb_spec (next_arrival (cs_processes st) (current_time st)) INT_MAX)
      as [|Hne]; [done|].
    intros ?; simplify_eq. split; [by apply jump_inv|done].
  - set (sorted := PPRR.sort_ready (cs_processes st) (idx :: ready)).
    assert (Harr : Forall (arrived st) sorted).
    { eapply Forall_impl; [by apply pprr_sort_ready_members|].
      intros i. apply ready_member_arrived. }
    destruct (pprr_rotation_inv latest bound bound_int tq hp n sorted st Htq Hinv Harr)
      as (st1 & b & Hrot & Hinv1 & _).
    pose proof (pprr_rotation_distinct _ _ _ _ _ _ _ Htq Hinv Hdist Harr Hrot) as Hdist1.
    rewrite Hrot. intros ?; by simplify_eq.
Qed.

Lemma pprr_loop_distinct fuel tq n : forall st how st',
  0 < tq ->
  clock_inv latest bound st ->
  distinct_completions (cs_processes st) ->
  PPRR.loop fuel tq n st = Finished how st' ->
  distinct_completions (cs_processes st').
Proof.
  induction fuel as [|fuel IH]; intros st how st' Htq Hinv Hdist; simpl.
  - destruct (completed st <? n); intros; by simplify_eq.
  - destruct (completed st <? n); [|intros; by simplify_eq].
    destruct (PPRR.iteration tq n st) as [st1|st1|] eqn:Hit; [| |done].
    + destruct (pprr_iteration_distinct _ _ _ _ Htq Hinv Hdist Hit) as [Hinv1 Hdist1].
      by apply IH.
    + intros ?. simplify_eq. by rewrite (pprr_iteration_break _ _ _ _ Hit).
Qed.

End Distinct_completions.

Lemma initial_distinct ps :
  valid_input ps -> distinct_completions (cs_processes (initial ps)).
Proof.
  intros Hvalid i j p q _ Hi _ Hz _. exfalso.
  assert (Hpos : Forall (fun p => 0 < remaining_time p) (cs_processes (initial ps))).
  { unfold initial, reset_process_states. cbn [cs_processes]. rewrite map_map.
    apply Forall_fmap. eapply Forall_impl; [exact Hvalid|].
    intros x [_ Hb]. unfold compose. simpl. lia. }
  pose proof (Forall_lookup_1 _ _ _ _ Hpos Hi) as Hp. simpl in Hp. lia.
Qed.

Lemma distinct_all_finished (l : list Process) :
  distinct_completions l ->
  Forall (fun p => remaining_time p = 0) l ->
  NoDup (map completion_time l).
Proof.
  intros Hdist Hall. apply NoDup_alt. intros i j x Hi Hj.
  change ((completion_time <$> l) !! i = Some x) in Hi.
  change ((completion_time <$> l) !! j = Some x) in Hj.
  apply list_lookup_fmap_Some in Hi as (p & -> & Hp).
  apply list_lookup_fmap_Some in Hj as (q & Heq & Hq).
  destruct (decide (i = j)) as [|Hne]; [done|]. exfalso.
  apply (Hdist i j p q Hne Hp Hq); [| |done].
  - by apply (Forall_lookup_1 _ _ _ _ Hall Hp).
  - by apply (Forall_lookup_1 _ _ _ _ Hall Hq).
Qed.

Section RR_distinct.

Variable n : nat.
Hypothesis n_small : Z.of_nat n < QUEUE_MAX.
Variable tq : Z.
Hypothesis tq_pos : 0 < tq.

Lemma rr_iteration_distinct st st' :
  length (RR.procs st) = n ->
  rr_inv st ->
  rr_distinct_completions st ->
  RR.iteration tq st = Continue st' ->
  rr_distinct_completions st'.
Proof.
  intros Hn Hinv Hdist. unfold RR.iteration.
  destruct (RR.is_empty (RR.q st)) eqn:Hempty.
  - destruct (rr_idle_spec n n_small st Hn Hinv Hempty) as [Hbreak Hjump].
    destruct (decide (RR.next_arrival_time st = INT_MAX)) as [Heq|Hne].
    { by rewrite (Hbreak Heq). }
    destruct (Hjump Hne) as (st1 & -> & _ & Hprocs & Hrem & _).
    intros ?; simplify_eq. unfold rr_distinct_completions. by rewrite Hprocs, Hrem.
  - destruct (rr_run_slice_spec n n_small tq tq_pos st Hn Hinv Hempty)
      as (i & l & p & r & _ & Hp & Hr & Hpos & _ & _ & Hfault & Hgo).
    destruct (exec_time_bounds tq r tq_pos Hpos) as [Hexec _].
    destruct (RR.in_int (RR.time st + RR.exec_time tq r)) eqn:Hint;
      [|by rewrite (Hfault eq_refl)].
    destruct (Hgo eq_refl) as (st1 & -> & _ & Hout).
    intros ?; simplify_eq. unfold slice_outcome in Hout.
    destruct Hout as (Ht & Hrem & _ & Hprocs & _).
    assert (Hold : forall k q, RR.procs st !! k = Some q ->
                               RR.remaining_time st !! k = Some 0 ->
                               completion_time q <= RR.time st).
    { intros k q Hk Hz. pose proof (ri_each _ Hinv k q 0 Hk Hz) as Hok.
      unfold rr_process_ok in Hok. lia. }
    assert (Hi : (i < length (RR.remaining_time st))%nat) by by eapply lookup_lt_Some.
    assert (Hi' : (i < length (RR.procs st))%nat) by by eapply lookup_lt_Some.
    intros a b pa pb Hne Ha Hb Hra Hrb. rewrite Hrem in Hra, Hrb. rewrite Hprocs in Ha, Hb.
    destruct (Z.eqb_spec (r - RR.exec_time tq r) 0) as [Hz|Hnz].
    + destruct (decide (a = i)) as [->|Hai].
      * rewrite list_lookup_insert_eq in Ha by done.
        rewrite list_lookup_insert_ne in Hb by done.
        rewrite list_lookup_insert_ne in Hrb by done.
        simplify_eq. specialize (Hold _ _ Hb Hrb). simpl. lia.
      * rewrite list_lookup_insert_ne in Ha by done.
        rewrite list_lookup_insert_ne in Hra by done.
        destruct (decide (b = i)) as [->|Hbi].
        -- rewrite list_lookup_insert_eq in Hb by done.
           simplify_eq. specialize (Hold _ _ Ha Hra). simpl. lia.
        -- rewrite list_lookup_insert_ne in Hb by done.
           rewrite list_lookup_insert_ne in Hrb by done.
           exact (Hdist a b pa pb Hne Ha Hb Hra Hrb).
    + destruct (decide (a = i)) as [->|Hai].
      { rewrite list_lookup_insert_eq in Hra by done. simplify_eq. }
      destruct (decide (b = i)) as [->|Hbi].
      { rewrite list_lookup_insert_eq in Hrb by done. simplify_eq. }
      rewrite list_lookup_insert_ne in Hra by done.
      rewrite list_lookup_insert_ne in Hrb by done.
      exact (Hdist a b pa pb Hne Ha Hb Hra Hrb).
Qed.

Variables latest bound : Z.
Hypothesis bound_int : bound < INT_MAX.

Lemma rr_loop_distinct fuel st :
  length (RR.procs st) = n ->
  rr_inv st ->
  rr_bounded latest bound st ->
  rr_distinct_completions st ->
  (rr_measure st < fuel)%nat ->
  exists st', RR.loop fuel tq (Z.of_nat n) st = Finished LoopCondition st'
              /\ length (RR.procs st') = n
              /\ rr_inv st'
              /\ rr_distinct_completions st'
              /\ Z.of_nat n <= RR.completed st'.
Proof.
  revert st. induction fuel as [|fuel IH]; intros st Hn Hinv Hb Hdist Hm; [lia|]. simpl.
  destruct (Z.ltb_spec (RR.completed st) (Z.of_nat n)) as [Hlt|Hge].
  - destruct (rr_iteration_progress n n_small tq tq_pos latest bound bound_int
                st Hn Hinv Hb Hlt) as (st1 & Hit & Hn1 & Hinv1 & Hb1 & Hdec).
    pose proof (rr_iteration_distinct st st1 Hn Hinv Hdist Hit) as Hdist1.
    rewrite Hit. apply IH; [done|done|done|done|lia].
  - by exists st.
Qed.

End RR_distinct.

Lemma rr_initial_distinct ps :
  valid_input ps -> rr_distinct_completions (RR.initial ps).
Proof.
  intros Hvalid i j p q _ Hi _ Hz _. exfalso.
  assert (Hrem : RR.remaining_time (RR.initial ps)
                 = map burst_time (RR.procs (RR.initial ps))).
  { unfold RR.initial. by destruct (RR.enqueue_loop _ _ _ _ _). }
  rewrite Hrem in Hz. change ((burst_time <$> RR.procs (RR.initial ps)) !! i = Some 0) in Hz.
  rewrite list_lookup_fmap, Hi in Hz. simpl in Hz.
  assert (Hb : Forall (fun p => 0 < burst_time p) (RR.procs (RR.initial ps))).
  { rewrite rr_initial_procs, rr_sorted_perm. unfold reset_process_states.
    apply Forall_fmap. eapply Forall_impl; [exact Hvalid|]. by intros x [_ Hx]. }
  pose proof (Forall_lookup_1 _ _ _ _ Hb Hi) as Hp. simpl in Hp. simplify_eq. lia.
Qed.

Lemma rr_distinct_all_finished st :
  rr_inv st ->
  Z.of_nat (length (RR.procs st)) <= RR.completed st ->
  rr_distinct_completions st ->
  NoDup (map completion_time (RR.procs st)).
Proof.
  intros Hinv Hge Hdist.
  pose proof (bool_count_all (RR.is_completed st)) as Hall.
  rewrite (ri_len_completed _ Hinv), <- (ri_count _ Hinv) in Hall. specialize (Hall Hge).
  assert (Hzero : forall i p, RR.procs st !! i = Some p ->
                              RR.remaining_time st !! i = Some 0).
  { intros i p Hp. pose proof (lookup_lt_Some _ _ _ Hp) as Hi.
    destruct (lookup_lt_is_Some_2 (RR.remaining_time st) i) as [r Hr].
    { by rewrite (ri_len_remaining _ Hinv). }
    destruct (lookup_lt_is_Some_2 (RR.is_completed st) i) as [b Hb].
    { by rewrite (ri_len_completed _ Hinv). }
    pose proof (Forall_lookup_1 _ _ _ _ Hall Hb) as Hbt. simpl in Hbt. subst b.
    pose proof (ri_each _ Hinv i p r Hp Hr) as Hok.
    rewrite (flag_lookup _ _ _ Hb) in Hok. unfold rr_process_ok in Hok.
    destruct Hok as (_ & _ & _ & Hd & _). rewrite Hr. f_equal. by apply Hd. }
  apply NoDup_alt. intros i j x Hi Hj.
  change ((completion_time <$> RR.procs st) !! i = Some x) in Hi.
  change ((completion_time <$> RR.procs st) !! j = Some x) in Hj.
  apply list_lookup_fmap_Some in Hi as (p & -> & Hp).
  apply list_lookup_fmap_Some in Hj as (q & Heq & Hq).
  destruct (decide (i = j)) as [|Hne]; [done|]. exfalso.
  apply (Hdist i j p q Hne Hp Hq); [by eapply Hzero|by eapply Hzero|done].
Qed.

(** X16.  One CPU: on a valid input whose latest arrival plus total burst
    stays below [INT_MAX], each engine runs to the end and no two processes
    of its result carry the same completion time (priorities being [int]s
    for the priority engine; a positive quantum and fewer than [QUEUE_MAX]
    processes for round robin). *)
Theorem no_two_processes_complete_at_the_same_time ps tq :
  valid_input ps ->
  horizon ps < INT_MAX ->
  (exists ps', SRT.shortest_remaining_time_first_on ps = Finished LoopCondition ps'
               /\ NoDup (map completion_time ps'))
  /\ (Forall (fun p => priority p <= INT_MAX) ps ->
      exists ps', PPRR.priority_preemptive_rr_on tq ps = Finished LoopCondition ps'
                  /\ NoDup (map completion_time ps'))
  /\ (0 < tq -> Z.of_nat (length ps) < QUEUE_MAX ->
      exists ps', RR.round_robin_on tq ps = Finished LoopCondition ps'
                  /\ NoDup (map completion_time ps')).
Proof.
  intros Hvalid Hbound. pose proof (initial_inv ps Hvalid) as Hinv.
  pose proof (initial_distinct ps Hvalid) as Hdist. split_and!.
  - destruct (srt_loop_complete _ _ Hbound (S (measure (initial ps))) (initial ps) Hinv
                ltac:(lia)) as (st & Hloop & Hinv' & Hlen & Hdone).
    exists (cs_processes st). split.
    + unfold SRT.shortest_remaining_time_first_on, SRT.run.
      rewrite initial_length in Hloop. by rewrite Hloop.
    + rewrite <- Hlen in Hdone.
      destruct (clock_inv_all_finished _ _ st Hinv' Hdone) as [_ Hall].
      apply distinct_all_finished.
      * eapply srt_loop_distinct; [exact Hinv|exact Hdist|exact Hloop].
      * eapply Forall_impl; [exact Hall|]. by intros p [Hz _].
  - intros Hprio.
    assert (Hprio0 : Forall (fun p => priority p <= INT_MAX) (cs_processes (initial ps))).
    { unfold initial, reset_process_states. cbn [cs_processes]. rewrite map_map.
      apply Forall_fmap. eapply Forall_impl; [exact Hprio|]. by intros p Hp. }
    destruct (pprr_loop_complete _ _ Hbound (PPRR.effective_quantum tq)
                (S (measure (initial ps))) (initial ps) (effective_quantum_pos tq)
                Hinv Hprio0 ltac:(lia)) as (st & Hloop & Hinv' & Hlen & Hdone).
    exists (cs_processes st). split.
    + unfold PPRR.priority_preemptive_rr_on, PPRR.run.
      rewrite initial_length in Hloop. by rewrite Hloop.
    + rewrite <- Hlen in Hdone.
      destruct (clock_inv_all_finished _ _ st Hinv' Hdone) as [_ Hall].
      apply distinct_all_finished.
      * eapply (pprr_loop_distinct _ _ Hbound);
          [apply effective_quantum_pos|exact Hinv|exact Hdist|exact Hloop].
      * eapply Forall_impl; [exact Hall|]. by intros p [Hz _].
  - intros Htq Hsmall.
    destruct (rr_initial_spec ps Hvalid Hsmall) as (Hlen & Hrr & Hb & Hm & _).
    destruct (rr_loop_distinct (length ps) Hsmall tq Htq _ _ Hbound (RR.fuel_for ps)
                (RR.initial ps) Hlen Hrr Hb (rr_initial_distinct ps Hvalid) Hm)
      as (st & Hloop & Hlen' & Hinv' & Hdist' & Hdone).
    exists (RR.procs st). split.
    + unfold RR.round_robin_on, RR.run. by rewrite Hloop.
    + apply rr_distinct_all_finished; [done|by rewrite Hlen'|done].
Qed.

Lemma no_two_processes_complete_at_the_same_time_witness :
  valid_input srt_example
  /\ horizon srt_example < INT_MAX
  /\ Forall (fun p => priority p <= INT_MAX) srt_example
  /\ 0 < 3
  /\ Z.of_nat (length srt_example) < QUEUE_MAX
  /\ (exists ps', SRT.shortest_remaining_time_first_on srt_example
                  = Finished LoopCondition ps'
                  /\ NoDup (map completion_time ps'))
  /\ (exists ps', PPRR.priority_preemptive_rr_on 3 srt_example = Finished LoopCondition ps'
                  /\ NoDup (map completion_time ps'))
  /\ (exists ps', RR.round_robin_on 3 srt_example = Finished LoopCondition ps'
                  /\ NoDup (map completion_time ps')).
Proof.
  assert (Hvalid : valid_input srt_example).
  { repeat constructor; unfold valid_process; simpl; lia. }
  assert (Hbound : horizon srt_example < INT_MAX) by (vm_compute; reflexivity).
  assert (Hprio : Forall (fun p => priority p <= INT_MAX) srt_example).
  { repeat constructor; unfold INT_MAX; simpl; lia. }
  assert (Htq : 0 < 3) by lia.
  assert (Hsmall : Z.of_nat (length srt_example) < QUEUE_MAX) by (vm_compute; reflexivity).
  destruct (no_two_processes_complete_at_the_same_time srt_example 3 Hvalid Hbound)
    as (Hsrt & Hpprr & Hrr).
  split; [exact Hvalid|]. split; [exact Hbound|]. split; [exact Hprio|].
  split; [exact Htq|]. split; [exact Hsmall|].
  split; [exact Hsrt|]. split; [exact (Hpprr Hprio)|exact (Hrr Htq Hsmall)].
Defined.

(** * The priority engine, unit by unit *)

Section PPRR_units.

Variables (hp : Z) (idx : nat).

Lemma preempts_spec st :
  PPRR.higher_priority_arrival (cs_processes st) (current_time st) hp = true
  <-> preempts hp st.
Proof. apply higher_priority_arrival_spec. Qed.

(** One unit of a slice, as the loop body runs it. *)
Lemma pprr_slice_step units st p :
  cs_processes st !! idx = Some p ->
  current_time st < INT_MAX ->
  PPRR.slice hp idx (S units) st
  = if PPRR.higher_priority_arrival (cs_processes (run_unit st idx p))
                                    (current_time (run_unit st idx p)) hp
    then Some (run_unit st idx p, true)
    else if remaining_time p - 1 =? 0 then Some (run_unit st idx p, false)
         else PPRR.slice hp idx units (run_unit st idx p).
Proof.
  intros Hidx Hclock. simpl. rewrite Hidx.
  destruct (Z.leb_spec INT_MAX (current_time st)); [lia|done].
Qed.

(** The member's record and the counters after [k] units none of which
    finished the member. *)
Lemma units_run_spec k : forall st p,
  cs_processes st !! idx = Some p ->
  (forall j, (1 <= j <= k)%nat -> remaining_time p <> Z.of_nat j) ->
  current_time (units_run k idx st) = current_time st + Z.of_nat k
  /\ completed (units_run k idx st) = completed st
  /\ (forall j, j <> idx -> cs_processes (units_run k idx st) !! j = cs_processes st !! j)
  /\ exists pk, cs_processes (units_run k idx st) !! idx = Some pk
                /\ remaining_time pk = remaining_time p - Z.of_nat k
                /\ completion_time pk = completion_time p.
Proof.
  induction k as [|k IH]; intros st p Hidx Hrem.
  - cbn [units_run]. split; [lia|]. split; [done|]. split; [done|].
    exists p. split; [done|]. split; [lia|done].
  - destruct (IH st p Hidx) as (Hclock & Hcount & Hframe & pk & Hpk & Hrk & Hck).
    { intros j Hj. apply Hrem. lia. }
    cbn [units_run]. rewrite Hpk.
    destruct (run_unit_lookup _ idx pk Hpk) as (p' & Hps & _ & Hrem' & _ & Hkeep & Hcompl).
    assert (Hnz : remaining_time p' <> 0).
    { pose proof (Hrem (S k) ltac:(lia)). lia. }
    split; [rewrite run_unit_clock; lia|]. split.
    { rewrite Hcompl, Hcount. destruct (Z.eqb_spec (remaining_time p') 0); lia. }
    split.
    { intros j Hj. rewrite run_unit_other by done. by apply Hframe. }
    exists p'. split.
    { rewrite Hps. apply list_lookup_insert_eq. by eapply lookup_lt_Some. }
    split; [lia|]. rewrite (Hkeep Hnz). done.
Qed.

(** As long as no unit finishes the member and no scan finds an arrival of
    higher priority, the slice goes on. *)
Lemma pprr_slice_prefix k : forall units st p,
  cs_processes st !! idx = Some p ->
  current_time st + Z.of_nat k <= INT_MAX ->
  (forall j, (1 <= j <= k)%nat ->
             ~ preempts hp (units_run j idx st) /\ remaining_time p <> Z.of_nat j) ->
  PPRR.slice hp idx (k + units) st = PPRR.slice hp idx units (units_run k idx st).
Proof.
  induction k as [|k IH]; intros units st p Hidx Hclock Hquiet; [done|].
  replace (S k + units)%nat with (k + S units)%nat by lia.
  rewrite (IH (S units) st p Hidx); [|lia|intros j Hj; apply Hquiet; lia].
  destruct (units_run_spec k st p Hidx) as (Hck & _ & _ & pk & Hpk & Hrk & _).
  { intros j Hj. apply Hquiet. lia. }
  rewrite (pprr_slice_step units _ pk Hpk) by lia.
  destruct (Hquiet (S k) ltac:(lia)) as [Hno Hnz].
  cbn [units_run] in Hno. rewrite Hpk in Hno.
  destruct (PPRR.higher_priority_arrival _ _ _) eqn:Hh.
  { exfalso. by apply Hno, preempts_spec. }
  destruct (Z.eqb_spec (remaining_time pk - 1) 0); [lia|].
  cbn [units_run]. by rewrite Hpk.
Qed.

End PPRR_units.

(** The members that have had their turn, and then the others. *)
Lemma pprr_rotation_app tq hp n pre l : forall st0,
  PPRR.rotation tq hp n (pre ++ l) st0
  = match PPRR.rotation tq hp n pre st0 with
    | Some (st, false) => PPRR.rotation tq hp n l st
    | r => r
    end.
Proof.
  induction pre as [|i pre IH]; intros st0; [done|]. cbn [app PPRR.rotation].
  destruct (completed st0 <? n) eqn:Hlt.
  - destruct (cs_processes st0 !! i) as [p|]; [|done].
    destruct (remaining_time p <=? 0); [apply IH|].
    destruct (PPRR.slice hp i _ st0) as [[st' [|]]|]; [done|apply IH|done].
  - destruct l as [|i' l]; [done|]. cbn [PPRR.rotation]. by rewrite Hlt.
Qed.

Lemma pprr_sort_ready_nil ps : PPRR.sort_ready ps [] = [].
Proof. reflexivity. Qed.

(** C1 (amended).  The slice of a group member in
    [priority_preemptive_rr], followed from the head of the outer loop:
    the members [pre] of the sorted group have had their turn, [p] at [idx]
    is the member whose turn it is, and [k] units of its slice have passed
    with no arrival of higher priority found and work still left.  The next
    unit moves the clock and the remaining time by one, changes no other
    record and, if the remaining time reaches 0, records the completion
    time at that instant and increments [completed].  If a process of
    strictly smaller priority value than the group's, with work left,
    arrives exactly at the new clock value, the rest of the quantum and the
    members [rest] are left out and the outer loop starts again from the
    state just reached; this holds also when the unit has finished the
    member.  If no such process arrives and the unit has finished the
    member or was the last of the quantum, the rotation goes on with the
    next member, and the outer loop starts again where the rotation ends.
    Otherwise the slice goes on with its next unit. *)
Theorem pprr_slice_unit_by_unit tq hp n fuel st0 ready pre idx rest st p k :
  completed st0 < n ->
  PPRR.collect (cs_processes st0) (current_time st0) = (hp, ready) ->
  PPRR.sort_ready (cs_processes st0) ready = pre ++ idx :: rest ->
  PPRR.rotation tq hp n pre st0 = Some (st, false) ->
  completed st < n ->
  cs_processes st !! idx = Some p ->
  0 < remaining_time p ->
  (k < Z.to_nat (PPRR.run_for tq p))%nat ->
  current_time st + Z.of_nat k < INT_MAX ->
  (forall j, (1 <= j <= k)%nat ->
             ~ preempts hp (units_run j idx st) /\ remaining_time p <> Z.of_nat j) ->
  (current_time (units_run (S k) idx st) = current_time st + Z.of_nat k + 1
   /\ exists p1,
        cs_processes (units_run (S k) idx st) !! idx = Some p1
        /\ remaining_time p1 = remaining_time p - Z.of_nat k - 1
        /\ (remaining_time p1 = 0 ->
            completion_time p1 = current_time (units_run (S k) idx st)
            /\ completed (units_run (S k) idx st) = completed st + 1)
        /\ (remaining_time p1 <> 0 ->
            completion_time p1 = completion_time p
            /\ completed (units_run (S k) idx st) = completed st))
  /\ (forall j, j <> idx ->
                cs_processes (units_run (S k) idx st) !! j = cs_processes st !! j)
  /\ (preempts hp (units_run (S k) idx st) ->
      PPRR.slice hp idx (Z.to_nat (PPRR.run_for tq p)) st
      = Some (units_run (S k) idx st, true)
      /\ PPRR.rotation tq hp n (pre ++ idx :: rest) st0
         = Some (units_run (S k) idx st, true)
      /\ PPRR.iteration tq n st0 = Continue (units_run (S k) idx st)
      /\ PPRR.loop (S fuel) tq n st0 = PPRR.loop fuel tq n (units_run (S k) idx st))
  /\ (~ preempts hp (units_run (S k) idx st) ->
      remaining_time p = Z.of_nat k + 1 \/ S k = Z.to_nat (PPRR.run_for tq p) ->
      PPRR.slice hp idx (Z.to_nat (PPRR.run_for tq p)) st
      = Some (units_run (S k) idx st, false)
      /\ PPRR.rotation tq hp n (pre ++ idx :: rest) st0
         = PPRR.rotation tq hp n rest (units_run (S k) idx st)
      /\ forall st' b,
           PPRR.rotation tq hp n rest (units_run (S k) idx st) = Some (st', b) ->
           PPRR.iteration tq n st0 = Continue st'
           /\ PPRR.loop (S fuel) tq n st0 = PPRR.loop fuel tq n st')
  /\ (~ preempts hp (units_run (S k) idx st) ->
      remaining_time p <> Z.of_nat k + 1 ->
      (S k < Z.to_nat (PPRR.run_for tq p))%nat ->
      PPRR.slice hp idx (Z.to_nat (PPRR.run_for tq p)) st
      = PPRR.slice hp idx (Z.to_nat (PPRR.run_for tq p) - S k)
                   (units_run (S k) idx st)).
Proof.
  intros Hlt0 Hcollect Hsorted Hpre Hlt Hidx Hpos Hk Hclock Hquiet.
  set (units := Z.to_nat (PPRR.run_for tq p)) in *.
  assert (Hwork : forall j, (1 <= j <= k)%nat -> remaining_time p <> Z.of_nat j).
  { intros j Hj. by apply Hquiet. }
  destruct (units_run_spec idx k st p Hidx Hwork)
    as (Hck & Hcount & Hframe & pk & Hpk & Hrk & Hcompl).
  set (stk := units_run k idx st) in *.
  assert (Hnext : units_run (S k) idx st = run_unit stk idx pk).
  { cbn [units_run]. fold stk. by rewrite Hpk. }
  rewrite Hnext. set (st1 := run_unit stk idx pk) in *.
  (* the slice, from the unit in question on *)
  assert (Hslice : PPRR.slice hp idx units st
                   = if PPRR.higher_priority_arrival (cs_processes st1) (current_time st1) hp
                     then Some (st1, true)
                     else if remaining_time pk - 1 =? 0 then Some (st1, false)
                          else PPRR.slice hp idx (units - S k) st1).
  { replace units with (k + S (units - S k))%nat at 1 by lia.
    rewrite (pprr_slice_prefix hp idx k _ st p Hidx ltac:(lia) Hquiet). fold stk.
    apply pprr_slice_step; [done|lia]. }
  (* the rotation and the outer loop *)
  assert (Hrot : PPRR.rotation tq hp n (pre ++ idx :: rest) st0
                 = match PPRR.slice hp idx units st with
                   | None => None
                   | Some (st', true) => Some (st', true)
                   | Some (st', false) => PPRR.rotation tq hp n rest st'
                   end).
  { rewrite pprr_rotation_app, Hpre. cbn [PPRR.rotation]. rewrite Hidx.
    destruct (Z.ltb_spec (completed st) n); [|lia].
    destruct (Z.leb_spec (remaining_time p) 0); [lia|done]. }
  assert (Hloop : forall st' b,
             PPRR.rotation tq hp n (pre ++ idx :: rest) st0 = Some (st', b) ->
             PPRR.iteration tq n st0 = Continue st'
             /\ PPRR.loop (S fuel) tq n st0 = PPRR.loop fuel tq n st').
  { intros st' b Hr.
    assert (Hit : PPRR.iteration tq n st0 = Continue st').
    { unfold PPRR.iteration. rewrite Hcollect.
      destruct ready as [|i ready].
      - rewrite pprr_sort_ready_nil in Hsorted. by destruct pre.
      - by rewrite Hsorted, Hr. }
    split; [done|]. cbn [PPRR.loop]. rewrite Hit.
    destruct (Z.ltb_spec (completed st0) n); [done|lia]. }
  destruct (run_unit_lookup stk idx pk Hpk)
    as (p1 & Hps & _ & Hr1 & Hdone & Hkeep & Hcnt).
  fold st1 in Hps, Hcnt.
  split; [|split; [|split; [|split]]].
  - split; [unfold st1; rewrite run_unit_clock; lia|].
    exists p1. split.
    { rewrite Hps. apply list_lookup_insert_eq. by eapply lookup_lt_Some. }
    split; [lia|]. split.
    + intros Hz. split.
      * rewrite (Hdone Hz). unfold st1. by rewrite run_unit_clock.
      * rewrite Hcnt, Hz, Hcount. done.
    + intros Hnz. split; [by rewrite (Hkeep Hnz)|].
      rewrite Hcnt, Hcount. destruct (Z.eqb_spec (remaining_time p1) 0); [done|lia].
  - intros j Hj. unfold st1. rewrite run_unit_other by done. by apply Hframe.
  - intros Hp%preempts_spec. rewrite Hp in Hslice.
    split; [done|]. rewrite Hslice in Hrot. split; [done|]. by apply (Hloop _ true).
  - intros Hno Hend.
    destruct (PPRR.higher_priority_arrival _ _ _) eqn:Hh;
      [exfalso; by apply Hno, preempts_spec|].
    assert (Hs : PPRR.slice hp idx units st = Some (st1, false)).
    { rewrite Hslice. destruct (Z.eqb_spec (remaining_time pk - 1) 0); [done|].
      destruct Hend as [|Hend]; [lia|].
      replace (units - S k)%nat with 0%nat by lia. done. }
    split; [done|]. rewrite Hs in Hrot. split; [done|].
    intros st' b Hr. apply (Hloop st' b). by rewrite Hrot.
  - intros Hno Hmore Hunits.
    destruct (PPRR.higher_priority_arrival _ _ _) eqn:Hh;
      [exfalso; by apply Hno, preempts_spec|].
    rewrite Hslice. destruct (Z.eqb_spec (remaining_time pk - 1) 0); [lia|done].
Qed.

Lemma pprr_slice_unit_by_unit_witness :
  completed (initial pprr_group_example) < 4
  /\ PPRR.collect (cs_processes (initial pprr_group_example))
                  (current_time (initial pprr_group_example)) = (2, [0; 1; 2]%nat)
  /\ PPRR.sort_ready (cs_processes (initial pprr_group_example)) [0; 1; 2]%nat
     = [0%nat] ++ 1%nat :: [2%nat]
  /\ PPRR.rotation 4 2 4 [0%nat] (initial pprr_group_example)
     = Some (pprr_group_after_P1, false)
  /\ completed pprr_group_after_P1 < 4
  /\ cs_processes pprr_group_after_P1 !! 1%nat = Some (mkProcess 2 0 5 2 5 0)
  /\ 0 < remaining_time (mkProcess 2 0 5 2 5 0)
  /\ (1 < Z.to_nat (PPRR.run_for 4 (mkProcess 2 0 5 2 5 0)))%nat
  /\ current_time pprr_group_after_P1 + Z.of_nat 1 < INT_MAX
  /\ (forall j, (1 <= j <= 1)%nat ->
                ~ preempts 2 (units_run j 1 pprr_group_after_P1)
                /\ remaining_time (mkProcess 2 0 5 2 5 0) <> Z.of_nat j)
  /\ preempts 2 pprr_group_preempted
  /\ PPRR.slice 2 1 4 pprr_group_after_P1 = Some (pprr_group_preempted, true)
  /\ PPRR.rotation 4 2 4 ([0%nat] ++ 1%nat :: [2%nat]) (initial pprr_group_example)
     = Some (pprr_group_preempted, true)
  /\ PPRR.iteration 4 4 (initial pprr_group_example) = Continue pprr_group_preempted
  /\ PPRR.loop 13 4 4 (initial pprr_group_example) = PPRR.loop 12 4 4 pprr_group_preempted
  /\ cs_processes pprr_group_preempted !! 2%nat = cs_processes pprr_group_after_P1 !! 2%nat
  /\ ~ preempts 2 pprr_group_after_P1
  /\ PPRR.rotation 4 2 4 ([] ++ 0%nat :: [1; 2]%nat) (initial pprr_group_example)
     = PPRR.rotation 4 2 4 [1; 2]%nat pprr_group_after_P1.
Proof.
  assert (H0 : completed (initial pprr_group_example) < 4) by reflexivity.
  assert (Hcollect : PPRR.collect (cs_processes (initial pprr_group_example))
                       (current_time (initial pprr_group_example)) = (2, [0; 1; 2]%nat))
    by reflexivity.
  assert (Hsorted : PPRR.sort_ready (cs_processes (initial pprr_group_example)) [0; 1; 2]%nat
                    = [0%nat] ++ 1%nat :: [2%nat]) by reflexivity.
  assert (Hpre : PPRR.rotation 4 2 4 [0%nat] (initial pprr_group_example)
                 = Some (pprr_group_after_P1, false)) by (vm_compute; reflexivity).
  assert (H1 : completed pprr_group_after_P1 < 4) by reflexivity.
  assert (Hidx : cs_processes pprr_group_after_P1 !! 1%nat = Some (mkProcess 2 0 5 2 5 0))
    by reflexivity.
  assert (Hpos : 0 < remaining_time (mkProcess 2 0 5 2 5 0)) by reflexivity.
  assert (Hk : (1 < Z.to_nat (PPRR.run_for 4 (mkProcess 2 0 5 2 5 0)))%nat)
    by (vm_compute; lia).
  assert (Hclock : current_time pprr_group_after_P1 + Z.of_nat 1 < INT_MAX) by reflexivity.
  assert (Hquiet : forall j, (1 <= j <= 1)%nat ->
                     ~ preempts 2 (units_run j 1 pprr_group_after_P1)
                     /\ remaining_time (mkProcess 2 0 5 2 5 0) <> Z.of_nat j).
  { intros j Hj. assert (j = 1%nat) as -> by lia. split; [|simpl; lia].
    intros (i & q & Hi & Ha & _).
    destruct i as [|[|[|[|i]]]]; vm_compute in Hi; try discriminate Hi;
      injection Hi as <-; vm_compute in Ha; discriminate Ha. }
  assert (Hpreempts : preempts 2 pprr_group_preempted).
  { exists 3%nat, (mkProcess 3 3 1 1 1 0). repeat split; reflexivity. }
  destruct (pprr_slice_unit_by_unit 4 2 4 12 (initial pprr_group_example) [0; 1; 2]%nat
              [0%nat] 1%nat [2%nat] pprr_group_after_P1 (mkProcess 2 0 5 2 5 0) 1
              H0 Hcollect Hsorted Hpre H1 Hidx Hpos Hk Hclock Hquiet)
    as (_ & Hframe & Habort & _).
  destruct (Habort Hpreempts) as (Hslice & Hrot & Hit & Hloop).
  assert (Hnone : ~ preempts 2 pprr_group_after_P1).
  { intros (i & q & Hi & Ha & _).
    destruct i as [|[|[|[|i]]]]; vm_compute in Hi; try discriminate Hi;
      injection Hi as <-; vm_compute in Ha; discriminate Ha. }
  assert (Hpre0 : PPRR.rotation 4 2 4 [] (initial pprr_group_example)
                  = Some (initial pprr_group_example, false)) by reflexivity.
  assert (Hidx0 : cs_processes (initial pprr_group_example) !! 0%nat
                  = Some (mkProcess 1 0 1 2 1 0)) by reflexivity.
  assert (Hpos0 : 0 < remaining_time (mkProcess 1 0 1 2 1 0)) by reflexivity.
  assert (Hk0 : (0 < Z.to_nat (PPRR.run_for 4 (mkProcess 1 0 1 2 1 0)))%nat)
    by (vm_compute; lia).
  assert (Hclock0 : current_time (initial pprr_group_example) + Z.of_nat 0 < INT_MAX)
    by reflexivity.
  assert (Hquiet0 : forall j, (1 <= j <= 0)%nat ->
                      ~ preempts 2 (units_run j 0 (initial pprr_group_example))
                      /\ remaining_time (mkProcess 1 0 1 2 1 0) <> Z.of_nat j)
    by (intros j Hj; lia).
  destruct (pprr_slice_unit_by_unit 4 2 4 12 (initial pprr_group_example) [0; 1; 2]%nat
              [] 0%nat [1; 2]%nat (initial pprr_group_example) (mkProcess 1 0 1 2 1 0) 0
              H0 Hcollect Hsorted Hpre0 H0 Hidx0 Hpos0 Hk0 Hclock0 Hquiet0)
    as (_ & _ & _ & Hhand & _).
  destruct (Hhand Hnone ltac:(left; reflexivity)) as (_ & Hnext & _).
  split; [exact H0|]. split; [exact Hcollect|]. split; [exact Hsorted|].
  split; [exact Hpre|]. split; [exact H1|]. split; [exact Hidx|]. split; [exact Hpos|].
  split; [exact Hk|]. split; [exact Hclock|]. split; [exact Hquiet|].
  split; [exact Hpreempts|]. split; [exact Hslice|]. split; [exact Hrot|].
  split; [exact Hit|]. split; [exact Hloop|].
  split; [exact (Hframe 2%nat ltac:(discriminate))|]. split; [exact Hnone|exact Hnext].
Defined.

(** C1 as stated fails where it lets a finished member hand over to the
    next one whatever the scan finds.  P1 and P2 form the group and P3, of
    higher priority, arrives at 1, the instant at which the only unit of P1
    finishes it.  The completion is recorded, but the scan that follows the
    unit finds P3: the rotation ends there, P2 is not given its turn, and
    the outer loop, started again, runs P3. *)
Lemma pprr_completing_unit_can_end_the_rotation :
  PPRR.collect (cs_processes (initial pprr_abort_example))
               (current_time (initial pprr_abort_example)) = (2, [0; 1]%nat)
  /\ PPRR.sort_ready (cs_processes (initial pprr_abort_example)) [0; 1]%nat = [0; 1]%nat
  /\ cs_processes (initial pprr_abort_example) !! 0%nat = Some (mkProcess 1 0 1 2 1 0)
  /\ units_run 1 0 (initial pprr_abort_example) = pprr_abort_after_P1
  /\ preempts 2 pprr_abort_after_P1
  /\ PPRR.rotation 2 2 3 [0; 1]%nat (initial pprr_abort_example)
     = Some (pprr_abort_after_P1, true)
  /\ PPRR.rotation 2 2 3 [1%nat] pprr_abort_after_P1
     = Some (mkClock [mkProcess 1 0 1 2 0 1; mkProcess 2 0 2 2 0 3;
                      mkProcess 3 1 1 1 1 0] 3 2, false)
  /\ PPRR.rotation 2 2 3 [0; 1]%nat (initial pprr_abort_example)
     <> PPRR.rotation 2 2 3 [1%nat] pprr_abort_after_P1
  /\ PPRR.iteration 2 3 (initial pprr_abort_example) = Continue pprr_abort_after_P1
  /\ PPRR.iteration 2 3 pprr_abort_after_P1
     = Continue (mkClock [mkProcess 1 0 1 2 0 1; mkProcess 2 0 2 2 2 0;
                          mkProcess 3 1 1 1 0 2] 2 2).
Proof.
  split; [reflexivity|]. split; [reflexivity|]. split; [reflexivity|].
  split; [reflexivity|]. split.
  { exists 2%nat, (mkProcess 3 1 1 1 1 0). repeat split; reflexivity. }
  split; [vm_compute; reflexivity|]. split; [vm_compute; reflexivity|].
  split; [vm_compute; discriminate|]. split; vm_compute; reflexivity.
Qed.
